(** * A hierarchical page-table virtual memory: model and verification

    Shallow embedding of [VirtualMemory.cpp].  Unsigned 64-bit values
    ([uint64_t]) are integers reduced modulo [2^64] wherever the program
    computes them; words ([word_t]) are integers.  The physical memory the
    program runs on is an explicit state that every operation threads. *)

From Stdlib Require Import ZArith List Bool Lia.
Import ListNotations.
Open Scope Z_scope.

(** Reduction of an integer to [uint64_t]. *)
Definition u64 (z : Z) : Z := z mod 2 ^ 64.

(** [#define TOTAL_BITS_NUM 64] *)
Definition TOTAL_BITS_NUM : Z := 64.

(** Modelled from the spec: the calls the program makes to the physical-memory
    collaborator ([PhysicalMemory.h] is not part of the sources).  Reads are
    observations and leave no trace. *)
Inductive PMevent : Type :=
| EvWrite (physicalAddress value : Z)
| EvEvict (frameIndex evictedPageIndex : Z)
| EvRestore (frameIndex restoredPageIndex : Z).

(** Modelled from the spec: the state of the physical-memory collaborator, a
    word store addressed by [frame * PAGE_SIZE + index], a backing storage
    keyed by page number and the history of calls (most recent first). *)
Record PM : Type := mkPM {
  ram : Z -> Z;
  swap : Z -> option (Z -> Z);
  calls : list PMevent
}.

(** The out-parameters of [findNewFrameHelper]. *)
Record Search : Type := mkSearch {
  maxFrame : Z;
  emptyFrame : Z;
  emptyParentAdd : Z;
  maxDistFrame : Z;
  maxDistParentAdd : Z;
  maxDistPage : Z
}.

Definition is_restore (e : PMevent) : bool :=
  match e with EvRestore _ _ => true | _ => false end.

Definition is_evict (e : PMevent) : bool :=
  match e with EvEvict _ _ => true | _ => false end.

Section VirtualMemory.

(** Modelled from the spec: the configuration constants of
    [MemoryConstants.h], fixed for the lifetime of the process. *)
Variables OFFSET_WIDTH TABLES_DEPTH NUM_FRAMES : Z.

(** Modelled from the spec: whether [PMrestore] takes the page out of backing
    storage ([true]) or leaves the stored copy in place ([false]); the spec
    only says that restore loads the stored contents into the frame. *)
Variable RESTORE_MOVES : bool.

Definition PAGE_SIZE : Z := 2 ^ OFFSET_WIDTH.
Definition NUM_PAGES : Z := 2 ^ (TABLES_DEPTH * OFFSET_WIDTH).
Definition VIRTUAL_MEMORY_SIZE : Z := 2 ^ ((TABLES_DEPTH + 1) * OFFSET_WIDTH).

(** The values of a loop counter [for (i = 0; i < PAGE_SIZE; ++i)]. *)
Definition indices : list Z := map Z.of_nat (seq 0 (Z.to_nat PAGE_SIZE)).

(** The physical address [frame * PAGE_SIZE + i], computed in [uint64_t]. *)
Definition paddr (frame i : Z) : Z := u64 (frame * PAGE_SIZE + i).

(** ** The physical-memory collaborator *)

(** Modelled from the spec: [PMread] reads one word. *)
Definition PMread (pm : PM) (physicalAddress : Z) : Z := ram pm physicalAddress.

(** Modelled from the spec: [PMwrite] writes one word. *)
Definition PMwrite (pm : PM) (physicalAddress value : Z) : PM :=
  {| ram := fun a => if a =? physicalAddress then value else ram pm a;
     swap := swap pm;
     calls := EvWrite physicalAddress value :: calls pm |}.

(** Modelled from the spec: [PMevict] persists the current contents of the
    frame to backing storage, associated with the page number. *)
Definition PMevict (pm : PM) (frameIndex evictedPageIndex : Z) : PM :=
  {| ram := ram pm;
     swap := fun p => if p =? evictedPageIndex
                      then Some (fun i => ram pm (frameIndex * PAGE_SIZE + i))
                      else swap pm p;
     calls := EvEvict frameIndex evictedPageIndex :: calls pm |}.

(** Modelled from the spec: [PMrestore] loads the backing-storage contents of
    the page into the frame; a page with no stored contents leaves the frame
    as it is. *)
Definition PMrestore (pm : PM) (frameIndex restoredPageIndex : Z) : PM :=
  match swap pm restoredPageIndex with
  | None =>
      {| ram := ram pm; swap := swap pm;
         calls := EvRestore frameIndex restoredPageIndex :: calls pm |}
  | Some page =>
      {| ram := fun a =>
                  if (frameIndex * PAGE_SIZE <=? a) && (a <? frameIndex * PAGE_SIZE + PAGE_SIZE)
                  then page (a - frameIndex * PAGE_SIZE) else ram pm a;
         swap := if RESTORE_MOVES
                 then (fun p => if p =? restoredPageIndex then None else swap pm p)
                 else swap pm;
         calls := EvRestore frameIndex restoredPageIndex :: calls pm |}
  end.

(** ** The program *)

Definition clearFrame (pm : PM) (frameToClear : Z) : PM :=
  fold_left (fun pm i => PMwrite pm (u64 (frameToClear * PAGE_SIZE + i)) 0) indices pm.

Definition getOffset (address : Z) : Z :=
  let shiftDistance := TOTAL_BITS_NUM - OFFSET_WIDTH in
  Z.shiftr (u64 (Z.shiftl address shiftDistance)) shiftDistance.

Definition getCyclicDist (page1 page2 : Z) : Z :=
  let dist := if page1 >? page2 then page1 - page2 else page2 - page1 in
  if dist <? u64 (NUM_PAGES - dist) then dist else u64 (NUM_PAGES - dist).

(** One iteration of the loop of [findNewFrameHelper] over the entries of
    [currFrame]; [recurse] is the recursive call on the child frame.  The
    state is the out-parameters together with the local [isEmpty]. *)
Definition visitEntry (recurse : Z -> Z -> Search -> Z -> Search) (mem : Z -> Z)
    (currFrame currDepth virtualAdd currPageAdd : Z)
    (st : Search * bool) (i : Z) : Search * bool :=
  let value := mem (paddr currFrame i) in
  if value =? 0 then st else
  let o := fst st in
  let o := if value >? maxFrame o
           then mkSearch value (emptyFrame o) (emptyParentAdd o)
                         (maxDistFrame o) (maxDistParentAdd o) (maxDistPage o)
           else o in
  let ithPageAdd := u64 (Z.shiftl currPageAdd OFFSET_WIDTH + i) in
  if currDepth =? u64 (TABLES_DEPTH - 1) then
    let currDistance := getCyclicDist (Z.shiftr virtualAdd OFFSET_WIDTH) ithPageAdd in
    let maxDistance := getCyclicDist (Z.shiftr virtualAdd OFFSET_WIDTH) (maxDistPage o) in
    if (currDistance >? maxDistance) || (maxDistFrame o =? 0)
    then (mkSearch (maxFrame o) (emptyFrame o) (emptyParentAdd o)
                   value (paddr currFrame i) ithPageAdd, false)
    else (o, false)
  else (recurse value (paddr currFrame i) o ithPageAdd, false).

(** [fuel] bounds the depth of the recursion; [TABLES_DEPTH - currDepth]
    levels are enough (lemma [findNewFrameHelper_fuel]). *)
Fixpoint findNewFrameHelper (fuel : nat) (mem : Z -> Z)
    (currFrame currParentAdd currDepth : Z) (out : Search)
    (virtualAdd lastCreatedFrame currPageAdd : Z) : Search :=
  match fuel with
  | O => out
  | S fuel' =>
      if negb (emptyFrame out =? 0) then out else
      let st :=
        fold_left
          (visitEntry
             (fun value parentAdd o pageAdd =>
                findNewFrameHelper fuel' mem value parentAdd (u64 (currDepth + 1)) o
                                   virtualAdd lastCreatedFrame pageAdd)
             mem currFrame currDepth virtualAdd currPageAdd)
          indices (out, true) in
      if snd st && negb (currFrame =? lastCreatedFrame)
      then mkSearch (maxFrame (fst st)) currFrame currParentAdd
                    (maxDistFrame (fst st)) (maxDistParentAdd (fst st)) (maxDistPage (fst st))
      else fst st
  end.

Definition searchInit : Search := mkSearch 0 0 0 0 0 0.

(** The traversal [findNewFrame] starts at the root. *)
Definition searchTree (mem : Z -> Z) (virtualAdd lastCreatedFrame : Z) : Search :=
  findNewFrameHelper (Z.to_nat TABLES_DEPTH) mem 0 0 0 searchInit
                     virtualAdd lastCreatedFrame 0.

(** Returns the frame stored through [frame] and the memory left behind. *)
Definition findNewFrame (pm : PM) (virtualAdd lastCreatedFrame : Z) : Z * PM :=
  let out := searchTree (ram pm) virtualAdd lastCreatedFrame in
  if negb (emptyFrame out =? 0) then
    (emptyFrame out, PMwrite pm (emptyParentAdd out) 0)
  else if maxFrame out + 1 <? NUM_FRAMES then
    (maxFrame out + 1, pm)
  else
    let pm := PMwrite pm (maxDistParentAdd out) 0 in
    let pm := PMevict pm (u64 (maxDistFrame out)) (maxDistPage out) in
    let pm := clearFrame pm (u64 (maxDistFrame out)) in
    (maxDistFrame out, pm).

(** The state of the loop of [translateVirtualAdd]: the memory and the locals
    [add1] and [currFrame]. *)
Record Walk : Type := mkWalk { w_pm : PM; w_add1 : Z; w_currFrame : Z }.

(** One iteration of the loop of [translateVirtualAdd]. *)
Definition translateLevel (virtualAdd : Z) (level : Z) (w : Walk) : Walk :=
  let currValue := getOffset (Z.shiftr virtualAdd (level * OFFSET_WIDTH)) in
  let currFrame := w_add1 w in
  let add1 := PMread (w_pm w) (paddr currFrame currValue) in
  if add1 =? 0 then
    let r := findNewFrame (w_pm w) virtualAdd currFrame in
    mkWalk (PMwrite (snd r) (paddr currFrame currValue) (fst r)) (fst r) currFrame
  else mkWalk (w_pm w) add1 currFrame.

(** The loop [for (level = depth; level > 0; level--)]. *)
Fixpoint translateLoop (virtualAdd : Z) (level : nat) (w : Walk) : Walk :=
  match level with
  | O => w
  | S level' => translateLoop virtualAdd level' (translateLevel virtualAdd (Z.of_nat level) w)
  end.

(** Returns the frame stored through [frameToSave] and the memory left
    behind.  [currFrame] is declared without a value; it is assigned in the
    first iteration. *)
Definition translateVirtualAdd (pm : PM) (virtualAdd : Z) : Z * PM :=
  let w := translateLoop virtualAdd (Z.to_nat TABLES_DEPTH) (mkWalk pm 0 0) in
  let pm := PMrestore (w_pm w) (u64 (w_add1 w)) (Z.shiftr virtualAdd OFFSET_WIDTH) in
  (PMread pm (paddr (w_currFrame w) (getOffset (Z.shiftr virtualAdd OFFSET_WIDTH))), pm).

Definition VMinitialize (pm : PM) : PM := clearFrame pm 0.

(** Returns the status, the word stored through [value] (if any) and the
    memory left behind. *)
Definition VMread (pm : PM) (virtualAddress : Z) : Z * option Z * PM :=
  if virtualAddress >? VIRTUAL_MEMORY_SIZE - 1 then (0, None, pm) else
  let r := translateVirtualAdd pm virtualAddress in
  (1, Some (PMread (snd r) (paddr (fst r) (getOffset virtualAddress))), snd r).

Definition VMwrite (pm : PM) (virtualAddress value : Z) : Z * PM :=
  if virtualAddress >? VIRTUAL_MEMORY_SIZE - 1 then (0, pm) else
  let r := translateVirtualAdd pm virtualAddress in
  (1, PMwrite (snd r) (paddr (fst r) (getOffset virtualAddress)) value).

(** ** The page-table tree, as the traversal sees it *)

(** A nonzero entry of a table: where it is stored, the frame it points to,
    the page-number prefix of that frame, and whether the entry belongs to a
    table of depth [TABLES_DEPTH - 1] (the frame is then a data frame). *)
Record Link : Type := mkLink { l_addr : Z; l_frame : Z; l_page : Z; l_leaf : bool }.

(** The links below one entry of [currFrame]; [below] lists the links below
    the child frame. *)
Definition entryLinks (below : Z -> Z -> list Link) (mem : Z -> Z)
    (currFrame currDepth currPageAdd : Z) (i : Z) : list Link :=
  let value := mem (paddr currFrame i) in
  if value =? 0 then [] else
  let ithPageAdd := u64 (Z.shiftl currPageAdd OFFSET_WIDTH + i) in
  if currDepth =? u64 (TABLES_DEPTH - 1)
  then [mkLink (paddr currFrame i) value ithPageAdd true]
  else mkLink (paddr currFrame i) value ithPageAdd false :: below value ithPageAdd.

(** The links of the subtree below [currFrame] in depth-first pre-order,
    entries in increasing index. *)
Fixpoint links (fuel : nat) (mem : Z -> Z) (currFrame currDepth currPageAdd : Z) : list Link :=
  match fuel with
  | O => []
  | S fuel' =>
      flat_map
        (entryLinks (fun value pageAdd => links fuel' mem value (u64 (currDepth + 1)) pageAdd)
                    mem currFrame currDepth currPageAdd)
        indices
  end.

(** All links of the tree rooted at frame 0. *)
Definition treeLinks (mem : Z -> Z) : list Link :=
  links (Z.to_nat TABLES_DEPTH) mem 0 0 0.

(** A frame is empty when every one of its [PAGE_SIZE] entries is 0. *)
Definition frameIsEmpty (mem : Z -> Z) (frame : Z) : bool :=
  forallb (fun i => mem (paddr frame i) =? 0) indices.

(** A table frame that can be reused: linked, empty and not the protected
    frame. *)
Definition reusable (mem : Z -> Z) (lastCreatedFrame : Z) (l : Link) : bool :=
  negb (l_leaf l) && frameIsEmpty mem (l_frame l) && negb (l_frame l =? lastCreatedFrame).

(** The highest frame index among links. *)
Definition maxUsed (ls : list Link) : Z := fold_left Z.max (map l_frame ls) 0.

(** The leaf link whose page is farthest from [page], the first one in case
    of a tie; [best] is the choice so far. *)
Fixpoint farthest (page : Z) (best : option Link) (ls : list Link) : option Link :=
  match ls with
  | [] => best
  | l :: rest =>
      if l_leaf l then
        match best with
        | None => farthest page (Some l) rest
        | Some b =>
            if getCyclicDist page (l_page l) >? getCyclicDist page (l_page b)
            then farthest page (Some l) rest
            else farthest page best rest
        end
      else farthest page best rest
  end.

(** What one link contributes to the out-parameters of a traversal that finds
    no reusable frame. *)
Definition absorb (virtualAdd : Z) (o : Search) (l : Link) : Search :=
  let o := if l_frame l >? maxFrame o
           then mkSearch (l_frame l) (emptyFrame o) (emptyParentAdd o)
                         (maxDistFrame o) (maxDistParentAdd o) (maxDistPage o)
           else o in
  if l_leaf l then
    if (getCyclicDist (Z.shiftr virtualAdd OFFSET_WIDTH) (l_page l) >?
        getCyclicDist (Z.shiftr virtualAdd OFFSET_WIDTH) (maxDistPage o))
       || (maxDistFrame o =? 0)
    then mkSearch (maxFrame o) (emptyFrame o) (emptyParentAdd o)
                  (l_frame l) (l_addr l) (l_page l)
    else o
  else o.

(** ** Paths in the page table *)

(** The frame reached from [frame] by following the entries with the indices
    of [path], most significant first; [None] when an entry on the way is 0. *)
Fixpoint walk (mem : Z -> Z) (frame : Z) (path : list Z) : option Z :=
  match path with
  | [] => Some frame
  | i :: rest =>
      if mem (paddr frame i) =? 0 then None else walk mem (mem (paddr frame i)) rest
  end.

(** The indices of a path are table indices. *)
Definition vpath (path : list Z) : Prop := Forall (fun i => 0 <= i < PAGE_SIZE) path.

Definition plen (path : list Z) : Z := Z.of_nat (length path).

(** The page-number prefix the traversal computes along a path. *)
Definition pageOf (pageAdd : Z) (path : list Z) : Z :=
  fold_left (fun acc i => u64 (Z.shiftl acc OFFSET_WIDTH + i)) path pageAdd.

(** The indices the translator uses for a page, from level [n] down to 1. *)
Fixpoint pathOf (n : nat) (page : Z) : list Z :=
  match n with
  | O => []
  | S n' => getOffset (Z.shiftr page (Z.of_nat n' * OFFSET_WIDTH)) :: pathOf n' page
  end.

(** The path of a virtual address. *)
Definition pathOfAddress (virtualAdd : Z) : list Z :=
  pathOf (Z.to_nat TABLES_DEPTH) (Z.shiftr virtualAdd OFFSET_WIDTH).

(** The page table is a tree over the frames [1..used]: every mapped path
    ends in one of these frames, no frame is reached by two paths, and the
    frames above [used] hold zeros. *)
Record Tree (mem : Z -> Z) (used : Z) : Prop := mkTree {
  tree_range : forall p f, vpath p -> p <> [] -> plen p <= TABLES_DEPTH ->
                 walk mem 0 p = Some f -> 1 <= f <= used;
  tree_inj : forall p q f, vpath p -> vpath q ->
                 plen p <= TABLES_DEPTH -> plen q <= TABLES_DEPTH ->
                 walk mem 0 p = Some f -> walk mem 0 q = Some f -> p = q;
  tree_unused : forall f i, used < f -> 0 <= i < PAGE_SIZE -> mem (f * PAGE_SIZE + i) = 0;
  tree_used : 0 <= used < NUM_FRAMES
}.

(** Every frame of [1..used] other than [hole] is linked in the tree. *)
Definition Linked (mem : Z -> Z) (used hole : Z) : Prop :=
  forall f, 1 <= f <= used -> f <> hole ->
    exists p, vpath p /\ plen p <= TABLES_DEPTH /\ walk mem 0 p = Some f.

(** The frame holds zeros and no path leads to it. *)
Definition Hole (mem : Z -> Z) (hole : Z) : Prop :=
  (forall i, 0 <= i < PAGE_SIZE -> mem (hole * PAGE_SIZE + i) = 0) /\
  (forall p, vpath p -> plen p <= TABLES_DEPTH -> walk mem 0 p <> Some hole).

(** A call to the collaborator that stays within the frames [1..used]; a
    write may also concern the root frame. *)
Definition below (used : Z) (e : PMevent) : Prop :=
  match e with
  | EvWrite a _ => 0 <= a < (used + 1) * PAGE_SIZE
  | EvEvict f _ => 1 <= f <= used
  | EvRestore f _ => 1 <= f <= used
  end.

(** The word that holds the data of a virtual address: in the data frame of
    its page when the page is mapped, in backing storage otherwise (0 when
    the page was never stored). *)
Definition stored (pm : PM) (virtualAdd : Z) : Z :=
  match walk (ram pm) 0 (pathOfAddress virtualAdd) with
  | Some frame => ram pm (frame * PAGE_SIZE + getOffset virtualAdd)
  | None =>
      match swap pm (Z.shiftr virtualAdd OFFSET_WIDTH) with
      | Some page => page (getOffset virtualAdd)
      | None => 0
      end
  end.

(** ** Executions *)

(** Modelled from the spec: the collaborator as the process starts, with
    every word 0, nothing in backing storage and no call made. *)
Definition PMinit : PM := mkPM (fun _ => 0) (fun _ => None) [].

(** The states the program can be in: after [VMinitialize] and any number of
    calls of [VMread] and [VMwrite] on [uint64_t] addresses. *)
Inductive Reachable : PM -> Prop :=
| reach_init : Reachable (VMinitialize PMinit)
| reach_read pm va :
    Reachable pm -> 0 <= va < 2 ^ 64 -> Reachable (snd (VMread pm va))
| reach_write pm va value :
    Reachable pm -> 0 <= va < 2 ^ 64 -> Reachable (snd (VMwrite pm va value)).

(** A call of the interface. *)
Inductive Op : Type :=
| OpRead (virtualAddress : Z)
| OpWrite (virtualAddress value : Z).

Definition runOp (pm : PM) (op : Op) : PM :=
  match op with
  | OpRead va => snd (VMread pm va)
  | OpWrite va value => snd (VMwrite pm va value)
  end.

Definition run (ops : list Op) (pm : PM) : PM := fold_left runOp ops pm.

(** The first [n] iterations of [translateLoop virtualAdd level]. *)
Fixpoint loopPrefix (virtualAdd : Z) (level n : nat) (w : Walk) : Walk :=
  match n, level with
  | S n', S level' =>
      loopPrefix virtualAdd level' n' (translateLevel virtualAdd (Z.of_nat level) w)
  | _, _ => w
  end.

(** [findNewFrame] is called on [pm] for [virtualAdd] with the protected frame
    [lastCreatedFrame]: in the translation of an address below
    [VIRTUAL_MEMORY_SIZE] started in a reachable state, after [n] iterations
    the entry the loop reads is 0. *)
Definition AllocSite (pm : PM) (virtualAdd lastCreatedFrame : Z) : Prop :=
  exists pm0 n,
    Reachable pm0 /\ 0 <= virtualAdd < VIRTUAL_MEMORY_SIZE /\
    (n < Z.to_nat TABLES_DEPTH)%nat /\
    let w := loopPrefix virtualAdd (Z.to_nat TABLES_DEPTH) n (mkWalk pm0 0 0) in
    pm = w_pm w /\ lastCreatedFrame = w_add1 w /\
    PMread pm (paddr lastCreatedFrame
                 (getOffset (Z.shiftr virtualAdd
                               (Z.of_nat (Z.to_nat TABLES_DEPTH - n) * OFFSET_WIDTH)))) = 0.

(** An intervening call that does not write to [a]. *)
Definition harmless (a : Z) (op : Op) : Prop :=
  match op with
  | OpRead b => 0 <= b < 2 ^ 64
  | OpWrite b _ => 0 <= b < 2 ^ 64 /\ b <> a
  end.

(** An intervening call at an address of another page than the one of [a]. *)
Definition elsewhere (a : Z) (op : Op) : Prop :=
  match op with
  | OpRead b => 0 <= b < 2 ^ 64 /\ Z.shiftr b OFFSET_WIDTH <> Z.shiftr a OFFSET_WIDTH
  | OpWrite b _ => 0 <= b < 2 ^ 64 /\ Z.shiftr b OFFSET_WIDTH <> Z.shiftr a OFFSET_WIDTH
  end.

(** The cyclic distance between two page numbers as the specification words
    it, [d(a, b) = min(|a - b|, NUM_PAGES - |a - b|)], on the integers; the
    program's [getCyclicDist] is compared with it. *)
Definition cyclicDistance (a b : Z) : Z :=
  Z.min (Z.abs (a - b)) (NUM_PAGES - Z.abs (a - b)).

(** The call touches the frame. *)
Definition concerns (frame : Z) (e : PMevent) : Prop :=
  match e with
  | EvWrite a _ => frame * PAGE_SIZE <= a < frame * PAGE_SIZE + PAGE_SIZE
  | EvEvict f _ => f = frame
  | EvRestore f _ => f = frame
  end.

(** ** Arithmetic of addresses *)

Lemma u64_small (z : Z) : 0 <= z < 2 ^ 64 -> u64 z = z.
Proof. intros H. unfold u64. now apply Z.mod_small. Qed.

Lemma u64_range (z : Z) : 0 <= u64 z < 2 ^ 64.
Proof. unfold u64. apply Z.mod_pos_bound. lia. Qed.

Lemma PAGE_SIZE_pos : 0 <= OFFSET_WIDTH -> 0 < PAGE_SIZE.
Proof. intros H. unfold PAGE_SIZE. now apply Z.pow_pos_nonneg. Qed.

Lemma In_indices (i : Z) : In i indices <-> 0 <= i < PAGE_SIZE.
Proof.
  unfold indices. rewrite in_map_iff. split.
  - intros [n [<- Hn]]. apply in_seq in Hn. lia.
  - intros H. exists (Z.to_nat i). split; [lia|]. apply in_seq. lia.
Qed.

Lemma getOffset_mod (a : Z) :
  0 <= OFFSET_WIDTH <= 64 -> getOffset a = a mod PAGE_SIZE.
Proof.
  intros HW. unfold getOffset, TOTAL_BITS_NUM, u64, PAGE_SIZE.
  rewrite Z.shiftl_mul_pow2, Z.shiftr_div_pow2 by lia.
  replace (2 ^ 64) with (2 ^ OFFSET_WIDTH * 2 ^ (64 - OFFSET_WIDTH)).
  - rewrite Z.mul_mod_distr_r by (apply Z.pow_nonzero; lia).
    apply Z.div_mul. apply Z.pow_nonzero; lia.
  - rewrite <- Z.pow_add_r by lia. f_equal. lia.
Qed.

Lemma getOffset_range (a : Z) :
  0 <= OFFSET_WIDTH <= 64 -> 0 <= getOffset a < PAGE_SIZE.
Proof.
  intros HW. rewrite getOffset_mod by assumption.
  apply Z.mod_pos_bound. apply PAGE_SIZE_pos. lia.
Qed.

(** ** The bounds check of [VMread] and [VMwrite] *)

(** C5: [VMread] and [VMwrite] return 0 exactly for the addresses that are at
    least [VIRTUAL_MEMORY_SIZE], and then leave the memory, the backing
    storage and the history of collaborator calls as they were; for every
    other address they return 1. *)
Theorem VM_bounds_check (pm : PM) (virtualAddress value : Z) :
  (fst (fst (VMread pm virtualAddress)) = 0 <-> VIRTUAL_MEMORY_SIZE <= virtualAddress) /\
  (fst (VMwrite pm virtualAddress value) = 0 <-> VIRTUAL_MEMORY_SIZE <= virtualAddress) /\
  (VIRTUAL_MEMORY_SIZE <= virtualAddress ->
     VMread pm virtualAddress = (0, None, pm) /\ VMwrite pm virtualAddress value = (0, pm)) /\
  (virtualAddress < VIRTUAL_MEMORY_SIZE ->
     fst (fst (VMread pm virtualAddress)) = 1 /\ fst (VMwrite pm virtualAddress value) = 1).
Proof.
  unfold VMread, VMwrite.
  destruct (virtualAddress >? VIRTUAL_MEMORY_SIZE - 1) eqn:E; cbn [fst snd].
  - apply Z.gtb_lt in E. repeat split; intros; try reflexivity; lia.
  - assert (virtualAddress < VIRTUAL_MEMORY_SIZE).
    { destruct (Z.gtb_spec virtualAddress (VIRTUAL_MEMORY_SIZE - 1)); [discriminate | lia]. }
    repeat split; intros; try reflexivity; lia.
Qed.

(** ** The cyclic distance *)

Lemma getCyclicDist_min (a b : Z) :
  NUM_PAGES < 2 ^ 64 -> 0 <= a < NUM_PAGES -> 0 <= b < NUM_PAGES ->
  getCyclicDist a b = Z.min (Z.abs (a - b)) (NUM_PAGES - Z.abs (a - b)).
Proof.
  intros HN Ha Hb. unfold getCyclicDist.
  assert (Hd : (if a >? b then a - b else b - a) = Z.abs (a - b)).
  { destruct (Z.gtb_spec a b); lia. }
  rewrite Hd. rewrite u64_small by lia.
  destruct (Z.ltb_spec (Z.abs (a - b)) (NUM_PAGES - Z.abs (a - b))); lia.
Qed.

(** ** Walking the tree *)

Lemma walk_app mem : forall p q f,
  walk mem f (p ++ q) = match walk mem f p with Some g => walk mem g q | None => None end.
Proof.
  induction p as [|i p IH]; intros q f; [reflexivity|].
  cbn [app walk]. destruct (mem (paddr f i) =? 0); [reflexivity | apply IH].
Qed.

Lemma walk_snoc mem p i f :
  walk mem f (p ++ [i]) =
  match walk mem f p with
  | Some g => if mem (paddr g i) =? 0 then None else Some (mem (paddr g i))
  | None => None
  end.
Proof. rewrite walk_app. destruct (walk mem f p); reflexivity. Qed.

Lemma walk_nonzero mem : forall p f g, p <> [] -> walk mem f p = Some g -> g <> 0.
Proof.
  intros p. induction p as [|i p IH] using rev_ind; intros f g Hp H; [congruence|].
  rewrite walk_snoc in H. destruct (walk mem f p); [|discriminate].
  destruct (Z.eqb_spec (mem (paddr z i)) 0); [discriminate|]. congruence.
Qed.

Lemma walk_prefix mem p q f g :
  walk mem f (p ++ q) = Some g -> exists h, walk mem f p = Some h /\ walk mem h q = Some g.
Proof. rewrite walk_app. destruct (walk mem f p) as [h|]; [eauto | discriminate]. Qed.

(** A walk only depends on the entries it follows. *)
Lemma walk_same mem mem' f : forall p,
  (forall q i r g, p = q ++ i :: r -> walk mem f q = Some g ->
     mem' (paddr g i) = mem (paddr g i)) ->
  walk mem' f p = walk mem f p.
Proof.
  intros p. induction p as [|i p IH] using rev_ind; intros H; [reflexivity|].
  rewrite !walk_snoc. rewrite IH.
  - destruct (walk mem f p) as [g|] eqn:E; [|reflexivity].
    rewrite (H p i [] g); auto.
  - intros q j r g Hq Hw. apply (H q j (r ++ [i]) g); [|exact Hw].
    rewrite Hq. rewrite <- app_assoc. reflexivity.
Qed.

Lemma vpath_app p q : vpath (p ++ q) <-> vpath p /\ vpath q.
Proof. unfold vpath. apply Forall_app. Qed.

Lemma plen_app p q : plen (p ++ q) = plen p + plen q.
Proof. unfold plen. rewrite length_app. lia. Qed.

Lemma plen_nonneg p : 0 <= plen p.
Proof. unfold plen. lia. Qed.

(** ** Calls to the collaborator *)

Lemma clearFrame_fold (js : list Z) (frame : Z) : forall pm,
  let pm' := fold_left (fun pm i => PMwrite pm (u64 (frame * PAGE_SIZE + i)) 0) js pm in
  swap pm' = swap pm /\
  filter is_restore (calls pm') = filter is_restore (calls pm) /\
  filter is_evict (calls pm') = filter is_evict (calls pm) /\
  (forall a, ram pm' a = if existsb (fun i => a =? u64 (frame * PAGE_SIZE + i)) js
                         then 0 else ram pm a).
Proof.
  induction js as [|i js IH]; intros pm; cbn zeta.
  - simpl. auto.
  - cbn [fold_left existsb]. destruct (IH (PMwrite pm (u64 (frame * PAGE_SIZE + i)) 0)) as (A & B & C & D).
    repeat split; try assumption.
    intros a. rewrite D. cbn [ram PMwrite].
    destruct (a =? u64 (frame * PAGE_SIZE + i)); cbn [orb];
      destruct (existsb _ js); reflexivity.
Qed.

Lemma clearFrame_swap pm frame : swap (clearFrame pm frame) = swap pm.
Proof. apply (clearFrame_fold indices frame pm). Qed.

Lemma clearFrame_restores pm frame :
  filter is_restore (calls (clearFrame pm frame)) = filter is_restore (calls pm).
Proof. apply (clearFrame_fold indices frame pm). Qed.

Lemma clearFrame_evicts pm frame :
  filter is_evict (calls (clearFrame pm frame)) = filter is_evict (calls pm).
Proof. apply (clearFrame_fold indices frame pm). Qed.

Lemma clearFrame_ram pm frame a :
  ram (clearFrame pm frame) a =
  if existsb (fun i => a =? u64 (frame * PAGE_SIZE + i)) indices then 0 else ram pm a.
Proof. apply (clearFrame_fold indices frame pm). Qed.

Lemma clearFrame_calls pm frame :
  exists new, calls (clearFrame pm frame) = new ++ calls pm /\
    Forall (fun e => exists i, 0 <= i < PAGE_SIZE /\ e = EvWrite (u64 (frame * PAGE_SIZE + i)) 0) new.
Proof.
  unfold clearFrame.
  assert (G : forall js pm0, (forall i, In i js -> 0 <= i < PAGE_SIZE) ->
            exists new,
              calls (fold_left (fun pm i => PMwrite pm (u64 (frame * PAGE_SIZE + i)) 0) js pm0) =
              new ++ calls pm0 /\
              Forall (fun e => exists i, 0 <= i < PAGE_SIZE /\
                                         e = EvWrite (u64 (frame * PAGE_SIZE + i)) 0) new).
  { induction js as [|i js IH]; intros pm0 Hjs.
    - exists []. split; [reflexivity | constructor].
    - cbn [fold_left].
      destruct (IH (PMwrite pm0 (u64 (frame * PAGE_SIZE + i)) 0)) as (new & E & F).
      { intros j Hj. apply Hjs. now right. }
      exists (new ++ [EvWrite (u64 (frame * PAGE_SIZE + i)) 0]). split.
      + rewrite E. cbn [PMwrite calls]. now rewrite <- app_assoc.
      + apply Forall_app. split; [assumption|]. constructor; [|constructor].
        exists i. split; [apply Hjs; now left | reflexivity]. }
  apply G. intros i Hi. now apply In_indices.
Qed.

Lemma findNewFrame_restores pm va last :
  filter is_restore (calls (snd (findNewFrame pm va last))) = filter is_restore (calls pm).
Proof.
  unfold findNewFrame.
  destruct (negb (emptyFrame (searchTree (ram pm) va last) =? 0)); [reflexivity|].
  destruct (maxFrame (searchTree (ram pm) va last) + 1 <? NUM_FRAMES); [reflexivity|].
  cbn [snd]. rewrite clearFrame_restores. reflexivity.
Qed.

Lemma translateLevel_restores va level w :
  filter is_restore (calls (w_pm (translateLevel va level w))) =
  filter is_restore (calls (w_pm w)).
Proof.
  unfold translateLevel. destruct (PMread _ _ =? 0); [|reflexivity].
  cbn [w_pm PMwrite calls filter is_restore]. apply findNewFrame_restores.
Qed.

Lemma translateLoop_restores va level : forall w,
  filter is_restore (calls (w_pm (translateLoop va level w))) =
  filter is_restore (calls (w_pm w)).
Proof.
  induction level as [|level IH]; intros w; [reflexivity|].
  cbn [translateLoop]. rewrite IH. apply translateLevel_restores.
Qed.

Lemma PMrestore_calls pm frame page :
  calls (PMrestore pm frame page) = EvRestore frame page :: calls pm.
Proof. unfold PMrestore. destruct (swap pm page); reflexivity. Qed.

(** C4 (as the program has it): every translation calls [PMrestore] exactly
    once, after the walk, for the frame the walk ended in and the page of the
    address, whether or not the entry of the last level was 0. *)
Theorem translate_restores_once (pm : PM) (virtualAdd : Z) :
  filter is_restore (calls (snd (translateVirtualAdd pm virtualAdd))) =
  EvRestore (u64 (w_add1 (translateLoop virtualAdd (Z.to_nat TABLES_DEPTH) (mkWalk pm 0 0))))
            (Z.shiftr virtualAdd OFFSET_WIDTH)
  :: filter is_restore (calls pm).
Proof.
  unfold translateVirtualAdd. cbn [snd]. rewrite PMrestore_calls.
  cbn [filter is_restore]. f_equal. apply (translateLoop_restores virtualAdd _ (mkWalk pm 0 0)).
Qed.

(** C10: in the fresh-index tier [findNewFrame] returns [maxFrame + 1] and
    leaves the memory as it was, without any call to the collaborator; the
    iteration of the translator that asked for the frame then performs a
    single write, the one of the link, so that every other word, those of
    the new frame among them, keeps the value it had.  In the reuse tier the
    allocator makes a single write, which zeroes the entry that pointed to
    the frame, so that [clearFrame] is left to [VMinitialize] and to the
    eviction tier. *)
Theorem fresh_frame_not_cleared (pm : PM) (virtualAdd level lastCreatedFrame : Z) :
  (emptyFrame (searchTree (ram pm) virtualAdd lastCreatedFrame) <> 0 ->
   findNewFrame pm virtualAdd lastCreatedFrame =
   (emptyFrame (searchTree (ram pm) virtualAdd lastCreatedFrame),
    PMwrite pm (emptyParentAdd (searchTree (ram pm) virtualAdd lastCreatedFrame)) 0)) /\
  (emptyFrame (searchTree (ram pm) virtualAdd lastCreatedFrame) = 0 ->
   maxFrame (searchTree (ram pm) virtualAdd lastCreatedFrame) + 1 < NUM_FRAMES ->
   let fresh := maxFrame (searchTree (ram pm) virtualAdd lastCreatedFrame) + 1 in
   let link := paddr lastCreatedFrame (getOffset (Z.shiftr virtualAdd (level * OFFSET_WIDTH))) in
   findNewFrame pm virtualAdd lastCreatedFrame = (fresh, pm) /\
   (PMread pm link = 0 ->
    forall previous w, w = translateLevel virtualAdd level (mkWalk pm lastCreatedFrame previous) ->
      w_add1 w = fresh /\
      calls (w_pm w) = EvWrite link fresh :: calls pm /\
      (forall a, a <> link -> ram (w_pm w) a = ram pm a) /\
      (forall i, paddr fresh i <> link -> ram (w_pm w) (paddr fresh i) = ram pm (paddr fresh i)))).
Proof.
  split.
  { intros Hne. unfold findNewFrame. cbn zeta.
    destruct (Z.eqb_spec (emptyFrame (searchTree (ram pm) virtualAdd lastCreatedFrame)) 0);
      [contradiction | reflexivity]. }
  intros He Hm fresh link.
  assert (Hf : findNewFrame pm virtualAdd lastCreatedFrame = (fresh, pm)).
  { unfold findNewFrame. rewrite He. cbn [Z.eqb negb].
    destruct (Z.ltb_spec (maxFrame (searchTree (ram pm) virtualAdd lastCreatedFrame) + 1) NUM_FRAMES);
      [reflexivity | lia]. }
  split; [exact Hf|].
  intros Hz previous w Hw.
  unfold translateLevel in Hw. cbn [w_pm w_add1] in Hw. fold link in Hw.
  rewrite Hz in Hw. cbn [Z.eqb] in Hw. rewrite Hf in Hw. cbn [fst snd] in Hw.
  assert (Hr : forall a, a <> link -> ram (w_pm w) a = ram pm a).
  { intros a Ha. rewrite Hw. cbn [w_pm PMwrite ram].
    destruct (Z.eqb_spec a link); [contradiction | reflexivity]. }
  rewrite Hw at 1 2. cbn [w_add1 w_pm PMwrite calls]. auto.
Qed.

(** ** The traversal computes the first reusable frame, or else the folds *)

Section Traversal.

Variable mem : Z -> Z.
Variables virtualAdd lastCreatedFrame : Z.

Let descend (fuel : nat) (currDepth : Z) : Z -> Z -> Search -> Z -> Search :=
  fun value parentAdd o pageAdd =>
    findNewFrameHelper fuel mem value parentAdd (u64 (currDepth + 1)) o
                       virtualAdd lastCreatedFrame pageAdd.

Let below (fuel : nat) (currDepth : Z) : Z -> Z -> list Link :=
  fun value pageAdd => links fuel mem value (u64 (currDepth + 1)) pageAdd.

Lemma findNewFrameHelper_found fuel f pa d out pg :
  emptyFrame out <> 0 ->
  findNewFrameHelper fuel mem f pa d out virtualAdd lastCreatedFrame pg = out.
Proof.
  intros H. destruct fuel; [reflexivity|]. simpl.
  destruct (emptyFrame out =? 0) eqn:E; [apply Z.eqb_eq in E; contradiction | reflexivity].
Qed.

Lemma fold_left_same {A B : Type} (g h : A -> B -> A) (l : list B) :
  (forall a b, g a b = h a b) -> forall a, fold_left g l a = fold_left h l a.
Proof.
  intros E. induction l as [|b l IH]; intros a; [reflexivity|].
  cbn [fold_left]. rewrite E. apply IH.
Qed.

Lemma visitEntry_found fuel f d pg st i :
  emptyFrame (fst st) <> 0 ->
  emptyFrame (fst (visitEntry (descend fuel d) mem f d virtualAdd pg st i)) = emptyFrame (fst st) /\
  emptyParentAdd (fst (visitEntry (descend fuel d) mem f d virtualAdd pg st i)) = emptyParentAdd (fst st) /\
  (snd st = false -> snd (visitEntry (descend fuel d) mem f d virtualAdd pg st i) = false).
Proof.
  intros H. unfold visitEntry.
  destruct (mem (paddr f i) =? 0); [auto|].
  set (o := if mem (paddr f i) >? maxFrame (fst st) then _ else fst st).
  assert (Ho : emptyFrame o = emptyFrame (fst st) /\ emptyParentAdd o = emptyParentAdd (fst st)).
  { unfold o. destruct (mem (paddr f i) >? maxFrame (fst st)); auto. }
  destruct Ho as [Ho1 Ho2].
  destruct (d =? u64 (TABLES_DEPTH - 1)).
  - destruct (_ || _); cbn [fst snd emptyFrame emptyParentAdd]; auto.
  - unfold descend. rewrite findNewFrameHelper_found by congruence.
    cbn [fst snd]. auto.
Qed.

Lemma fold_visitEntry_found fuel f d pg js : forall st,
  emptyFrame (fst st) <> 0 ->
  emptyFrame (fst (fold_left (visitEntry (descend fuel d) mem f d virtualAdd pg) js st)) = emptyFrame (fst st) /\
  emptyParentAdd (fst (fold_left (visitEntry (descend fuel d) mem f d virtualAdd pg) js st)) = emptyParentAdd (fst st) /\
  (snd st = false -> snd (fold_left (visitEntry (descend fuel d) mem f d virtualAdd pg) js st) = false).
Proof.
  induction js as [|i js IH]; intros st H; [simpl; auto|].
  simpl. destruct (visitEntry_found fuel f d pg st i H) as (E1 & E2 & E3).
  destruct (IH (visitEntry (descend fuel d) mem f d virtualAdd pg st i)) as (F1 & F2 & F3);
    [congruence|].
  repeat split; try congruence. auto.
Qed.

Lemma absorb_emptyFrame o l : emptyFrame (absorb virtualAdd o l) = emptyFrame o.
Proof.
  unfold absorb. destruct (l_frame l >? maxFrame o); destruct (l_leaf l);
    try destruct (_ || _); reflexivity.
Qed.

Lemma fold_absorb_emptyFrame ls : forall o,
  emptyFrame (fold_left (absorb virtualAdd) ls o) = emptyFrame o.
Proof.
  induction ls as [|l ls IH]; intros o; [reflexivity|].
  simpl. rewrite IH. apply absorb_emptyFrame.
Qed.

Lemma frameIsEmpty_links fuel f d pg :
  frameIsEmpty mem f = true -> links fuel mem f d pg = [].
Proof.
  intros H. destruct fuel; [reflexivity|]. simpl.
  unfold frameIsEmpty in H. rewrite forallb_forall in H.
  induction indices as [|i js IH]; [reflexivity|].
  simpl. unfold entryLinks at 1. rewrite (H i) by (left; reflexivity).
  simpl. apply IH. intros x Hx. apply H. now right.
Qed.

Hypothesis depth_fits : 1 <= TABLES_DEPTH < 2 ^ 64.

(** The recursion never runs out of fuel: from depth [currDepth] it goes
    through [TABLES_DEPTH - currDepth] levels, and more fuel changes
    nothing. *)
Lemma findNewFrameHelper_fuel extra : forall fuel f pa d out pg,
  0 <= d -> Z.of_nat fuel = TABLES_DEPTH - d -> (1 <= fuel)%nat ->
  findNewFrameHelper (fuel + extra) mem f pa d out virtualAdd lastCreatedFrame pg =
  findNewFrameHelper fuel mem f pa d out virtualAdd lastCreatedFrame pg.
Proof.
  induction fuel as [|fuel IH]; intros f pa d out pg Hd Hfuel Hpos; [lia|].
  cbn [Nat.add findNewFrameHelper].
  destruct (negb (emptyFrame out =? 0)); [reflexivity|].
  rewrite (fold_left_same
             (visitEntry (descend (fuel + extra) d) mem f d virtualAdd pg)
             (visitEntry (descend fuel d) mem f d virtualAdd pg)); [reflexivity|].
  intros st i. unfold visitEntry.
  destruct (mem (paddr f i) =? 0); [reflexivity|]. cbn zeta.
  rewrite (u64_small (TABLES_DEPTH - 1)) by lia.
  destruct (Z.eqb_spec d (TABLES_DEPTH - 1)); [reflexivity|].
  f_equal. unfold descend. rewrite (u64_small (d + 1)) by lia. apply IH; lia.
Qed.

Lemma find_app {A} (p : A -> bool) (xs ys : list A) :
  find p (xs ++ ys) = match find p xs with Some x => Some x | None => find p ys end.
Proof. induction xs as [|x xs IH]; simpl; [reflexivity|]. destruct (p x); auto. Qed.

Lemma links_frame_nonzero fuel : forall f d pg l,
  In l (links fuel mem f d pg) -> l_frame l <> 0.
Proof.
  induction fuel as [|fuel IH]; intros f d pg l; simpl; [tauto|].
  rewrite in_flat_map. intros [i [_ Hl]]. unfold entryLinks in Hl.
  destruct (mem (paddr f i) =? 0) eqn:E; [destruct Hl|].
  apply Z.eqb_neq in E.
  destruct (d =? u64 (TABLES_DEPTH - 1)); simpl in Hl.
  - destruct Hl as [<-|[]]. exact E.
  - destruct Hl as [<-|Hl]; [exact E|]. eapply IH; eauto.
Qed.

(** What a call of the helper that starts with no empty frame found returns. *)
Definition helper_spec (fuel : nat) (f pa d : Z) (out : Search) (pg : Z) : Prop :=
  let r := findNewFrameHelper fuel mem f pa d out virtualAdd lastCreatedFrame pg in
  match find (reusable mem lastCreatedFrame) (links fuel mem f d pg) with
  | Some l => emptyFrame r = l_frame l /\ emptyParentAdd r = l_addr l
  | None =>
      r = if frameIsEmpty mem f && negb (f =? lastCreatedFrame)
          then mkSearch (maxFrame out) f pa (maxDistFrame out) (maxDistParentAdd out) (maxDistPage out)
          else fold_left (absorb virtualAdd) (links fuel mem f d pg) out
  end.

Lemma fold_visitEntry_links fuel f d pg :
  0 <= d -> Z.of_nat (S fuel) = TABLES_DEPTH - d ->
  (forall f' pa' out' pg', emptyFrame out' = 0 -> (1 <= fuel)%nat ->
     helper_spec fuel f' pa' (d + 1) out' pg') ->
  forall js st, emptyFrame (fst st) = 0 ->
  let st' := fold_left (visitEntry (descend fuel d) mem f d virtualAdd pg) js st in
  match find (reusable mem lastCreatedFrame)
             (flat_map (entryLinks (below fuel d) mem f d pg) js) with
  | Some l => emptyFrame (fst st') = l_frame l /\ emptyParentAdd (fst st') = l_addr l /\
              snd st' = false
  | None => fst st' = fold_left (absorb virtualAdd)
                                (flat_map (entryLinks (below fuel d) mem f d pg) js) (fst st) /\
            snd st' = snd st && forallb (fun i => mem (paddr f i) =? 0) js
  end.
Proof.
  intros Hd Hfuel IH.
  assert (Hu1 : u64 (TABLES_DEPTH - 1) = TABLES_DEPTH - 1) by (apply u64_small; lia).
  assert (Hu2 : u64 (d + 1) = d + 1) by (apply u64_small; lia).
  induction js as [|i js IHjs]; intros st Hst; cbn zeta.
  - simpl. split; [reflexivity|]. now rewrite andb_true_r.
  - cbn [fold_left flat_map forallb]. rewrite find_app.
    set (st1 := visitEntry (descend fuel d) mem f d virtualAdd pg st i).
    set (E1 := entryLinks (below fuel d) mem f d pg i).
    set (value := mem (paddr f i)).
    set (ith := u64 (Z.shiftl pg OFFSET_WIDTH + i)).
    destruct (value =? 0) eqn:Ev.
    + assert (Hs : st1 = st) by (unfold st1, visitEntry; fold value; now rewrite Ev).
      assert (He : E1 = []) by (unfold E1, entryLinks; fold value; now rewrite Ev).
      rewrite Hs, He. cbn [find app andb]. apply (IHjs st Hst).
    + set (o := absorb virtualAdd (fst st) (mkLink (paddr f i) value ith false)).
      assert (Ho0 : emptyFrame o = 0) by (unfold o; now rewrite absorb_emptyFrame).
      destruct (d =? TABLES_DEPTH - 1) eqn:Eleaf.
      * (* a leaf table: the entry points to a data frame *)
        assert (He : E1 = [mkLink (paddr f i) value ith true]).
        { unfold E1, entryLinks. fold value. now rewrite Ev, Hu1, Eleaf. }
        assert (H1 : fst st1 = absorb virtualAdd (fst st)
                         (mkLink (paddr f i) value ith true) /\ snd st1 = false).
        { unfold st1, visitEntry, absorb. fold value. rewrite Ev, Hu1, Eleaf.
          cbn [l_frame l_leaf l_page l_addr]. fold ith.
          destruct (_ || _); split; reflexivity. }
        destruct H1 as [H1 H2]. rewrite He.
        cbn [find reusable l_leaf negb andb app].
        assert (H0 : emptyFrame (fst st1) = 0) by (rewrite H1, absorb_emptyFrame; exact Hst).
        specialize (IHjs st1 H0). cbn zeta in IHjs.
        destruct (find _ (flat_map _ js)).
        -- exact IHjs.
        -- destruct IHjs as [I1 I2]. split.
           ++ rewrite I1. cbn [fold_left]. now rewrite H1.
           ++ rewrite I2, H2. cbn [andb]. now rewrite andb_false_r.
      * (* an inner table: the traversal descends *)
        apply Z.eqb_neq in Eleaf.
        assert (Hf1 : (1 <= fuel)%nat) by lia.
        specialize (IH value (paddr f i) o ith Ho0 Hf1). unfold helper_spec in IH.
        cbn zeta in IH.
        set (r := findNewFrameHelper fuel mem value (paddr f i) (d + 1) o
                           virtualAdd lastCreatedFrame ith) in *.
        assert (Hs : st1 = (r, false)).
        { unfold st1, visitEntry. fold value. rewrite Ev, Hu1.
          destruct (Z.eqb_spec d (TABLES_DEPTH - 1)); [contradiction|].
          unfold descend. rewrite Hu2. reflexivity. }
        assert (He : E1 = mkLink (paddr f i) value ith false :: links fuel mem value (d + 1) ith).
        { unfold E1, entryLinks. fold value. rewrite Ev, Hu1.
          destruct (Z.eqb_spec d (TABLES_DEPTH - 1)); [contradiction|].
          unfold below. rewrite Hu2. reflexivity. }
        rewrite Hs, He.
        cbn [find]. unfold reusable at 1. cbn [l_leaf l_frame negb andb].
        destruct (frameIsEmpty mem value && negb (value =? lastCreatedFrame)) eqn:Er.
        -- (* the child frame itself is reusable *)
           apply andb_prop in Er. destruct Er as [Er1 Er2].
           rewrite (frameIsEmpty_links fuel value (d + 1) ith Er1) in IH.
           cbn [find] in IH.
           apply Z.eqb_neq in Ev.
           destruct (fold_visitEntry_found fuel f d pg js (r, false)) as (F1 & F2 & F3).
           { cbn [fst]. rewrite IH. cbn [emptyFrame]. exact Ev. }
           cbn [l_frame l_addr]. cbn [fst snd] in F1, F2, F3.
           split; [rewrite F1, IH; reflexivity|].
           split; [rewrite F2, IH; reflexivity | apply F3; reflexivity].
        -- cbn [app].
           destruct (find (reusable mem lastCreatedFrame) (links fuel mem value (d + 1) ith)) as [l|] eqn:Ef.
           ++ destruct IH as [I1 I2].
              destruct (fold_visitEntry_found fuel f d pg js (r, false)) as (F1 & F2 & F3).
              { cbn [fst]. rewrite I1. apply find_some in Ef. destruct Ef as [Ef _].
                eapply links_frame_nonzero; eauto. }
              cbn [fst snd] in F1, F2, F3. rewrite F1, F2. auto.
           ++ assert (H0 : emptyFrame (fst (r, false)) = 0).
              { cbn [fst]. rewrite IH, fold_absorb_emptyFrame. exact Ho0. }
              specialize (IHjs (r, false) H0). cbn zeta in IHjs.
              destruct (find _ (flat_map _ js)).
              ** exact IHjs.
              ** destruct IHjs as [I1 I2]. cbn [fst snd] in I1, I2. split.
                 --- rewrite I1, IH. cbn [fold_left]. now rewrite fold_left_app.
                 --- rewrite I2. cbn [andb]. now rewrite andb_false_r.
Qed.

Lemma findNewFrameHelper_links fuel : forall f pa d out pg,
  0 <= d -> Z.of_nat fuel = TABLES_DEPTH - d -> (1 <= fuel)%nat ->
  emptyFrame out = 0 -> helper_spec fuel f pa d out pg.
Proof.
  induction fuel as [|fuel IH]; intros f pa d out pg Hd Hfuel Hpos Hout; [lia|].
  unfold helper_spec. cbn zeta.
  change (links (S fuel) mem f d pg)
    with (flat_map (entryLinks (below fuel d) mem f d pg) indices).
  change (findNewFrameHelper (S fuel) mem f pa d out virtualAdd lastCreatedFrame pg)
    with (if negb (emptyFrame out =? 0) then out else
          let st := fold_left (visitEntry (descend fuel d) mem f d virtualAdd pg)
                              indices (out, true) in
          if snd st && negb (f =? lastCreatedFrame)
          then mkSearch (maxFrame (fst st)) f pa (maxDistFrame (fst st))
                        (maxDistParentAdd (fst st)) (maxDistPage (fst st))
          else fst st).
  rewrite Hout. cbn [Z.eqb negb]. cbn zeta.
  pose proof (fold_visitEntry_links fuel f d pg Hd Hfuel) as Q.
  specialize (Q (fun f' pa' out' pg' H0 H1 => IH f' pa' (d + 1) out' pg' ltac:(lia) ltac:(lia) H1 H0)).
  specialize (Q indices (out, true) Hout). cbn zeta in Q.
  destruct (find _ (flat_map _ indices)) as [l|] eqn:Ef.
  - destruct Q as (Q1 & Q2 & Q3). rewrite Q3. cbn [andb]. auto.
  - destruct Q as [Q1 Q2]. cbn [fst snd andb] in Q1, Q2. rewrite Q2.
    change (forallb (fun i => mem (paddr f i) =? 0) indices) with (frameIsEmpty mem f).
    destruct (frameIsEmpty mem f && negb (f =? lastCreatedFrame)) eqn:Ee; [|exact Q1].
    apply andb_prop in Ee. destruct Ee as [Ee _].
    pose proof (frameIsEmpty_links (S fuel) f d pg Ee) as Hl.
    change (links (S fuel) mem f d pg)
      with (flat_map (entryLinks (below fuel d) mem f d pg) indices) in Hl.
    rewrite Hl in Q1. cbn [fold_left] in Q1. now rewrite Q1.
Qed.

(** The traversal from the root: the first reusable table frame in pre-order
    if there is one, and otherwise the folds over all links. *)
Lemma searchTree_spec :
  match find (reusable mem lastCreatedFrame) (treeLinks mem) with
  | Some l => emptyFrame (searchTree mem virtualAdd lastCreatedFrame) = l_frame l /\
              emptyParentAdd (searchTree mem virtualAdd lastCreatedFrame) = l_addr l
  | None => searchTree mem virtualAdd lastCreatedFrame =
            fold_left (absorb virtualAdd) (treeLinks mem) searchInit
  end.
Proof.
  pose proof (findNewFrameHelper_links (Z.to_nat TABLES_DEPTH) 0 0 0 searchInit 0) as H.
  specialize (H ltac:(lia) ltac:(lia) ltac:(lia) eq_refl). unfold helper_spec in H.
  cbn zeta in H. fold (treeLinks mem) in H. fold (searchTree mem virtualAdd lastCreatedFrame) in H.
  destruct (find _ (treeLinks mem)); [exact H|].
  destruct (frameIsEmpty mem 0 && negb (0 =? lastCreatedFrame)) eqn:Ee; [|exact H].
  apply andb_prop in Ee. destruct Ee as [Ee _].
  unfold treeLinks. rewrite (frameIsEmpty_links _ 0 0 0 Ee). exact H.
Qed.

Lemma fold_absorb_maxFrame ls : forall o,
  maxFrame (fold_left (absorb virtualAdd) ls o) = fold_left Z.max (map l_frame ls) (maxFrame o).
Proof.
  induction ls as [|l ls IH]; intros o; [reflexivity|].
  cbn [fold_left map]. rewrite IH. f_equal. unfold absorb.
  destruct (Z.gtb_spec (l_frame l) (maxFrame o)); destruct (l_leaf l);
    try destruct (_ || _); cbn [maxFrame]; lia.
Qed.

(** The eviction candidate held in the out-parameters, if any. *)
Definition candidate (o : Search) : option Link :=
  if maxDistFrame o =? 0 then None
  else Some (mkLink (maxDistParentAdd o) (maxDistFrame o) (maxDistPage o) true).

Lemma fold_absorb_farthest ls : forall o,
  (forall l, In l ls -> l_frame l <> 0) ->
  match farthest (Z.shiftr virtualAdd OFFSET_WIDTH) (candidate o) ls with
  | None => maxDistFrame (fold_left (absorb virtualAdd) ls o) = 0
  | Some w => maxDistFrame (fold_left (absorb virtualAdd) ls o) = l_frame w /\
              maxDistParentAdd (fold_left (absorb virtualAdd) ls o) = l_addr w /\
              maxDistPage (fold_left (absorb virtualAdd) ls o) = l_page w
  end.
Proof.
  induction ls as [|l ls IH]; intros o Hnz.
  - cbn [farthest fold_left]. unfold candidate.
    destruct (Z.eqb_spec (maxDistFrame o) 0); cbn; auto.
  - cbn [farthest fold_left].
    assert (Hl : l_frame l <> 0) by (apply Hnz; now left).
    assert (Hnz' : forall l', In l' ls -> l_frame l' <> 0) by (intros; apply Hnz; now right).
    specialize (IH (absorb virtualAdd o l) Hnz').
    assert (Hc : candidate (absorb virtualAdd o l) =
                 if l_leaf l then
                   match candidate o with
                   | None => Some l
                   | Some b => if getCyclicDist (Z.shiftr virtualAdd OFFSET_WIDTH) (l_page l) >?
                                  getCyclicDist (Z.shiftr virtualAdd OFFSET_WIDTH) (l_page b)
                               then Some l else Some b
                   end
                 else candidate o).
    { unfold absorb, candidate.
      destruct (l_frame l >? maxFrame o); cbn [maxDistFrame maxDistPage maxDistParentAdd];
      destruct (l_leaf l) eqn:El; try reflexivity;
      destruct (Z.eqb_spec (maxDistFrame o) 0) as [E0|E0];
      rewrite ?orb_true_r, ?orb_false_r; cbn [maxDistFrame maxDistPage maxDistParentAdd l_page];
      try (destruct (Z.eqb_spec (l_frame l) 0); [contradiction|]);
      try (destruct l; cbn in *; subst; reflexivity);
      destruct (_ >? _); cbn [maxDistFrame maxDistPage maxDistParentAdd];
      try (destruct (Z.eqb_spec (l_frame l) 0); [contradiction|]);
      try (destruct (Z.eqb_spec (maxDistFrame o) 0); [contradiction|]);
      try (destruct l; cbn in *; subst; reflexivity); reflexivity. }
    rewrite Hc in IH.
    destruct (l_leaf l); [|exact IH].
    destruct (candidate o) as [b|]; [|exact IH].
    destruct (_ >? _); exact IH.
Qed.

End Traversal.

(** ** Valid configurations *)

Section Valid.

Hypothesis width_pos : 1 <= OFFSET_WIDTH.
Hypothesis depth_pos : 1 <= TABLES_DEPTH.
Hypothesis address_fits : (TABLES_DEPTH + 1) * OFFSET_WIDTH < 64.
Hypothesis frames_enough : TABLES_DEPTH < NUM_FRAMES.
Hypothesis ram_fits : NUM_FRAMES * PAGE_SIZE <= 2 ^ 64.

Lemma page_size_pos : 0 < PAGE_SIZE.
Proof. apply PAGE_SIZE_pos. lia. Qed.

Lemma paddr_small f i :
  0 <= f < NUM_FRAMES -> 0 <= i < PAGE_SIZE -> paddr f i = f * PAGE_SIZE + i.
Proof. intros Hf Hi. unfold paddr. apply u64_small. nia. Qed.

Lemma frame_addr_inj f g i j :
  0 <= i < PAGE_SIZE -> 0 <= j < PAGE_SIZE ->
  f * PAGE_SIZE + i = g * PAGE_SIZE + j -> f = g /\ i = j.
Proof. intros Hi Hj H. assert (f = g) by nia. subst. lia. Qed.

Lemma tree_frame mem k p f :
  Tree mem k -> vpath p -> plen p <= TABLES_DEPTH -> walk mem 0 p = Some f ->
  0 <= f < NUM_FRAMES.
Proof.
  intros T Hv Hl Hw. pose proof (tree_used _ _ T).
  destruct p as [|i p].
  - cbn in Hw. inversion Hw. lia.
  - pose proof (tree_range _ _ T (i :: p) f Hv ltac:(discriminate) Hl Hw). lia.
Qed.

Lemma tree_frame_le mem k p f :
  Tree mem k -> vpath p -> plen p <= TABLES_DEPTH -> walk mem 0 p = Some f ->
  0 <= f <= k.
Proof.
  intros T Hv Hl Hw. pose proof (tree_used _ _ T).
  destruct p as [|i p].
  - cbn in Hw. inversion Hw. lia.
  - pose proof (tree_range _ _ T (i :: p) f Hv ltac:(discriminate) Hl Hw). lia.
Qed.

(** The entries a walk follows determine where each of them is stored. *)
Lemma tree_entry_inj mem k p q g h i j :
  Tree mem k -> vpath (p ++ [i]) -> vpath (q ++ [j]) ->
  plen p < TABLES_DEPTH -> plen q < TABLES_DEPTH ->
  walk mem 0 p = Some g -> walk mem 0 q = Some h ->
  paddr g i = paddr h j -> p = q /\ i = j.
Proof.
  intros T Hp Hq Lp Lq Wp Wq E.
  apply vpath_app in Hp. destruct Hp as [Hp Hi]. apply vpath_app in Hq. destruct Hq as [Hq Hj].
  inversion Hi; subst. inversion Hj; subst.
  pose proof (tree_frame _ _ _ _ T Hp ltac:(lia) Wp).
  pose proof (tree_frame _ _ _ _ T Hq ltac:(lia) Wq).
  rewrite !paddr_small in E by assumption.
  apply frame_addr_inj in E; try assumption. destruct E as [-> ->].
  split; [|reflexivity].
  apply (tree_inj _ _ T p q h); auto; lia.
Qed.

Definition is_prefix (x p : list Z) : Prop := exists r, p = x ++ r.

Lemma is_prefix_dec x p : {is_prefix x p} + {~ is_prefix x p}.
Proof.
  destruct (list_eq_dec Z.eq_dec (firstn (length x) p) x) as [E|E].
  - left. exists (skipn (length x) p). rewrite <- E at 1. symmetry. apply firstn_skipn.
  - right. intros [r ->]. apply E. rewrite firstn_app, Nat.sub_diag, firstn_all. cbn.
    apply app_nil_r.
Qed.

(** Zeroing the entry that ends the path [pg ++ [j]] cuts exactly the paths
    that go through it. *)
Lemma walk_unlink mem mem' k pg g j :
  Tree mem k -> vpath (pg ++ [j]) -> plen pg < TABLES_DEPTH -> walk mem 0 pg = Some g ->
  (forall a, mem' a = if a =? paddr g j then 0 else mem a) ->
  forall p, vpath p -> plen p <= TABLES_DEPTH ->
    (is_prefix (pg ++ [j]) p -> walk mem' 0 p = None) /\
    (~ is_prefix (pg ++ [j]) p -> walk mem' 0 p = walk mem 0 p).
Proof.
  intros T Hpg Lpg Wg Hm p Hp Lp.
  assert (Same : forall p, vpath p -> plen p <= TABLES_DEPTH ->
            ~ is_prefix (pg ++ [j]) p -> walk mem' 0 p = walk mem 0 p).
  { clear p Hp Lp. intros p Hp Lp Hn. apply walk_same. intros q i r h Hq Wq.
    rewrite Hm. destruct (Z.eqb_spec (paddr h i) (paddr g j)) as [E|E]; [|reflexivity].
    exfalso. apply Hn. subst p.
    assert (Hqi : vpath (q ++ [i])).
    { apply vpath_app in Hp. destruct Hp as [Hq Hr]. apply vpath_app. split; [exact Hq|].
      inversion Hr; subst. constructor; [assumption | constructor]. }
    rewrite plen_app in Lp. unfold plen in Lp at 2. cbn [length] in Lp.
    destruct (tree_entry_inj mem k q pg h g i j T Hqi Hpg ltac:(lia) Lpg Wq Wg E) as [-> ->].
    exists r. rewrite <- app_assoc. reflexivity. }
  split; [|apply Same; assumption].
  intros [r ->]. rewrite <- app_assoc. rewrite walk_app.
  rewrite Same.
  - rewrite Wg. cbn [app walk]. rewrite Hm, Z.eqb_refl. reflexivity.
  - apply vpath_app in Hpg. tauto.
  - lia.
  - intros [r' Hr']. rewrite <- app_assoc in Hr'.
    rewrite <- (app_nil_r pg) in Hr' at 1. apply app_inv_head in Hr'. discriminate.
Qed.

(** Changing the words of a frame that no path goes through changes no walk. *)
Lemma walk_frame_irrelevant mem mem' k h :
  Tree mem k -> 0 <= h < NUM_FRAMES ->
  (forall p, vpath p -> plen p < TABLES_DEPTH -> walk mem 0 p <> Some h) ->
  (forall a, ~ (h * PAGE_SIZE <= a < h * PAGE_SIZE + PAGE_SIZE) -> mem' a = mem a) ->
  forall p, vpath p -> plen p <= TABLES_DEPTH -> walk mem' 0 p = walk mem 0 p.
Proof.
  intros T Hh Hno Hm p Hp Lp. apply walk_same. intros q i r g Hq Wq.
  subst p. apply vpath_app in Hp. destruct Hp as [Hvq Hr]. inversion Hr; subst.
  rewrite plen_app in Lp. unfold plen in Lp at 2. cbn [length] in Lp.
  pose proof (tree_frame _ _ _ _ T Hvq ltac:(lia) Wq) as Hg.
  rewrite paddr_small by assumption. apply Hm.
  assert (g <> h) by (intros ->; apply (Hno q); auto; lia).
  nia.
Qed.

(** Writing the frame [h], to which no path leads and which holds zeros,
    into a zero entry of a reachable table adds exactly one path. *)
Lemma walk_link mem mem' k pc c j h :
  Tree mem k -> vpath (pc ++ [j]) -> plen pc < TABLES_DEPTH -> walk mem 0 pc = Some c ->
  mem (paddr c j) = 0 -> h <> 0 -> 0 <= h < NUM_FRAMES -> Hole mem h ->
  (forall a, mem' a = if a =? paddr c j then h else mem a) ->
  forall p, vpath p -> plen p <= TABLES_DEPTH ->
    walk mem' 0 p = if list_eq_dec Z.eq_dec p (pc ++ [j]) then Some h else walk mem 0 p.
Proof.
  intros T Hpc Lpc Wc Hz Hh0 Hh [Hzero Hun] Hm.
  assert (Hvc : vpath pc) by (apply vpath_app in Hpc; tauto).
  assert (Hj : 0 <= j < PAGE_SIZE).
  { apply vpath_app in Hpc. destruct Hpc as [_ H]. inversion H; subst. assumption. }
  assert (Hc : 0 <= c < NUM_FRAMES) by (apply (tree_frame mem k pc c); auto; lia).
  assert (Hch : c <> h) by (intros ->; apply (Hun pc); auto; lia).
  intros p. induction p as [|i p IH] using rev_ind; intros Hp Lp.
  - destruct (list_eq_dec Z.eq_dec [] (pc ++ [j])) as [E|E]; [|reflexivity].
    destruct pc; discriminate.
  - apply vpath_app in Hp. destruct Hp as [Hvp Hi'].
    assert (Hi : 0 <= i < PAGE_SIZE) by (inversion Hi'; subst; assumption).
    rewrite plen_app in Lp. unfold plen in Lp at 2. cbn [length] in Lp.
    specialize (IH Hvp ltac:(lia)).
    rewrite !walk_snoc, IH.
    destruct (list_eq_dec Z.eq_dec p (pc ++ [j])) as [E|E].
    + (* below the new frame: its entries are zero *)
      subst p. rewrite Hm. rewrite paddr_small by assumption.
      destruct (Z.eqb_spec (h * PAGE_SIZE + i) (paddr c j)) as [E2|E2].
      { rewrite paddr_small in E2 by assumption. apply frame_addr_inj in E2; auto. lia. }
      rewrite Hzero by assumption. cbn [Z.eqb].
      destruct (list_eq_dec Z.eq_dec ((pc ++ [j]) ++ [i]) (pc ++ [j])) as [E3|E3].
      { apply (f_equal (@length Z)) in E3. rewrite !length_app in E3. cbn in E3. lia. }
      rewrite walk_snoc, Wc, Hz. reflexivity.
    + destruct (list_eq_dec Z.eq_dec (p ++ [i]) (pc ++ [j])) as [E3|E3].
      * apply app_inj_tail in E3. destruct E3 as [-> ->].
        rewrite Wc, Hm, Z.eqb_refl.
        destruct (Z.eqb_spec h 0); [contradiction | reflexivity].
      * destruct (walk mem 0 p) as [g|] eqn:Wp; [|reflexivity].
        rewrite Hm. destruct (Z.eqb_spec (paddr g i) (paddr c j)) as [E4|E4]; [|reflexivity].
        exfalso. apply E3.
        assert (Hpi : vpath (p ++ [i])) by (apply vpath_app; auto).
        destruct (tree_entry_inj mem k p pc g c i j T Hpi Hpc ltac:(lia) Lpc Wp Wc E4) as [-> ->].
        reflexivity.
Qed.

(** ** The links of the traversal are the mapped paths *)

Lemma depth_u64 d : 0 <= d <= TABLES_DEPTH -> u64 d = d.
Proof. intros H. apply u64_small. nia. Qed.

Lemma plen_cons i p : plen (i :: p) = 1 + plen p.
Proof. unfold plen. cbn [length]. lia. Qed.

Lemma links_sound mem fuel : forall f d pg l,
  0 <= d -> Z.of_nat fuel = TABLES_DEPTH - d ->
  In l (links fuel mem f d pg) ->
  exists q i g,
    vpath (q ++ [i]) /\ plen (q ++ [i]) <= Z.of_nat fuel /\
    walk mem f q = Some g /\ l_addr l = paddr g i /\ l_frame l = mem (paddr g i) /\
    l_frame l <> 0 /\ l_page l = pageOf pg (q ++ [i]) /\
    l_leaf l = (plen (q ++ [i]) =? Z.of_nat fuel).
Proof.
  induction fuel as [|fuel IH]; intros f d pg l Hd Hfuel Hin; [destruct Hin|].
  cbn [links] in Hin. apply in_flat_map in Hin. destruct Hin as [i0 [Hi0 Hin]].
  apply In_indices in Hi0. unfold entryLinks in Hin.
  destruct (Z.eqb_spec (mem (paddr f i0)) 0) as [Ez|Ez]; [destruct Hin|].
  rewrite (depth_u64 (TABLES_DEPTH - 1)) in Hin by lia.
  assert (Hhere : forall b, b = (1 =? Z.of_nat (S fuel)) ->
            l = mkLink (paddr f i0) (mem (paddr f i0)) (u64 (Z.shiftl pg OFFSET_WIDTH + i0)) b ->
            exists q i g,
              vpath (q ++ [i]) /\ plen (q ++ [i]) <= Z.of_nat (S fuel) /\
              walk mem f q = Some g /\ l_addr l = paddr g i /\ l_frame l = mem (paddr g i) /\
              l_frame l <> 0 /\ l_page l = pageOf pg (q ++ [i]) /\
              l_leaf l = (plen (q ++ [i]) =? Z.of_nat (S fuel))).
  { intros b Hb ->. exists [], i0, f. cbn [app l_addr l_frame l_page l_leaf].
    repeat split; auto.
    - constructor; [assumption | constructor].
    - unfold plen. cbn [length]. lia. }
  destruct (Z.eqb_spec d (TABLES_DEPTH - 1)) as [Ed|Ed].
  - destruct Hin as [<-|[]]. eapply Hhere; [|reflexivity].
    symmetry. apply Z.eqb_eq. lia.
  - destruct Hin as [<-|Hin].
    + eapply Hhere; [|reflexivity]. symmetry. apply Z.eqb_neq. lia.
    + rewrite (depth_u64 (d + 1)) in Hin by lia.
      apply IH in Hin; [|lia|lia].
      destruct Hin as (q & i & g & H1 & H2 & H3 & H4 & H5 & H6 & H7 & H8).
      exists (i0 :: q), i, g. cbn [app]. rewrite plen_cons.
      repeat split; auto.
      * constructor; assumption.
      * lia.
      * cbn [walk]. destruct (Z.eqb_spec (mem (paddr f i0)) 0); [contradiction | assumption].
      * rewrite H8. destruct (Z.eqb_spec (plen (q ++ [i])) (Z.of_nat fuel));
          destruct (Z.eqb_spec (1 + plen (q ++ [i])) (Z.of_nat (S fuel))); try reflexivity; lia.
Qed.

Lemma links_complete mem fuel : forall f d pg q i g,
  0 <= d -> Z.of_nat fuel = TABLES_DEPTH - d ->
  vpath (q ++ [i]) -> plen (q ++ [i]) <= Z.of_nat fuel ->
  walk mem f q = Some g -> mem (paddr g i) <> 0 ->
  In (mkLink (paddr g i) (mem (paddr g i)) (pageOf pg (q ++ [i]))
             (plen (q ++ [i]) =? Z.of_nat fuel))
     (links fuel mem f d pg).
Proof.
  induction fuel as [|fuel IH]; intros f d pg q i g Hd Hfuel Hv Hl Hw Hnz.
  - rewrite plen_app in Hl. pose proof (plen_nonneg q). unfold plen in Hl at 2.
    cbn [length] in Hl. lia.
  - cbn [links]. apply in_flat_map. destruct q as [|i0 q].
    + cbn [app] in *. cbn [walk] in Hw. inversion Hw; subst g.
      inversion Hv; subst. exists i. split; [now apply In_indices|].
      unfold entryLinks. destruct (Z.eqb_spec (mem (paddr f i)) 0); [contradiction|].
      rewrite (depth_u64 (TABLES_DEPTH - 1)) by lia.
      unfold plen. cbn [length pageOf fold_left].
      destruct (Z.eqb_spec d (TABLES_DEPTH - 1)) as [Ed|Ed].
      * left. f_equal. symmetry. apply Z.eqb_eq. lia.
      * left. f_equal. symmetry. apply Z.eqb_neq. lia.
    + cbn [app] in *. inversion Hv; subst. rewrite plen_cons in *.
      cbn [walk] in Hw.
      destruct (Z.eqb_spec (mem (paddr f i0)) 0) as [Ez|Ez]; [discriminate|].
      exists i0. split; [now apply In_indices|].
      unfold entryLinks. destruct (Z.eqb_spec (mem (paddr f i0)) 0); [contradiction|].
      rewrite (depth_u64 (TABLES_DEPTH - 1)) by lia.
      assert (1 <= plen (q ++ [i])).
      { rewrite plen_app. pose proof (plen_nonneg q). unfold plen at 2. cbn [length]. lia. }
      destruct (Z.eqb_spec d (TABLES_DEPTH - 1)) as [Ed|Ed]; [lia|].
      right. rewrite (depth_u64 (d + 1)) by lia.
      replace (1 + plen (q ++ [i]) =? Z.of_nat (S fuel))
        with (plen (q ++ [i]) =? Z.of_nat fuel).
      * cbn [pageOf fold_left]. apply (IH _ (d + 1)); auto; lia.
      * destruct (Z.eqb_spec (plen (q ++ [i])) (Z.of_nat fuel));
          destruct (Z.eqb_spec (1 + plen (q ++ [i])) (Z.of_nat (S fuel))); try reflexivity; lia.
Qed.

(** ** Page numbers and paths *)

Lemma PAGE_SIZE_pow n : 0 <= n -> PAGE_SIZE ^ n = 2 ^ (OFFSET_WIDTH * n).
Proof. intros H. unfold PAGE_SIZE. rewrite Z.pow_mul_r by lia. reflexivity. Qed.

Lemma pages_fit n : 0 <= n <= TABLES_DEPTH -> PAGE_SIZE ^ n < 2 ^ 64.
Proof.
  intros H. rewrite PAGE_SIZE_pow by lia.
  apply Z.pow_lt_mono_r; nia.
Qed.

Lemma pow_le_pages n m : 0 <= n <= m -> PAGE_SIZE ^ n <= PAGE_SIZE ^ m.
Proof. intros H. apply Z.pow_le_mono_r; [apply page_size_pos | lia]. Qed.

Lemma pow_pages_pos n : 0 <= n -> 0 < PAGE_SIZE ^ n.
Proof. intros H. apply Z.pow_pos_nonneg; [apply page_size_pos | assumption]. Qed.

Lemma shiftl_page pg : Z.shiftl pg OFFSET_WIDTH = pg * PAGE_SIZE.
Proof. unfold PAGE_SIZE. apply Z.shiftl_mul_pow2. lia. Qed.

Lemma shiftr_pages x n : 0 <= n -> Z.shiftr x (n * OFFSET_WIDTH) = x / PAGE_SIZE ^ n.
Proof.
  intros H. rewrite Z.shiftr_div_pow2 by nia. rewrite PAGE_SIZE_pow by lia.
  f_equal. f_equal. lia.
Qed.

Lemma getOffset_is_mod a : getOffset a = a mod PAGE_SIZE.
Proof. apply getOffset_mod. nia. Qed.

Lemma pageOf_closed : forall p pg m,
  vpath p -> 0 <= m -> 0 <= pg < PAGE_SIZE ^ m -> m + plen p <= TABLES_DEPTH ->
  pageOf pg p = pg * PAGE_SIZE ^ plen p + pageOf 0 p /\
  0 <= pageOf 0 p < PAGE_SIZE ^ plen p.
Proof.
  induction p as [|i p IH]; intros pg m Hv Hm Hpg Hl.
  - unfold plen. cbn. lia.
  - inversion Hv; subst. rewrite plen_cons in *. pose proof (plen_nonneg p).
    pose proof page_size_pos.
    assert (Hstep : forall q n, 0 <= n -> 0 <= q < PAGE_SIZE ^ n -> n + 1 <= TABLES_DEPTH ->
              u64 (Z.shiftl q OFFSET_WIDTH + i) = q * PAGE_SIZE + i /\
              0 <= q * PAGE_SIZE + i < PAGE_SIZE ^ (n + 1)).
    { intros q n Hn Hq Hn1. rewrite shiftl_page.
      assert (0 <= q * PAGE_SIZE + i < PAGE_SIZE ^ (n + 1)).
      { rewrite Z.pow_add_r, Z.pow_1_r by lia. nia. }
      split; [|assumption]. apply u64_small.
      pose proof (pages_fit (n + 1) ltac:(lia)). lia. }
    cbn [pageOf fold_left].
    destruct (Hstep pg m Hm Hpg ltac:(lia)) as [E1 B1].
    destruct (Hstep 0 0 ltac:(lia) ltac:(rewrite Z.pow_0_r; lia) ltac:(lia)) as [E2 B2].
    fold (pageOf (u64 (Z.shiftl pg OFFSET_WIDTH + i)) p).
    fold (pageOf (u64 (Z.shiftl 0 OFFSET_WIDTH + i)) p).
    rewrite E1, E2.
    destruct (IH (pg * PAGE_SIZE + i) (m + 1) H2 ltac:(lia) B1 ltac:(lia)) as [I1 I2].
    destruct (IH (0 * PAGE_SIZE + i) 1 H2 ltac:(lia) B2 ltac:(lia)) as [J1 _].
    rewrite I1, J1.
    replace (1 + plen p) with (plen p + 1) by lia.
    rewrite Z.pow_add_r, Z.pow_1_r by lia.
    pose proof (pow_pages_pos (plen p) ltac:(lia)).
    split; nia.
Qed.

Lemma pathOf_length n page : length (pathOf n page) = n.
Proof. induction n as [|n IH]; cbn; congruence. Qed.

Lemma pathOf_vpath n page : vpath (pathOf n page).
Proof.
  induction n as [|n IH]; cbn [pathOf]; constructor; [|exact IH].
  apply getOffset_range. nia.
Qed.

(** The path of a page number leads back to the page number. *)
Lemma pageOf_pathOf n : forall pg m page,
  0 <= page -> 0 <= m -> 0 <= pg < PAGE_SIZE ^ m -> m + Z.of_nat n <= TABLES_DEPTH ->
  pageOf pg (pathOf n page) = pg * PAGE_SIZE ^ Z.of_nat n + page mod PAGE_SIZE ^ Z.of_nat n.
Proof.
  induction n as [|n IH]; intros pg m page Hp Hm Hpg Hl.
  - cbn [pathOf pageOf fold_left Z.of_nat]. rewrite Z.pow_0_r, Z.mod_1_r. lia.
  - cbn [pathOf pageOf fold_left].
    fold (pageOf (u64 (Z.shiftl pg OFFSET_WIDTH +
                       getOffset (Z.shiftr page (Z.of_nat n * OFFSET_WIDTH)))) (pathOf n page)).
    rewrite getOffset_is_mod, shiftr_pages, shiftl_page by lia.
    pose proof page_size_pos as HP.
    pose proof (pow_pages_pos (Z.of_nat n) ltac:(lia)) as HPn.
    set (dg := (page / PAGE_SIZE ^ Z.of_nat n) mod PAGE_SIZE).
    assert (Hd : 0 <= dg < PAGE_SIZE) by (apply Z.mod_pos_bound; lia).
    assert (B : 0 <= pg * PAGE_SIZE + dg < PAGE_SIZE ^ (m + 1)).
    { rewrite Z.pow_add_r, Z.pow_1_r by lia. nia. }
    rewrite u64_small by (pose proof (pages_fit (m + 1) ltac:(lia)); lia).
    rewrite (IH (pg * PAGE_SIZE + dg) (m + 1) page Hp ltac:(lia) B ltac:(lia)).
    replace (Z.of_nat (S n)) with (Z.of_nat n + 1) by lia.
    rewrite Z.pow_add_r, Z.pow_1_r by lia.
    rewrite (Z.rem_mul_r page (PAGE_SIZE ^ Z.of_nat n) PAGE_SIZE) by lia.
    fold dg. ring.
Qed.

(** The page number of a path leads back to the path. *)
Lemma pathOf_pageOf : forall p pg m,
  vpath p -> 0 <= m -> 0 <= pg < PAGE_SIZE ^ m -> m + plen p <= TABLES_DEPTH ->
  pathOf (length p) (pageOf pg p) = p.
Proof.
  induction p as [|i p IH]; intros pg m Hv Hm Hpg Hl; [reflexivity|].
  inversion Hv; subst. rewrite plen_cons in Hl. pose proof (plen_nonneg p).
  pose proof page_size_pos as HP.
  cbn [length pathOf]. f_equal.
  - cbn [pageOf fold_left].
    fold (pageOf (u64 (Z.shiftl pg OFFSET_WIDTH + i)) p).
    rewrite shiftl_page.
    assert (B : 0 <= pg * PAGE_SIZE + i < PAGE_SIZE ^ (m + 1)).
    { rewrite Z.pow_add_r, Z.pow_1_r by lia. nia. }
    rewrite u64_small by (pose proof (pages_fit (m + 1) ltac:(lia)); lia).
    destruct (pageOf_closed p (pg * PAGE_SIZE + i) (m + 1) H2 ltac:(lia) B ltac:(lia)) as [E Bd].
    rewrite E. rewrite getOffset_is_mod, shiftr_pages by lia.
    fold (plen p).
    pose proof (pow_pages_pos (plen p) ltac:(lia)).
    rewrite Z.div_add_l by lia. rewrite (Z.div_small (pageOf 0 p)) by lia.
    rewrite Z.add_0_r, Z.add_comm, Z.mod_add by lia. apply Z.mod_small. lia.
  - cbn [pageOf fold_left].
    fold (pageOf (u64 (Z.shiftl pg OFFSET_WIDTH + i)) p).
    rewrite shiftl_page.
    assert (B : 0 <= pg * PAGE_SIZE + i < PAGE_SIZE ^ (m + 1)).
    { rewrite Z.pow_add_r, Z.pow_1_r by lia. nia. }
    rewrite u64_small by (pose proof (pages_fit (m + 1) ltac:(lia)); lia).
    apply (IH _ (m + 1)); auto; lia.
Qed.

Lemma NUM_PAGES_pow : NUM_PAGES = PAGE_SIZE ^ TABLES_DEPTH.
Proof. unfold NUM_PAGES. rewrite PAGE_SIZE_pow by lia. f_equal. lia. Qed.

Lemma VIRTUAL_MEMORY_SIZE_pages : VIRTUAL_MEMORY_SIZE = NUM_PAGES * PAGE_SIZE.
Proof.
  unfold VIRTUAL_MEMORY_SIZE, NUM_PAGES, PAGE_SIZE.
  rewrite <- Z.pow_add_r by nia. f_equal. lia.
Qed.

Lemma page_in_range va :
  0 <= va < VIRTUAL_MEMORY_SIZE -> 0 <= Z.shiftr va OFFSET_WIDTH < NUM_PAGES.
Proof.
  intros H. rewrite Z.shiftr_div_pow2 by lia. fold PAGE_SIZE.
  rewrite VIRTUAL_MEMORY_SIZE_pages in H. pose proof page_size_pos.
  split; [apply Z.div_pos; lia|]. apply Z.div_lt_upper_bound; lia.
Qed.

Lemma pathOfAddress_vpath va : vpath (pathOfAddress va).
Proof. apply pathOf_vpath. Qed.

Lemma pathOfAddress_plen va : plen (pathOfAddress va) = TABLES_DEPTH.
Proof. unfold plen, pathOfAddress. rewrite pathOf_length. lia. Qed.

Lemma pageOf_pathOfAddress va :
  0 <= va < VIRTUAL_MEMORY_SIZE -> pageOf 0 (pathOfAddress va) = Z.shiftr va OFFSET_WIDTH.
Proof.
  intros H. apply page_in_range in H. unfold pathOfAddress.
  rewrite (pageOf_pathOf _ 0 0) by (rewrite ?Z.pow_0_r; lia).
  rewrite Z2Nat.id by lia. rewrite <- NUM_PAGES_pow.
  rewrite Z.mod_small by lia. lia.
Qed.

Lemma pathOfAddress_pageOf p va :
  vpath p -> plen p = TABLES_DEPTH -> Z.shiftr va OFFSET_WIDTH = pageOf 0 p ->
  pathOfAddress va = p.
Proof.
  intros Hv Hl E. unfold pathOfAddress. rewrite E.
  replace (Z.to_nat TABLES_DEPTH) with (length p) by (unfold plen in Hl; lia).
  apply (pathOf_pageOf p 0 0); auto; rewrite ?Z.pow_0_r; lia.
Qed.

Lemma walk_last mem p i g :
  walk mem 0 p = Some g -> mem (paddr g i) <> 0 ->
  walk mem 0 (p ++ [i]) = Some (mem (paddr g i)).
Proof.
  intros W H. rewrite walk_snoc, W.
  destruct (Z.eqb_spec (mem (paddr g i)) 0); [contradiction | reflexivity].
Qed.

Lemma treeLinks_sound mem l :
  In l (treeLinks mem) ->
  exists q i g,
    vpath (q ++ [i]) /\ plen (q ++ [i]) <= TABLES_DEPTH /\
    walk mem 0 q = Some g /\ l_addr l = paddr g i /\
    walk mem 0 (q ++ [i]) = Some (l_frame l) /\
    l_page l = pageOf 0 (q ++ [i]) /\
    l_leaf l = (plen (q ++ [i]) =? TABLES_DEPTH).
Proof.
  intros H. unfold treeLinks in H.
  apply (links_sound mem _ 0 0 0 l) in H; [|lia|lia].
  destruct H as (q & i & g & H1 & H2 & H3 & H4 & H5 & H6 & H7 & H8).
  rewrite Z2Nat.id in H2, H8 by lia.
  exists q, i, g. repeat split; auto.
  rewrite H5. apply walk_last; [assumption | congruence].
Qed.

Lemma treeLinks_complete mem q i g :
  vpath (q ++ [i]) -> plen (q ++ [i]) <= TABLES_DEPTH ->
  walk mem 0 q = Some g -> mem (paddr g i) <> 0 ->
  In (mkLink (paddr g i) (mem (paddr g i)) (pageOf 0 (q ++ [i]))
             (plen (q ++ [i]) =? TABLES_DEPTH))
     (treeLinks mem).
Proof.
  intros Hv Hl Hw Hnz. unfold treeLinks.
  pose proof (links_complete mem (Z.to_nat TABLES_DEPTH) 0 0 0 q i g) as H.
  rewrite Z2Nat.id in H by lia. apply H; auto; lia.
Qed.

(** A mapped path that is not empty ends in a link. *)
Lemma mapped_link mem p f :
  vpath p -> p <> [] -> plen p <= TABLES_DEPTH -> walk mem 0 p = Some f ->
  exists l, In l (treeLinks mem) /\ l_frame l = f /\ l_page l = pageOf 0 p /\
            l_leaf l = (plen p =? TABLES_DEPTH).
Proof.
  intros Hv Hne Hl Hw.
  destruct (exists_last Hne) as (q & i & ->).
  rewrite walk_snoc in Hw. destruct (walk mem 0 q) as [g|] eqn:Wq; [|discriminate].
  destruct (Z.eqb_spec (mem (paddr g i)) 0) as [E|E]; [discriminate|].
  inversion Hw; subst f.
  eexists. split; [apply (treeLinks_complete mem q i g); auto|].
  cbn [l_frame l_page l_leaf]. auto.
Qed.

Lemma frameIsEmpty_true mem f :
  0 <= f < NUM_FRAMES -> frameIsEmpty mem f = true ->
  forall i, 0 <= i < PAGE_SIZE -> mem (f * PAGE_SIZE + i) = 0.
Proof.
  intros Hf H i Hi. unfold frameIsEmpty in H. rewrite forallb_forall in H.
  specialize (H i (proj2 (In_indices i) Hi)). apply Z.eqb_eq in H.
  now rewrite paddr_small in H.
Qed.

Lemma frameIsEmpty_false mem f :
  frameIsEmpty mem f = false -> exists i, 0 <= i < PAGE_SIZE /\ mem (paddr f i) <> 0.
Proof.
  unfold frameIsEmpty. intros H.
  assert (G : forall js, forallb (fun i => mem (paddr f i) =? 0) js = false ->
            exists i, In i js /\ mem (paddr f i) <> 0).
  { induction js as [|j js IH]; cbn [forallb]; [discriminate|].
    destruct (Z.eqb_spec (mem (paddr f j)) 0) as [E|E]; cbn [andb].
    - intros H'. destruct (IH H') as [i [Hi Hn]]. exists i. split; [now right | assumption].
    - intros _. exists j. split; [now left | assumption]. }
  destruct (G indices H) as [i [Hi Hn]]. exists i. split; [now apply In_indices | assumption].
Qed.

(** ** Detaching a frame *)

(** Zeroing the entry at the end of the path [q ++ [i]], below which nothing
    is mapped, removes that path and no other. *)
Lemma unlink_spec mem mem' k q i g e :
  Tree mem k -> vpath (q ++ [i]) -> plen (q ++ [i]) <= TABLES_DEPTH ->
  walk mem 0 q = Some g -> walk mem 0 (q ++ [i]) = Some e ->
  (forall r, r <> [] -> vpath r -> plen (q ++ [i]) + plen r <= TABLES_DEPTH ->
     walk mem e r = None) ->
  (forall a, mem' a = if a =? paddr g i then 0 else mem a) ->
  Tree mem' k /\
  (forall p, vpath p -> plen p <= TABLES_DEPTH -> p <> q ++ [i] ->
     walk mem' 0 p = walk mem 0 p) /\
  walk mem' 0 (q ++ [i]) = None /\
  (forall p, vpath p -> plen p <= TABLES_DEPTH -> walk mem' 0 p <> Some e) /\
  (Linked mem k 0 -> Linked mem' k e).
Proof.
  intros T Hv Hl Wq We Hbelow Hm.
  assert (Lq : plen q < TABLES_DEPTH).
  { rewrite plen_app in Hl. unfold plen in Hl at 2. cbn [length] in Hl. lia. }
  pose proof (walk_unlink mem mem' k q g i T Hv Lq Wq Hm) as U.
  assert (Same : forall p, vpath p -> plen p <= TABLES_DEPTH -> p <> q ++ [i] ->
            walk mem' 0 p = walk mem 0 p).
  { intros p Hp Lp Hne. destruct (U p Hp Lp) as [U1 U2].
    destruct (is_prefix_dec (q ++ [i]) p) as [[r Hr]|Hn]; [|auto].
    rewrite U1 by (exists r; exact Hr). subst p.
    destruct r as [|r0 r]; [rewrite app_nil_r in Hne; contradiction|].
    rewrite walk_app, We. symmetry. apply Hbelow; [discriminate | |].
    - apply vpath_app in Hp. tauto.
    - rewrite plen_app in Lp. lia. }
  assert (Cut : walk mem' 0 (q ++ [i]) = None).
  { destruct (U (q ++ [i]) Hv Hl) as [U1 _]. apply U1. exists []. now rewrite app_nil_r. }
  assert (Gone : forall p, vpath p -> plen p <= TABLES_DEPTH -> walk mem' 0 p <> Some e).
  { intros p Hp Lp Hw.
    destruct (list_eq_dec Z.eq_dec p (q ++ [i])) as [->|Hne]; [congruence|].
    rewrite Same in Hw by assumption.
    apply Hne. apply (tree_inj _ _ T p (q ++ [i]) e); auto. }
  assert (Back : forall p f, vpath p -> plen p <= TABLES_DEPTH ->
            walk mem' 0 p = Some f -> walk mem 0 p = Some f).
  { intros p f Hp Lp Hw.
    destruct (list_eq_dec Z.eq_dec p (q ++ [i])) as [->|Hne]; [congruence|].
    now rewrite Same in Hw. }
  split; [|split; [exact Same | split; [exact Cut | split; [exact Gone|]]]].
  - constructor.
    + intros p f Hp Hne Lp Hw. apply (tree_range _ _ T p f); auto.
    + intros p p' f Hp Hp' Lp Lp' Hw Hw'. apply (tree_inj _ _ T p p' f); auto.
    + intros f j Hf Hj. rewrite Hm. destruct (_ =? _); [reflexivity|].
      apply (tree_unused _ _ T); assumption.
    + apply (tree_used _ _ T).
  - intros Lk f Hf Hfe. destruct (Lk f Hf) as (p & Hp & Lp & Wp).
    { pose proof (tree_used _ _ T). lia. }
    exists p. repeat split; auto. rewrite Same; auto.
    intros ->. congruence.
Qed.

(** ** The highest frame in use *)

Lemma fold_max_ge xs : forall a, a <= fold_left Z.max xs a.
Proof.
  induction xs as [|x xs IH]; intros a; cbn [fold_left]; [lia|].
  specialize (IH (Z.max a x)). lia.
Qed.

Lemma fold_max_in xs : forall a x, In x xs -> x <= fold_left Z.max xs a.
Proof.
  induction xs as [|y xs IH]; intros a x H; cbn [fold_left]; [destruct H|].
  destruct H as [->|H]; [|now apply IH].
  pose proof (fold_max_ge xs (Z.max a x)). lia.
Qed.

Lemma fold_max_bound xs b : forall a,
  a <= b -> (forall x, In x xs -> x <= b) -> fold_left Z.max xs a <= b.
Proof.
  induction xs as [|y xs IH]; intros a Ha H; cbn [fold_left]; [assumption|].
  apply IH.
  - specialize (H y (or_introl eq_refl)). lia.
  - intros x Hx. apply H. now right.
Qed.

(** In a tree over the frames [1..k], all of them linked, the highest frame
    index among the links is [k]. *)
Lemma maxUsed_tree mem k :
  Tree mem k -> Linked mem k 0 -> maxUsed (treeLinks mem) = k.
Proof.
  intros T L. pose proof (tree_used _ _ T) as Hk. unfold maxUsed.
  apply Z.le_antisymm.
  - apply fold_max_bound; [lia|]. intros x Hx. apply in_map_iff in Hx.
    destruct Hx as (l & <- & Hl). apply treeLinks_sound in Hl.
    destruct Hl as (q & i & g & H1 & H2 & H3 & H4 & H5 & H6 & H7).
    assert (q ++ [i] <> []) by (destruct q; discriminate).
    pose proof (tree_range _ _ T _ _ H1 H H2 H5). lia.
  - destruct (Z.eq_dec k 0) as [->|Hk0]; [apply fold_max_ge|].
    destruct (L k ltac:(lia) ltac:(lia)) as (p & Hp & Lp & Wp).
    assert (p <> []) by (intros ->; cbn in Wp; inversion Wp; lia).
    destruct (mapped_link mem p k Hp H Lp Wp) as (l & Hl & E & _).
    apply fold_max_in. apply in_map_iff. exists l. auto.
Qed.

(** ** A full memory holds a data page *)

Lemma is_prefix_firstn x p : is_prefix x p -> x = firstn (length x) p.
Proof.
  intros [r ->]. rewrite firstn_app, Nat.sub_diag, firstn_all. cbn. now rewrite app_nil_r.
Qed.

Lemma is_prefix_snoc p j pc : is_prefix (p ++ [j]) pc -> is_prefix p pc.
Proof. intros [r ->]. exists (j :: r). now rewrite <- app_assoc. Qed.

Section Pigeonhole.

Variables (mem : Z -> Z) (k : Z) (pc : list Z) (cur : Z).
Hypothesis T : Tree mem k.
Hypothesis L : Linked mem k 0.
Hypothesis Hpc : vpath pc.
Hypothesis Lpc : plen pc < TABLES_DEPTH.
Hypothesis Wpc : walk mem 0 pc = Some cur.
Hypothesis busy : forall p f, vpath p -> 1 <= plen p < TABLES_DEPTH ->
  walk mem 0 p = Some f ->
  f = cur \/ exists j, 0 <= j < PAGE_SIZE /\ mem (paddr f j) <> 0.

Let has_leaf : Prop :=
  exists p f, vpath p /\ plen p = TABLES_DEPTH /\ walk mem 0 p = Some f.

Lemma on_protected_path_or_leaf (n : nat) : forall p f,
  vpath p -> 1 <= plen p -> plen p = TABLES_DEPTH - Z.of_nat n ->
  walk mem 0 p = Some f -> is_prefix p pc \/ has_leaf.
Proof.
  induction n as [|n IH]; intros p f Hp H1 Hl Hw.
  - right. exists p, f. repeat split; auto. lia.
  - destruct (busy p f Hp ltac:(lia) Hw) as [->|(j & Hj & Hnz)].
    + left. exists []. rewrite app_nil_r.
      apply (tree_inj _ _ T pc p cur); auto; lia.
    + assert (Hpj : vpath (p ++ [j])).
      { apply vpath_app. split; [assumption|]. constructor; [assumption | constructor]. }
      assert (Lpj : plen (p ++ [j]) = TABLES_DEPTH - Z.of_nat n).
      { rewrite plen_app. unfold plen at 2. cbn [length]. lia. }
      destruct (IH (p ++ [j]) (mem (paddr f j)) Hpj ltac:(lia) Lpj
                   (walk_last mem p j f Hw Hnz)) as [Hpre|Hleaf].
      * left. eapply is_prefix_snoc; eauto.
      * now right.
Qed.

Lemma frames_on_protected_path (n : nat) :
  Z.of_nat n <= k ->
  has_leaf \/
  exists lens : list nat,
    length lens = n /\ NoDup lens /\
    forall x, In x lens ->
      ((1 <= x)%nat /\ Z.of_nat x < TABLES_DEPTH) /\
      exists f, 1 <= f <= Z.of_nat n /\ walk mem 0 (firstn x pc) = Some f.
Proof.
  induction n as [|n IH]; intros Hn.
  - right. exists []. split; [reflexivity|]. split; [apply NoDup_nil|]. intros x [].
  - destruct (IH ltac:(lia)) as [Hleaf|(lens & Hlen & Hnd & Hall)]; [now left|].
    destruct (L (Z.of_nat (S n)) ltac:(lia) ltac:(lia)) as (p & Hp & Lp & Wp).
    assert (Hne : p <> []) by (intros ->; cbn in Wp; inversion Wp; lia).
    assert (H1 : 1 <= plen p) by (destruct p; [congruence | rewrite plen_cons; pose proof (plen_nonneg p); lia]).
    destruct (on_protected_path_or_leaf (Z.to_nat (TABLES_DEPTH - plen p)) p _ Hp H1 ltac:(lia) Wp)
      as [Hpre|Hleaf]; [|now left].
    right. exists (length p :: lens).
    assert (Hfirst : firstn (length p) pc = p) by (symmetry; now apply is_prefix_firstn).
    assert (Hshort : plen p <= plen pc).
    { destruct Hpre as [r ->]. rewrite plen_app. pose proof (plen_nonneg r). lia. }
    split; [cbn; lia|]. split.
    + constructor; [|assumption]. intros Hin.
      destruct (Hall _ Hin) as [_ (f & Hf & Hw)]. rewrite Hfirst in Hw.
      rewrite Wp in Hw. inversion Hw. lia.
    + intros x [<-|Hin].
      * split; [unfold plen in *; lia|]. exists (Z.of_nat (S n)). rewrite Hfirst. split; [lia | assumption].
      * destruct (Hall _ Hin) as [Hx (f & Hf & Hw)]. split; [assumption|].
        exists f. split; [lia | assumption].
Qed.

(** When every frame is in use and no table other than the protected one is
    empty, some page is mapped. *)
Lemma leaf_exists : TABLES_DEPTH <= k -> has_leaf.
Proof.
  intros Hk. pose proof (tree_used _ _ T) as Hu.
  destruct (frames_on_protected_path (Z.to_nat k) ltac:(lia)) as [H|(lens & Hlen & Hnd & Hall)];
    [assumption|].
  exfalso.
  assert (Hincl : incl lens (seq 1 (Z.to_nat (TABLES_DEPTH - 1)))).
  { intros x Hx. destruct (Hall x Hx) as [[Hx1 Hx2] _]. apply in_seq. lia. }
  pose proof (NoDup_incl_length Hnd Hincl) as Hle. rewrite length_seq in Hle. lia.
Qed.

End Pigeonhole.

(** ** The three tiers of [findNewFrame] *)

Lemma farthest_none page : forall ls best,
  farthest page best ls = None -> best = None /\ forall l, In l ls -> l_leaf l = false.
Proof.
  induction ls as [|l ls IH]; intros best H; cbn [farthest] in H.
  - split; [assumption | intros l []].
  - destruct (l_leaf l) eqn:El.
    + destruct best as [b|].
      * destruct (_ >? _); apply IH in H; destruct H; discriminate.
      * apply IH in H. destruct H; discriminate.
    + apply IH in H. destruct H as [H1 H2]. split; [assumption|].
      intros l' [<-|Hin]; auto.
Qed.

Lemma farthest_in page : forall ls best w,
  farthest page best ls = Some w -> best = Some w \/ (In w ls /\ l_leaf w = true).
Proof.
  induction ls as [|l ls IH]; intros best w H; cbn [farthest] in H; [now left|].
  destruct (l_leaf l) eqn:El.
  - destruct best as [b|].
    + destruct (_ >? _); apply IH in H; destruct H as [H|[H1 H2]].
      * inversion H; subst. right. split; [now left | assumption].
      * right. split; [now right | assumption].
      * now left.
      * right. split; [now right | assumption].
    + apply IH in H. destruct H as [H|[H1 H2]].
      * inversion H; subst. right. split; [now left | assumption].
      * right. split; [now right | assumption].
  - apply IH in H. destruct H as [H|[H1 H2]]; [now left|].
    right. split; [now right | assumption].
Qed.

(** [findNewFrame] follows the three tiers, read off the links of the tree. *)
Lemma findNewFrame_cases pm va last :
  match find (reusable (ram pm) last) (treeLinks (ram pm)) with
  | Some l => findNewFrame pm va last = (l_frame l, PMwrite pm (l_addr l) 0)
  | None =>
      if maxUsed (treeLinks (ram pm)) + 1 <? NUM_FRAMES
      then findNewFrame pm va last = (maxUsed (treeLinks (ram pm)) + 1, pm)
      else match farthest (Z.shiftr va OFFSET_WIDTH) None (treeLinks (ram pm)) with
           | Some w =>
               findNewFrame pm va last =
               (l_frame w,
                clearFrame (PMevict (PMwrite pm (l_addr w) 0) (u64 (l_frame w)) (l_page w))
                           (u64 (l_frame w)))
           | None => fst (findNewFrame pm va last) = 0
           end
  end.
Proof.
  assert (Hfit : 1 <= TABLES_DEPTH < 2 ^ 64) by nia.
  pose proof (searchTree_spec (ram pm) va last Hfit) as S.
  assert (Hnz : forall l, In l (treeLinks (ram pm)) -> l_frame l <> 0).
  { intros l Hl. unfold treeLinks in Hl. eapply links_frame_nonzero; eauto. }
  unfold findNewFrame.
  destruct (find (reusable (ram pm) last) (treeLinks (ram pm))) as [l|] eqn:Ef.
  - destruct S as [S1 S2]. rewrite S1, S2.
    apply find_some in Ef. destruct Ef as [Ef _].
    apply Hnz in Ef.
    destruct (Z.eqb_spec (l_frame l) 0); [contradiction | reflexivity].
  - rewrite S. rewrite fold_absorb_emptyFrame.
    change (emptyFrame searchInit) with 0. cbn [Z.eqb negb].
    rewrite fold_absorb_maxFrame. change (maxFrame searchInit) with 0.
    fold (maxUsed (treeLinks (ram pm))).
    destruct (maxUsed (treeLinks (ram pm)) + 1 <? NUM_FRAMES); [reflexivity|].
    pose proof (fold_absorb_farthest va (treeLinks (ram pm)) searchInit) as F.
    change (candidate searchInit) with (@None Link) in F.
    specialize (F Hnz).
    destruct (farthest (Z.shiftr va OFFSET_WIDTH) None (treeLinks (ram pm))) as [w|].
    + destruct F as (F1 & F2 & F3). rewrite F1, F2, F3. reflexivity.
    + cbn [fst]. exact F.
Qed.

Lemma Tree_ext mem mem' k :
  Tree mem k ->
  (forall p, vpath p -> plen p <= TABLES_DEPTH -> walk mem' 0 p = walk mem 0 p) ->
  (forall f j, k < f -> 0 <= j < PAGE_SIZE -> mem' (f * PAGE_SIZE + j) = 0) ->
  Tree mem' k.
Proof.
  intros T Hw Hz. constructor.
  - intros p f Hp Hne Lp W. rewrite Hw in W by assumption. apply (tree_range _ _ T p f); auto.
  - intros p q f Hp Hq Lp Lq Wp Wq. rewrite Hw in Wp, Wq by assumption.
    apply (tree_inj _ _ T p q f); auto.
  - exact Hz.
  - apply (tree_used _ _ T).
Qed.

Lemma Linked_ext mem mem' k h :
  Linked mem k h ->
  (forall p, vpath p -> plen p <= TABLES_DEPTH -> walk mem' 0 p = walk mem 0 p) ->
  Linked mem' k h.
Proof.
  intros L Hw f Hf Hh. destruct (L f Hf Hh) as (p & Hp & Lp & W).
  exists p. repeat split; auto. now rewrite Hw.
Qed.

Lemma existsb_frame a f :
  0 <= f < NUM_FRAMES ->
  existsb (fun i => a =? u64 (f * PAGE_SIZE + i)) indices = true <->
  f * PAGE_SIZE <= a < f * PAGE_SIZE + PAGE_SIZE.
Proof.
  intros Hf. rewrite existsb_exists. split.
  - intros (i & Hi & E). apply In_indices in Hi. apply Z.eqb_eq in E.
    rewrite u64_small in E by nia. lia.
  - intros H. exists (a - f * PAGE_SIZE). split; [apply In_indices; lia|].
    apply Z.eqb_eq. rewrite u64_small by nia. lia.
Qed.

Lemma clearFrame_inside pm f a :
  0 <= f < NUM_FRAMES -> f * PAGE_SIZE <= a < f * PAGE_SIZE + PAGE_SIZE ->
  ram (clearFrame pm f) a = 0.
Proof.
  intros Hf Ha. rewrite clearFrame_ram.
  apply (existsb_frame a f Hf) in Ha. now rewrite Ha.
Qed.

Lemma clearFrame_outside pm f a :
  0 <= f < NUM_FRAMES -> ~ (f * PAGE_SIZE <= a < f * PAGE_SIZE + PAGE_SIZE) ->
  ram (clearFrame pm f) a = ram pm a.
Proof.
  intros Hf Ha. rewrite clearFrame_ram.
  destruct (existsb _ indices) eqn:E; [|reflexivity].
  apply (existsb_frame a f Hf) in E. contradiction.
Qed.

Lemma frame_u64 f : 0 <= f < NUM_FRAMES -> u64 f = f.
Proof. intros H. apply u64_small. pose proof page_size_pos. nia. Qed.

(** Two leaf paths with the same page number are the same path. *)
Lemma pageOf_inj p q :
  vpath p -> vpath q -> plen p = TABLES_DEPTH -> plen q = TABLES_DEPTH ->
  pageOf 0 p = pageOf 0 q -> p = q.
Proof.
  intros Hp Hq Lp Lq E.
  rewrite <- (pathOf_pageOf p 0 0) by (auto; rewrite ?Z.pow_0_r; lia).
  rewrite <- (pathOf_pageOf q 0 0) by (auto; rewrite ?Z.pow_0_r; lia).
  rewrite E. f_equal. unfold plen in *. lia.
Qed.

(** What the translator relies on after a call of [findNewFrame] made while
    it stands on the frame [cur], reached by the path [pc]: the frame [f]
    handed out is detached and holds zeros, the rest of the tree is a tree,
    the path to [cur] is intact, and every page keeps its data, in its frame
    or in backing storage. *)
Definition AllocPost (pm pm' : PM) (pc : list Z) (cur f : Z) : Prop :=
  (exists k', Tree (ram pm') k' /\ Linked (ram pm') k' f /\ Hole (ram pm') f /\ 1 <= f <= k' /\
              maxUsed (treeLinks (ram pm)) <= k' /\
              exists new, calls pm' = new ++ calls pm /\ Forall (below k') new) /\
  walk (ram pm') 0 pc = Some cur /\
  (forall a, ram pm a = 0 -> ram pm' a = 0) /\
  (forall p f', vpath p -> plen p = TABLES_DEPTH -> walk (ram pm') 0 p = Some f' ->
     walk (ram pm) 0 p = Some f' /\ swap pm' (pageOf 0 p) = swap pm (pageOf 0 p) /\
     forall off, 0 <= off < PAGE_SIZE ->
       ram pm' (f' * PAGE_SIZE + off) = ram pm (f' * PAGE_SIZE + off)) /\
  (forall p, vpath p -> plen p = TABLES_DEPTH -> walk (ram pm') 0 p = None ->
     (walk (ram pm) 0 p = None /\ swap pm' (pageOf 0 p) = swap pm (pageOf 0 p)) \/
     (exists fd c, walk (ram pm) 0 p = Some fd /\ swap pm' (pageOf 0 p) = Some c /\
        forall off, 0 <= off < PAGE_SIZE -> c off = ram pm (fd * PAGE_SIZE + off))).

Section Allocation.

Variables (pm : PM) (k : Z) (pc : list Z) (cur : Z).
Hypothesis T : Tree (ram pm) k.
Hypothesis L : Linked (ram pm) k 0.
Hypothesis Hpc : vpath pc.
Hypothesis Lpc : plen pc < TABLES_DEPTH.
Hypothesis Wpc : walk (ram pm) 0 pc = Some cur.

Lemma snoc_plen q i : plen (q ++ [i]) = plen q + 1.
Proof. rewrite plen_app. unfold plen at 2. cbn [length]. lia. Qed.

Lemma snoc_nonempty (q : list Z) i : q ++ [i] <> [].
Proof. destruct q; discriminate. Qed.

(** The frame of a table and the frame of a page are different frames. *)
Lemma table_not_page p q g f :
  vpath p -> vpath q -> plen p < TABLES_DEPTH -> plen q = TABLES_DEPTH ->
  walk (ram pm) 0 p = Some g -> walk (ram pm) 0 q = Some f -> g <> f.
Proof.
  intros Hp Hq Lp Lq Wp Wq ->.
  assert (p = q) by (apply (tree_inj _ _ T p q f); auto; lia).
  subst. lia.
Qed.

Lemma alloc_reuse l :
  find (reusable (ram pm) cur) (treeLinks (ram pm)) = Some l ->
  AllocPost pm (PMwrite pm (l_addr l) 0) pc cur (l_frame l).
Proof.
  intros Hf. apply find_some in Hf. destruct Hf as [Hin Hr].
  unfold reusable in Hr. apply andb_prop in Hr. destruct Hr as [Hr Hcur].
  apply andb_prop in Hr. destruct Hr as [Hleaf Hempty].
  apply treeLinks_sound in Hin.
  destruct Hin as (q & i & g & Hv & Hl & Wq & Ea & We & Epg & Elf).
  set (e := l_frame l) in *.
  assert (Hlt : plen (q ++ [i]) < TABLES_DEPTH).
  { rewrite Elf in Hleaf. destruct (Z.eqb_spec (plen (q ++ [i])) TABLES_DEPTH); [discriminate | lia]. }
  assert (Hne : e <> cur).
  { destruct (Z.eqb_spec e cur); [discriminate | assumption]. }
  pose proof (tree_range _ _ T _ _ Hv (snoc_nonempty q i) Hl We) as He.
  pose proof (tree_used _ _ T) as Hk.
  pose proof (frameIsEmpty_true (ram pm) e ltac:(lia) Hempty) as Hzero.
  assert (Hbelow : forall r, r <> [] -> vpath r -> plen (q ++ [i]) + plen r <= TABLES_DEPTH ->
            walk (ram pm) e r = None).
  { intros [|r0 r] Hr0 Hvr _; [congruence|]. inversion Hvr; subst.
    cbn [walk]. rewrite paddr_small by lia. now rewrite Hzero. }
  assert (Hm : forall a, ram (PMwrite pm (l_addr l) 0) a =
                         if a =? paddr g i then 0 else ram pm a).
  { intros a. cbn [PMwrite ram]. now rewrite Ea. }
  destruct (unlink_spec (ram pm) _ k q i g e T Hv Hl Wq We Hbelow Hm)
    as (T' & Same & Cut & Gone & Lk).
  assert (Hvq : vpath q) by (apply vpath_app in Hv; tauto).
  assert (Hi : 0 <= i < PAGE_SIZE).
  { apply vpath_app in Hv. destruct Hv as [_ H]. inversion H; subst. assumption. }
  rewrite snoc_plen in Hlt.
  pose proof (tree_frame _ _ _ _ T Hvq ltac:(lia) Wq) as Hg.
  unfold AllocPost. repeat apply conj.
  - exists k. rewrite (maxUsed_tree _ _ T L).
    split; [exact T'|]. split; [now apply Lk|]. split; [split; [|exact Gone]|].
    { intros j Hj. rewrite Hm. destruct (_ =? paddr g i); [reflexivity | now apply Hzero]. }
    split; [lia|]. split; [lia|].
    exists [EvWrite (paddr g i) 0]. split; [cbn [PMwrite calls app]; now rewrite Ea|].
    constructor; [|constructor]. cbn [below]. rewrite paddr_small by assumption.
    pose proof (tree_frame_le _ _ _ _ T Hvq ltac:(lia) Wq). nia.
  - rewrite Same; auto; [lia|]. intros ->. congruence.
  - intros a Ha. rewrite Hm. destruct (_ =? paddr g i); auto.
  - intros p f' Hp Lp W.
    assert (Hpq : p <> q ++ [i]) by (intros ->; rewrite snoc_plen in Lp; lia).
    rewrite Same in W by (auto; lia). repeat apply conj; auto.
    intros off Hoff. rewrite Hm.
    destruct (Z.eqb_spec (f' * PAGE_SIZE + off) (paddr g i)) as [E|E]; [|reflexivity].
    exfalso. rewrite paddr_small in E by assumption.
    apply frame_addr_inj in E; auto. destruct E as [-> _].
    apply (table_not_page q p g g); auto; lia.
  - intros p Hp Lp W. left.
    assert (Hpq : p <> q ++ [i]) by (intros ->; rewrite snoc_plen in Lp; lia).
    rewrite Same in W by (auto; lia). auto.
Qed.

Lemma alloc_fresh :
  maxUsed (treeLinks (ram pm)) + 1 < NUM_FRAMES ->
  AllocPost pm pm pc cur (maxUsed (treeLinks (ram pm)) + 1).
Proof.
  intros Hm. unfold AllocPost. rewrite (maxUsed_tree _ _ T L) in *.
  pose proof (tree_used _ _ T) as Hk.
  repeat apply conj; auto.
  exists (k + 1). repeat apply conj; try lia; try (exists []; split; [reflexivity | constructor]).
  - constructor.
    + intros p f Hp Hne Lp W. pose proof (tree_range _ _ T p f Hp Hne Lp W). lia.
    + apply (tree_inj _ _ T).
    + intros f j Hf Hj. apply (tree_unused _ _ T); lia.
    + lia.
  - intros f Hf Hne. apply L; lia.
  - intros i Hi. apply (tree_unused _ _ T); lia.
  - intros p Hp Lp W. destruct p as [|i p].
    + cbn in W. inversion W. lia.
    + pose proof (tree_range _ _ T _ _ Hp ltac:(discriminate) Lp W). lia.
Qed.

Lemma clearFrame_zero_stays pm0 f a : ram pm0 a = 0 -> ram (clearFrame pm0 f) a = 0.
Proof. intros H. rewrite clearFrame_ram. destruct (existsb _ indices); auto. Qed.

Lemma in_frame_dec f a :
  {f * PAGE_SIZE <= a < f * PAGE_SIZE + PAGE_SIZE} +
  {~ (f * PAGE_SIZE <= a < f * PAGE_SIZE + PAGE_SIZE)}.
Proof.
  destruct (Z_le_dec (f * PAGE_SIZE) a); [|right; lia].
  destruct (Z_lt_dec a (f * PAGE_SIZE + PAGE_SIZE)); [left | right]; lia.
Qed.

Lemma alloc_evict w :
  In w (treeLinks (ram pm)) -> l_leaf w = true ->
  AllocPost pm
    (clearFrame (PMevict (PMwrite pm (l_addr w) 0) (u64 (l_frame w)) (l_page w))
                (u64 (l_frame w)))
    pc cur (l_frame w).
Proof.
  intros Hin Hleaf. apply treeLinks_sound in Hin.
  destruct Hin as (q & i & g & Hv & Hl & Wq & Ea & We & Epg & Elf).
  set (fd := l_frame w) in *. set (page := l_page w) in *.
  assert (Hlen : plen (q ++ [i]) = TABLES_DEPTH).
  { rewrite Hleaf in Elf. symmetry in Elf. now apply Z.eqb_eq in Elf. }
  pose proof (tree_range _ _ T _ _ Hv (snoc_nonempty q i) Hl We) as Hfd.
  pose proof (tree_used _ _ T) as Hk.
  assert (Hfd' : 0 <= fd < NUM_FRAMES) by lia.
  rewrite (frame_u64 fd Hfd'), Ea.
  set (pm1 := PMwrite pm (paddr g i) 0).
  set (pm3 := clearFrame (PMevict pm1 fd page) fd).
  assert (Hbelow : forall r, r <> [] -> vpath r -> plen (q ++ [i]) + plen r <= TABLES_DEPTH ->
            walk (ram pm) fd r = None).
  { intros [|r0 r] Hr0 _ Hr; [congruence|]. rewrite plen_cons in Hr.
    pose proof (plen_nonneg r). lia. }
  assert (Hm : forall a, ram pm1 a = if a =? paddr g i then 0 else ram pm a)
    by reflexivity.
  destruct (unlink_spec (ram pm) _ k q i g fd T Hv Hl Wq We Hbelow Hm)
    as (T1 & Same & Cut & Gone & Lk).
  assert (Hvq : vpath q) by (apply vpath_app in Hv; tauto).
  assert (Hi : 0 <= i < PAGE_SIZE).
  { apply vpath_app in Hv. destruct Hv as [_ H]. inversion H; subst. assumption. }
  rewrite snoc_plen in Hlen.
  pose proof (tree_frame _ _ _ _ T Hvq ltac:(lia) Wq) as Hg.
  assert (Hgf : g <> fd).
  { apply (table_not_page q (q ++ [i]) g fd); auto; [lia | rewrite snoc_plen; lia]. }
  assert (Hout : forall a, ~ (fd * PAGE_SIZE <= a < fd * PAGE_SIZE + PAGE_SIZE) ->
            ram pm3 a = ram pm1 a).
  { intros a Ha. unfold pm3. rewrite clearFrame_outside by assumption. reflexivity. }
  assert (W31 : forall p, vpath p -> plen p <= TABLES_DEPTH ->
            walk (ram pm3) 0 p = walk (ram pm1) 0 p).
  { apply (walk_frame_irrelevant (ram pm1) (ram pm3) k fd T1 Hfd'); [|exact Hout].
    intros p Hp Lp. apply Gone; [assumption | lia]. }
  assert (Hdata : forall f' off, f' <> fd -> f' <> g -> 0 <= off < PAGE_SIZE ->
            ram pm3 (f' * PAGE_SIZE + off) = ram pm (f' * PAGE_SIZE + off)).
  { intros f' off H1 H2 Hoff. rewrite Hout by nia. rewrite Hm.
    destruct (Z.eqb_spec (f' * PAGE_SIZE + off) (paddr g i)) as [E|E]; [|reflexivity].
    rewrite paddr_small in E by assumption. apply frame_addr_inj in E; auto. tauto. }
  assert (Hswap : forall P, swap pm3 P = if P =? page
                    then Some (fun j => ram pm1 (fd * PAGE_SIZE + j)) else swap pm P).
  { intros P. unfold pm3. rewrite clearFrame_swap. reflexivity. }
  assert (Hpage : forall p, vpath p -> plen p = TABLES_DEPTH -> p <> q ++ [i] ->
            pageOf 0 p <> page).
  { intros p Hp Lp Hne E. apply Hne. apply pageOf_inj; auto; [rewrite snoc_plen; lia|].
    now rewrite E, <- Epg. }
  unfold AllocPost. repeat apply conj.
  - exists k. rewrite (maxUsed_tree _ _ T L).
    split; [|split; [|split; [split|split; [lia|split; [lia|]]]]].
    + apply (Tree_ext (ram pm1)); auto. intros f j Hf Hj.
      rewrite Hout by nia. apply (tree_unused _ _ T1); assumption.
    + apply (Linked_ext (ram pm1)); auto.
    + intros j Hj. unfold pm3. apply clearFrame_inside; [assumption | lia].
    + intros p Hp Lp. rewrite W31 by assumption. now apply Gone.
    + destruct (clearFrame_calls (PMevict pm1 fd page) fd) as (new & En & Fn).
      exists (new ++ [EvEvict fd page; EvWrite (paddr g i) 0]). split.
      * unfold pm3. rewrite En. cbn [PMevict PMwrite calls pm1]. now rewrite <- app_assoc.
      * pose proof (tree_frame_le _ _ _ _ T Hvq ltac:(lia) Wq) as Hgk.
        apply Forall_app. split.
        -- eapply Forall_impl; [|exact Fn]. intros e (j & Hj & ->).
           cbn [below]. rewrite u64_small by nia. nia.
        -- constructor; [cbn [below]; lia|]. constructor; [|constructor].
           cbn [below]. rewrite paddr_small by assumption. nia.
  - rewrite W31 by (auto; lia). rewrite Same; auto; [lia|].
    intros ->. rewrite snoc_plen in Lpc. lia.
  - intros a Ha. unfold pm3. apply clearFrame_zero_stays. cbn [PMevict ram].
    rewrite Hm. destruct (_ =? paddr g i); auto.
  - intros p f' Hp Lp W. rewrite W31 in W by (auto; lia).
    assert (Hne : p <> q ++ [i]) by (intros ->; congruence).
    rewrite Same in W by (auto; lia).
    repeat apply conj; auto.
    + rewrite Hswap. destruct (Z.eqb_spec (pageOf 0 p) page) as [E|E]; [|reflexivity].
      exfalso. now apply (Hpage p).
    + intros off Hoff. apply Hdata; auto.
      * intros ->. apply Hne. apply (tree_inj _ _ T p (q ++ [i]) fd); auto; lia.
      * intros ->. apply (table_not_page q p g g); auto; lia.
  - intros p Hp Lp W. rewrite W31 in W by (auto; lia).
    destruct (list_eq_dec Z.eq_dec p (q ++ [i])) as [->|Hne].
    + right. exists fd, (fun j => ram pm1 (fd * PAGE_SIZE + j)).
      repeat apply conj; auto.
      * rewrite Hswap, <- Epg. unfold page. now rewrite Z.eqb_refl.
      * intros off Hoff. rewrite Hm.
        destruct (Z.eqb_spec (fd * PAGE_SIZE + off) (paddr g i)) as [E|E]; [|reflexivity].
        rewrite paddr_small in E by assumption. apply frame_addr_inj in E; auto.
        destruct E as [E _]. congruence.
    + left. rewrite Same in W by (auto; lia). split; [assumption|].
      rewrite Hswap. destruct (Z.eqb_spec (pageOf 0 p) page) as [E|E]; [|reflexivity].
      exfalso. now apply (Hpage p).
Qed.

(** In the eviction tier some page is mapped, so the traversal has a
    candidate. *)
Lemma evict_candidate va :
  find (reusable (ram pm) cur) (treeLinks (ram pm)) = None ->
  ~ maxUsed (treeLinks (ram pm)) + 1 < NUM_FRAMES ->
  exists w, farthest (Z.shiftr va OFFSET_WIDTH) None (treeLinks (ram pm)) = Some w /\
            In w (treeLinks (ram pm)) /\ l_leaf w = true.
Proof.
  intros Hnone Hfull. rewrite (maxUsed_tree _ _ T L) in Hfull.
  assert (busy : forall p f, vpath p -> 1 <= plen p < TABLES_DEPTH ->
            walk (ram pm) 0 p = Some f ->
            f = cur \/ exists j, 0 <= j < PAGE_SIZE /\ ram pm (paddr f j) <> 0).
  { intros p f Hp Lp W.
    assert (Hne : p <> []) by (intros ->; unfold plen in Lp; cbn in Lp; lia).
    destruct (mapped_link (ram pm) p f Hp Hne ltac:(lia) W) as (l & Hin & Ef & _ & Elf).
    pose proof (find_none _ _ Hnone l Hin) as Hr. unfold reusable in Hr.
    rewrite Elf, Ef in Hr.
    destruct (Z.eqb_spec (plen p) TABLES_DEPTH); [lia|]. cbn [negb andb] in Hr.
    destruct (Z.eqb_spec f cur); [now left|]. right.
    rewrite andb_true_r in Hr. now apply frameIsEmpty_false. }
  destruct (leaf_exists (ram pm) k pc cur T L Hpc Lpc Wpc busy ltac:(lia))
    as (p & f & Hp & Lp & W).
  assert (Hne : p <> []) by (intros ->; unfold plen in Lp; cbn in Lp; lia).
  destruct (mapped_link (ram pm) p f Hp Hne ltac:(lia) W) as (l & Hin & _ & _ & Elf).
  rewrite Lp, Z.eqb_refl in Elf.
  destruct (farthest (Z.shiftr va OFFSET_WIDTH) None (treeLinks (ram pm))) as [w|] eqn:Ef.
  - exists w. split; [reflexivity|].
    apply farthest_in in Ef. destruct Ef as [Ef|Ef]; [discriminate | assumption].
  - apply farthest_none in Ef. destruct Ef as [_ Ef]. rewrite (Ef l Hin) in Elf. discriminate.
Qed.

(** Every call of [findNewFrame] made by the translator leaves what
    [AllocPost] says. *)
Lemma findNewFrame_post va :
  AllocPost pm (snd (findNewFrame pm va cur)) pc cur (fst (findNewFrame pm va cur)).
Proof.
  pose proof (findNewFrame_cases pm va cur) as C.
  destruct (find (reusable (ram pm) cur) (treeLinks (ram pm))) as [l|] eqn:Ef.
  - rewrite C. cbn [fst snd]. now apply alloc_reuse.
  - destruct (Z.ltb_spec (maxUsed (treeLinks (ram pm)) + 1) NUM_FRAMES) as [Hlt|Hge].
    + rewrite C. cbn [fst snd]. now apply alloc_fresh.
    + destruct (evict_candidate va Ef ltac:(lia)) as (w & Ew & Hin & Hleaf).
      rewrite Ew in C. rewrite C. cbn [fst snd]. now apply alloc_evict.
Qed.

End Allocation.

(** ** Linking a frame *)

(** Writing a detached frame into a zero entry of a reachable table gives a
    tree in which every frame of [1..k] is linked. *)
Lemma link_spec mem mem' k pc c j h :
  Tree mem k -> Linked mem k h -> Hole mem h -> 1 <= h <= k ->
  vpath (pc ++ [j]) -> plen pc < TABLES_DEPTH -> walk mem 0 pc = Some c ->
  mem (paddr c j) = 0 ->
  (forall a, mem' a = if a =? paddr c j then h else mem a) ->
  Tree mem' k /\ Linked mem' k 0 /\
  (forall p, vpath p -> plen p <= TABLES_DEPTH -> p <> pc ++ [j] ->
     walk mem' 0 p = walk mem 0 p) /\
  walk mem' 0 (pc ++ [j]) = Some h /\
  c <> h.
Proof.
  intros T L H Hh Hv Lpc Wc Hz Hm.
  pose proof (tree_used _ _ T) as Hk.
  assert (Hh0 : h <> 0) by lia.
  assert (Hh1 : 0 <= h < NUM_FRAMES) by lia.
  pose proof (walk_link mem mem' k pc c j h T Hv Lpc Wc Hz Hh0 Hh1 H Hm) as WL.
  assert (Hvc : vpath pc) by (apply vpath_app in Hv; tauto).
  assert (Hj : 0 <= j < PAGE_SIZE).
  { apply vpath_app in Hv. destruct Hv as [_ Hv]. inversion Hv; subst. assumption. }
  pose proof (tree_frame _ _ _ _ T Hvc ltac:(lia) Wc) as Hc.
  assert (Hch : c <> h) by (intros ->; destruct H as [_ H]; apply (H pc); auto; lia).
  assert (Hck : c <= k).
  { destruct pc as [|i0 pc0]; [cbn in Wc; inversion Wc; lia|].
    pose proof (tree_range _ _ T _ _ Hvc ltac:(discriminate) ltac:(lia) Wc). lia. }
  assert (Same : forall p, vpath p -> plen p <= TABLES_DEPTH -> p <> pc ++ [j] ->
            walk mem' 0 p = walk mem 0 p).
  { intros p Hp Lp Hne. rewrite WL by assumption.
    destruct (list_eq_dec Z.eq_dec p (pc ++ [j])); [contradiction | reflexivity]. }
  assert (New : walk mem' 0 (pc ++ [j]) = Some h).
  { rewrite WL; [|assumption|rewrite snoc_plen; lia].
    destruct (list_eq_dec Z.eq_dec (pc ++ [j]) (pc ++ [j])); [reflexivity | contradiction]. }
  assert (Old : walk mem 0 (pc ++ [j]) = None).
  { rewrite walk_snoc, Wc, Hz. reflexivity. }
  assert (Back : forall p f, vpath p -> plen p <= TABLES_DEPTH -> walk mem' 0 p = Some f ->
            (p = pc ++ [j] /\ f = h) \/ (p <> pc ++ [j] /\ walk mem 0 p = Some f)).
  { intros p f Hp Lp W. destruct (list_eq_dec Z.eq_dec p (pc ++ [j])) as [->|Hne].
    - left. split; [reflexivity | congruence].
    - right. split; [assumption|]. now rewrite Same in W. }
  repeat apply conj; auto.
  - constructor.
    + intros p f Hp Hne Lp W. destruct (Back p f Hp Lp W) as [[_ ->]|[_ W']]; [lia|].
      apply (tree_range _ _ T p f); auto.
    + intros p q f Hp Hq Lp Lq Wp Wq.
      destruct (Back p f Hp Lp Wp) as [[-> ->]|[Np Wp']];
        destruct (Back q _ Hq Lq Wq) as [[-> E]|[Nq Wq']]; auto.
      * exfalso. destruct H as [_ H]. apply (H q); auto.
      * exfalso. subst f. destruct H as [_ H]. apply (H p); auto.
      * apply (tree_inj _ _ T p q f); auto.
    + intros f i Hf Hi. rewrite Hm.
      destruct (Z.eqb_spec (f * PAGE_SIZE + i) (paddr c j)) as [E|E].
      * rewrite paddr_small in E by assumption. apply frame_addr_inj in E; auto. lia.
      * apply (tree_unused _ _ T); assumption.
    + assumption.
  - intros f Hf _. destruct (Z.eq_dec f h) as [->|Hne].
    + exists (pc ++ [j]). repeat apply conj; auto. rewrite snoc_plen. lia.
    + destruct (L f Hf Hne) as (p & Hp & Lp & W). exists p. repeat apply conj; auto.
      rewrite Same; auto. intros ->. congruence.
Qed.

(** ** Pages keep their data *)

(** Every page other than [target] holds in [pm] the data it held in [pm0]:
    a page mapped in [pm] was mapped in [pm0] to the same frame with the same
    words, and a page not mapped in [pm] was either in the same situation in
    [pm0] or has been stored with the words its frame held. *)
Definition DataRel (pm0 pm : PM) (target : list Z) : Prop :=
  (forall p f', vpath p -> plen p = TABLES_DEPTH -> p <> target ->
     walk (ram pm) 0 p = Some f' ->
     walk (ram pm0) 0 p = Some f' /\ swap pm (pageOf 0 p) = swap pm0 (pageOf 0 p) /\
     forall off, 0 <= off < PAGE_SIZE ->
       ram pm (f' * PAGE_SIZE + off) = ram pm0 (f' * PAGE_SIZE + off)) /\
  (forall p, vpath p -> plen p = TABLES_DEPTH -> p <> target ->
     walk (ram pm) 0 p = None ->
     (walk (ram pm0) 0 p = None /\ swap pm (pageOf 0 p) = swap pm0 (pageOf 0 p)) \/
     (exists fd c, walk (ram pm0) 0 p = Some fd /\ swap pm (pageOf 0 p) = Some c /\
        forall off, 0 <= off < PAGE_SIZE -> c off = ram pm0 (fd * PAGE_SIZE + off))).

Lemma DataRel_refl pm target : DataRel pm pm target.
Proof. split; intros; auto. Qed.

Lemma DataRel_trans pm0 pm1 pm2 target :
  DataRel pm0 pm1 target -> DataRel pm1 pm2 target -> DataRel pm0 pm2 target.
Proof.
  intros [A1 A2] [B1 B2]. split.
  - intros p f' Hp Lp Hne W. destruct (B1 p f' Hp Lp Hne W) as (W1 & S1 & D1).
    destruct (A1 p f' Hp Lp Hne W1) as (W0 & S0 & D0).
    repeat apply conj; auto; try congruence.
    intros off Hoff. rewrite D1, D0; auto.
  - intros p Hp Lp Hne W. destruct (B2 p Hp Lp Hne W) as [[W1 S1]|(fd & c & W1 & S1 & D1)].
    + destruct (A2 p Hp Lp Hne W1) as [[W0 S0]|(fd & c & W0 & S0 & D0)].
      * left. split; congruence.
      * right. exists fd, c. repeat apply conj; auto. congruence.
    + destruct (A1 p fd Hp Lp Hne W1) as (W0 & S0 & D0).
      right. exists fd, c. repeat apply conj; auto.
      intros off Hoff. rewrite D1, D0; auto.
Qed.

Lemma AllocPost_DataRel pm pm' pc cur f target :
  AllocPost pm pm' pc cur f -> DataRel pm pm' target.
Proof.
  intros (_ & _ & _ & P4 & P5). split.
  - intros p f' Hp Lp _ W. apply P4; auto.
  - intros p Hp Lp _ W. apply P5; auto.
Qed.

(** ** The loop of the translator *)

Lemma below_mono k k' e : k <= k' -> below k e -> below k' e.
Proof.
  intros H. pose proof page_size_pos. destruct e; cbn [below]; intros; try lia. nia.
Qed.

Lemma level_index va (l : nat) :
  getOffset (Z.shiftr va (Z.of_nat (S l) * OFFSET_WIDTH)) =
  getOffset (Z.shiftr (Z.shiftr va OFFSET_WIDTH) (Z.of_nat l * OFFSET_WIDTH)).
Proof. rewrite Z.shiftr_shiftr by nia. f_equal. f_equal. lia. Qed.

Lemma walk_zero_entry mem done idx rest cur :
  walk mem 0 done = Some cur -> mem (paddr cur idx) = 0 ->
  walk mem 0 ((done ++ [idx]) ++ rest) = None.
Proof. intros W Z0. rewrite walk_app, walk_snoc, W, Z0. reflexivity. Qed.

(** The state of the loop when [l] levels remain: the walk so far has
    followed the first levels of the path of the address and stands on
    [w_add1]; the table is a tree with every frame linked; the pages other
    than the one of the address keep their data; and the page of the address
    is as it was in [pm0], except that at the end a page that was not mapped
    is mapped to a frame of zeros. *)
Definition LoopInv (pm0 : PM) (va : Z) (l : nat) (w : Walk) : Prop :=
  exists k done,
    Tree (ram (w_pm w)) k /\ Linked (ram (w_pm w)) k 0 /\
    maxUsed (treeLinks (ram pm0)) <= k /\
    (exists new, calls (w_pm w) = new ++ calls pm0 /\ Forall (below k) new) /\
    vpath done /\ plen done = TABLES_DEPTH - Z.of_nat l /\
    pathOfAddress va = done ++ pathOf l (Z.shiftr va OFFSET_WIDTH) /\
    walk (ram (w_pm w)) 0 done = Some (w_add1 w) /\
    DataRel pm0 (w_pm w) (pathOfAddress va) /\
    swap (w_pm w) (pageOf 0 (pathOfAddress va)) = swap pm0 (pageOf 0 (pathOfAddress va)) /\
    (forall x, walk (ram pm0) 0 (pathOfAddress va) = Some x -> w_pm w = pm0) /\
    (walk (ram pm0) 0 (pathOfAddress va) = None ->
       ((1 <= l)%nat -> walk (ram (w_pm w)) 0 (pathOfAddress va) = None) /\
       (l = 0%nat -> forall off, 0 <= off < PAGE_SIZE ->
          ram (w_pm w) (w_add1 w * PAGE_SIZE + off) = 0)) /\
    (Z.of_nat l < TABLES_DEPTH ->
       exists q j, done = q ++ [j] /\ walk (ram (w_pm w)) 0 q = Some (w_currFrame w)).

Lemma LoopInv_start pm0 va k :
  Tree (ram pm0) k -> Linked (ram pm0) k 0 ->
  LoopInv pm0 va (Z.to_nat TABLES_DEPTH) (mkWalk pm0 0 0).
Proof.
  intros T L. exists k, []. cbn [w_pm w_add1 w_currFrame app].
  split; [exact T|]. split; [exact L|].
  split; [rewrite (maxUsed_tree _ _ T L); lia|].
  split; [exists []; split; [reflexivity | constructor]|].
  split; [constructor|].
  split; [unfold plen; cbn; lia|]. split; [reflexivity|]. split; [reflexivity|].
  split; [apply DataRel_refl|]. split; [reflexivity|]. split; [reflexivity|].
  split; [|intros; lia].
  intros H. split; [auto | intros; lia].
Qed.

Lemma LoopInv_step pm0 va l w :
  LoopInv pm0 va (S l) w -> LoopInv pm0 va l (translateLevel va (Z.of_nat (S l)) w).
Proof.
  intros (k & done & T & L & Hmono0 & (new0 & Enew0 & Fnew0) & Hd & Ld & Et & Wd & DR & Sw &
          Hmap & Hun & Hcf).
  set (target := pathOfAddress va) in *.
  set (pm := w_pm w) in *. set (cur := w_add1 w) in *.
  unfold translateLevel. fold pm. fold cur. rewrite level_index.
  set (idx := getOffset (Z.shiftr (Z.shiftr va OFFSET_WIDTH) (Z.of_nat l * OFFSET_WIDTH))).
  assert (Hidx : 0 <= idx < PAGE_SIZE) by (apply getOffset_range; nia).
  assert (Et' : target = (done ++ [idx]) ++ pathOf l (Z.shiftr va OFFSET_WIDTH)).
  { rewrite Et. cbn [pathOf]. fold idx. now rewrite <- app_assoc. }
  assert (Hv' : vpath (done ++ [idx])).
  { apply vpath_app. split; [assumption|]. constructor; [assumption | constructor]. }
  assert (Ld' : plen (done ++ [idx]) = TABLES_DEPTH - Z.of_nat l) by (rewrite snoc_plen; lia).
  assert (Ldone : plen done < TABLES_DEPTH) by lia.
  assert (Htl : plen target = TABLES_DEPTH) by apply pathOfAddress_plen.
  assert (Htv : vpath target) by apply pathOfAddress_vpath.
  pose proof (tree_frame _ _ _ _ T Hd ltac:(lia) Wd) as Hcur.
  unfold PMread.
  destruct (Z.eqb_spec (ram pm (paddr cur idx)) 0) as [E0|E0].
  - (* the entry is 0: a frame is allocated and linked *)
    pose proof (findNewFrame_post pm k done cur T L Hd Ldone Wd va) as Post.
    set (r := findNewFrame pm va cur) in *.
    pose proof (AllocPost_DataRel _ _ _ _ _ target Post) as DR1.
    destruct Post as ((k' & T' & L' & H' & Hf & Hmono & (new1 & Enew1 & Fnew1)) & Wc' & Z' & P4 & P5).
    rewrite (maxUsed_tree _ _ T L) in Hmono.
    set (pm' := snd r) in *. set (f := fst r) in *.
    set (pm'' := PMwrite pm' (paddr cur idx) f).
    assert (Hm : forall a, ram pm'' a = if a =? paddr cur idx then f else ram pm' a)
      by reflexivity.
    destruct (link_spec (ram pm') (ram pm'') k' done cur idx f T' L' H' Hf Hv' Ldone Wc'
                (Z' _ E0) Hm) as (T'' & L'' & Same & New & Hcf').
    assert (Wt : walk (ram pm) 0 target = None).
    { rewrite Et'. now apply (walk_zero_entry _ done idx _ cur). }
    assert (Wt' : walk (ram pm') 0 target = None).
    { destruct (walk (ram pm') 0 target) as [x|] eqn:Ex; [|reflexivity].
      destruct (P4 target x Htv Htl Ex) as [W _]. congruence. }
    assert (Hleaf : forall p, plen p = TABLES_DEPTH -> p <> target -> p <> done ++ [idx]).
    { intros p Lp Hne ->. destruct l as [|l].
      - apply Hne. rewrite Et'. cbn [pathOf]. now rewrite app_nil_r.
      - lia. }
    exists k', (done ++ [idx]). cbn [w_pm w_add1 w_currFrame]. fold target.
    split; [exact T''|]. split; [exact L''|]. split; [lia|].
    split.
    { exists (EvWrite (paddr cur idx) f :: new1 ++ new0). split.
      - change (calls pm'') with (EvWrite (paddr cur idx) f :: calls pm').
        rewrite Enew1, Enew0. cbn [app]. now rewrite <- app_assoc.
      - constructor.
        + cbn [below]. rewrite paddr_small by assumption.
          pose proof (tree_frame_le _ _ _ _ T Hd ltac:(lia) Wd). nia.
        + apply Forall_app. split; [assumption|].
          eapply Forall_impl; [|exact Fnew0]. intros e. now apply below_mono. }
    split; [exact Hv'|]. split; [exact Ld'|].
    split; [exact Et'|]. split; [exact New|].
    split; [|split; [|split; [|split]]].
    + (* the other pages keep their data *)
      apply (DataRel_trans pm0 pm pm'' target DR).
      apply (DataRel_trans pm pm' pm'' target DR1).
      split.
      * intros p f' Hp Lp Hne W.
        rewrite Same in W by (auto; lia).
        repeat apply conj; auto.
        intros off Hoff. rewrite Hm.
        destruct (Z.eqb_spec (f' * PAGE_SIZE + off) (paddr cur idx)) as [E|E]; [|reflexivity].
        exfalso. rewrite paddr_small in E by assumption.
        apply frame_addr_inj in E; auto. destruct E as [-> _].
        assert (done = p) by (apply (tree_inj _ _ T' done p cur); auto; lia).
        subst p. lia.
      * intros p Hp Lp Hne W. rewrite Same in W by (auto; lia). left. auto.
    + (* backing storage of the page of the address *)
      rewrite <- Sw. change (swap pm'' (pageOf 0 target)) with (swap pm' (pageOf 0 target)).
      destruct (P5 target Htv Htl Wt') as [[_ S]|(fd & c & W & _)]; [exact S | congruence].
    + intros x Hx. specialize (Hmap x Hx). fold pm in Hmap. rewrite Hmap in Wt. congruence.
    + intros Hx. split.
      * intros Hl. rewrite Same; auto; [lia|]. intros E. rewrite E in Htl. lia.
      * intros -> off Hoff. rewrite Hm.
        destruct (Z.eqb_spec (f * PAGE_SIZE + off) (paddr cur idx)) as [E|E].
        -- exfalso. rewrite paddr_small in E by assumption.
           apply frame_addr_inj in E; auto. destruct E as [E _]. congruence.
        -- destruct H' as [H' _]. now apply H'.
    + intros _. exists done, idx. split; [reflexivity|].
      rewrite Same; auto; [lia|].
      intros E. apply (f_equal (@length Z)) in E. rewrite length_app in E. cbn in E. lia.
  - (* the entry is mapped: the walk descends *)
    exists k, (done ++ [idx]). cbn [w_pm w_add1 w_currFrame]. fold pm. fold target.
    split; [exact T|]. split; [exact L|]. split; [exact Hmono0|].
    split; [exists new0; split; assumption|].
    split; [exact Hv'|]. split; [exact Ld'|].
    split; [exact Et'|]. split; [now apply walk_last|].
    split; [exact DR|]. split; [exact Sw|]. split; [exact Hmap|]. split.
    + intros Hx. destruct (Hun Hx) as [U1 U2]. split.
      * intros Hl. apply U1. lia.
      * intros ->. exfalso. specialize (U1 ltac:(lia)).
        rewrite Et' in U1. cbn [pathOf] in U1. rewrite app_nil_r in U1.
        rewrite (walk_last _ _ _ _ Wd E0) in U1. discriminate.
    + intros _. exists done, idx. auto.
Qed.

Lemma LoopInv_loop pm0 va l : forall w,
  LoopInv pm0 va l w -> LoopInv pm0 va 0 (translateLoop va l w).
Proof.
  induction l as [|l IH]; intros w H; [exact H|].
  cbn [translateLoop]. apply IH. now apply LoopInv_step.
Qed.

(** ** Restoring a page *)

Lemma PMrestore_outside pm f page a :
  ~ (f * PAGE_SIZE <= a < f * PAGE_SIZE + PAGE_SIZE) ->
  ram (PMrestore pm f page) a = ram pm a.
Proof.
  intros H. unfold PMrestore. destruct (swap pm page); [|reflexivity]. cbn [ram].
  destruct (Z.leb_spec (f * PAGE_SIZE) a); destruct (Z.ltb_spec a (f * PAGE_SIZE + PAGE_SIZE));
    cbn [andb]; try reflexivity. lia.
Qed.

Lemma PMrestore_inside pm f page off :
  0 <= off < PAGE_SIZE ->
  ram (PMrestore pm f page) (f * PAGE_SIZE + off) =
  match swap pm page with Some c => c off | None => ram pm (f * PAGE_SIZE + off) end.
Proof.
  intros H. unfold PMrestore. destruct (swap pm page); [|reflexivity]. cbn [ram].
  destruct (Z.leb_spec (f * PAGE_SIZE) (f * PAGE_SIZE + off)); [|lia].
  destruct (Z.ltb_spec (f * PAGE_SIZE + off) (f * PAGE_SIZE + PAGE_SIZE)); [|lia].
  cbn [andb]. f_equal. lia.
Qed.

Lemma PMrestore_swap_other pm f page q :
  q <> page -> swap (PMrestore pm f page) q = swap pm q.
Proof.
  intros H. unfold PMrestore. destruct (swap pm page); [|reflexivity]. cbn [swap].
  destruct RESTORE_MOVES; [|reflexivity].
  destruct (Z.eqb_spec q page); [contradiction | reflexivity].
Qed.

Lemma PMrestore_swap_moved pm f page :
  RESTORE_MOVES = true -> swap (PMrestore pm f page) page = None.
Proof.
  intros H. unfold PMrestore. destruct (swap pm page) eqn:E; [|exact E]. cbn [swap].
  rewrite H. now rewrite Z.eqb_refl.
Qed.

Lemma pathOf_last n page :
  exists q, pathOf (S n) page = q ++ [getOffset page].
Proof.
  induction n as [|n [q IH]].
  - exists []. cbn [pathOf app Z.of_nat]. rewrite Z.mul_0_l, Z.shiftr_0_r. reflexivity.
  - exists (getOffset (Z.shiftr page (Z.of_nat (S n) * OFFSET_WIDTH)) :: q).
    change (pathOf (S (S n)) page)
      with (getOffset (Z.shiftr page (Z.of_nat (S n) * OFFSET_WIDTH)) :: pathOf (S n) page).
    rewrite IH. reflexivity.
Qed.

(** ** The translator *)

(** The table is a tree over the frames in use, all of them linked. *)
Definition Inv (pm : PM) : Prop := exists k, Tree (ram pm) k /\ Linked (ram pm) k 0.

(** No mapped page has a copy in backing storage. *)
Definition NoStale (pm : PM) : Prop :=
  forall p f, vpath p -> plen p = TABLES_DEPTH -> walk (ram pm) 0 p = Some f ->
    swap pm (pageOf 0 p) = None.

Lemma translate_spec pm0 va :
  Inv pm0 -> 0 <= va < VIRTUAL_MEMORY_SIZE ->
  let target := pathOfAddress va in
  let page := Z.shiftr va OFFSET_WIDTH in
  let f := fst (translateVirtualAdd pm0 va) in
  let pm := snd (translateVirtualAdd pm0 va) in
  (exists k new, Tree (ram pm) k /\ Linked (ram pm) k 0 /\
     maxUsed (treeLinks (ram pm0)) <= k /\
     calls pm = new ++ calls pm0 /\ Forall (below k) new) /\
  1 <= f < NUM_FRAMES /\ walk (ram pm) 0 target = Some f /\
  DataRel pm0 pm target /\
  (RESTORE_MOVES = true -> swap pm page = None) /\
  (forall off, 0 <= off < PAGE_SIZE ->
     ram pm (f * PAGE_SIZE + off) =
     match swap pm0 page with
     | Some c => c off
     | None => match walk (ram pm0) 0 target with
               | Some x => ram pm0 (x * PAGE_SIZE + off)
               | None => 0
               end
     end) /\
  f = w_add1 (translateLoop va (Z.to_nat TABLES_DEPTH) (mkWalk pm0 0 0)).
Proof.
  intros (k0 & T0 & L0) Hva target page f pm.
  pose proof (LoopInv_loop pm0 va _ _ (LoopInv_start pm0 va k0 T0 L0)) as LI.
  unfold f, pm, translateVirtualAdd.
  set (w := translateLoop va (Z.to_nat TABLES_DEPTH) (mkWalk pm0 0 0)) in *.
  destruct LI as (k & done & T & L & Hmono0 & (new0 & Enew0 & Fnew0) & Hd & Ld & Et & Wd & DR &
                  Sw & Hmap & Hun & Hcf).
  fold target in Et, DR, Sw, Hmap, Hun. cbn [pathOf] in Et. rewrite app_nil_r in Et. subst done.
  assert (Epage : pageOf 0 target = page) by (apply pageOf_pathOfAddress; assumption).
  rewrite Epage in Sw.
  assert (Htl : plen target = TABLES_DEPTH) by apply pathOfAddress_plen.
  set (pmL := w_pm w) in *. set (fr := w_add1 w) in *.
  assert (Hne : target <> []) by (intros E; rewrite E in Htl; unfold plen in Htl; cbn in Htl; lia).
  pose proof (tree_range _ _ T target fr Hd Hne ltac:(lia) Wd) as Hfr.
  pose proof (tree_used _ _ T) as Hk.
  assert (Hfr' : 0 <= fr < NUM_FRAMES) by lia.
  rewrite (frame_u64 fr Hfr'). cbn [fst snd].
  change (Z.shiftr va OFFSET_WIDTH) with page.
  set (pmR := PMrestore pmL fr page).
  (* the walks are those of the state after the loop *)
  assert (Hreach : forall p, vpath p -> plen p < TABLES_DEPTH -> walk (ram pmL) 0 p <> Some fr).
  { intros p Hp Lp W. assert (p = target) by (apply (tree_inj _ _ T p target fr); auto; lia).
    subst p. lia. }
  assert (WR : forall p, vpath p -> plen p <= TABLES_DEPTH ->
            walk (ram pmR) 0 p = walk (ram pmL) 0 p).
  { apply (walk_frame_irrelevant (ram pmL) (ram pmR) k fr T Hfr' Hreach).
    intros a Ha. unfold pmR. now apply PMrestore_outside. }
  (* the frame read back is the frame the walk ended in *)
  destruct (Hcf ltac:(lia)) as (q & j & Eq & Wq).
  destruct (pathOf_last (Z.to_nat TABLES_DEPTH - 1) page) as [q' Eq'].
  replace (S (Z.to_nat TABLES_DEPTH - 1)) with (Z.to_nat TABLES_DEPTH) in Eq' by lia.
  change (pathOf (Z.to_nat TABLES_DEPTH) page) with target in Eq'. rewrite Eq in Eq'.
  apply app_inj_tail in Eq'. destruct Eq' as [<- ->].
  assert (Hvq : vpath q) by (rewrite Eq in Hd; apply vpath_app in Hd; tauto).
  assert (Lq : plen q < TABLES_DEPTH) by (rewrite Eq, snoc_plen in Htl; lia).
  pose proof (tree_frame _ _ _ _ T Hvq ltac:(lia) Wq) as Hcf'.
  assert (Hoff : 0 <= getOffset page < PAGE_SIZE) by (apply getOffset_range; nia).
  assert (Hentry : ram pmL (paddr (w_currFrame w) (getOffset page)) = fr).
  { rewrite Eq, walk_snoc, Wq in Wd.
    destruct (ram pmL (paddr (w_currFrame w) (getOffset page)) =? 0); congruence. }
  assert (Hread : PMread pmR (paddr (w_currFrame w) (getOffset page)) = fr).
  { unfold PMread, pmR. rewrite PMrestore_outside; [exact Hentry|].
    rewrite paddr_small by assumption.
    assert (w_currFrame w <> fr) by (intros E; apply (Hreach q); auto; congruence).
    nia. }
  rewrite Hread.
  split; [|split; [lia|split; [|split; [|split; [|split; [|reflexivity]]]]]].
  - exists k, (EvRestore fr page :: new0).
    split; [|split; [|split; [exact Hmono0|split]]].
    + apply (Tree_ext (ram pmL)); auto. intros x i Hx Hi.
      unfold pmR. rewrite PMrestore_outside by nia. apply (tree_unused _ _ T); assumption.
    + apply (Linked_ext (ram pmL)); auto.
    + unfold pmR. rewrite PMrestore_calls. fold pmL in Enew0. now rewrite Enew0.
    + constructor; [cbn [below]; lia | assumption].
  - rewrite WR by (auto; lia). exact Wd.
  - apply (DataRel_trans pm0 pmL pmR target DR). split.
    + intros p f' Hp Lp Hnp W. rewrite WR in W by (auto; lia).
      split; [exact W|]. split.
      * unfold pmR. apply PMrestore_swap_other. rewrite <- Epage.
        intros E. apply Hnp. apply pageOf_inj; auto.
      * intros off Ho. unfold pmR. apply PMrestore_outside.
        assert (f' <> fr).
        { intros ->. apply Hnp. apply (tree_inj _ _ T p target fr); auto; lia. }
        nia.
    + intros p Hp Lp Hnp W. rewrite WR in W by (auto; lia). left. split; [exact W|].
      unfold pmR. apply PMrestore_swap_other. rewrite <- Epage.
      intros E. apply Hnp. apply pageOf_inj; auto.
  - intros HM. unfold pmR. now apply PMrestore_swap_moved.
  - intros off Ho. unfold pmR. rewrite PMrestore_inside by assumption. rewrite Sw.
    destruct (swap pm0 page) as [c|]; [reflexivity|].
    destruct (walk (ram pm0) 0 target) as [x|] eqn:E0.
    + pose proof (Hmap x eq_refl) as Epm. fold pmL in Epm. rewrite Epm in *.
      assert (x = fr) by congruence. now subst x.
    + destruct (Hun eq_refl) as [_ U]. now apply U.
Qed.

(** ** Reachable states *)

Lemma loopPrefix_all va level : forall w,
  loopPrefix va level level w = translateLoop va level w.
Proof. induction level as [|level IH]; intros w; [reflexivity | apply IH]. Qed.

Lemma LoopInv_prefix pm0 va n : forall level w,
  (n <= level)%nat -> LoopInv pm0 va level w ->
  LoopInv pm0 va (level - n) (loopPrefix va level n w).
Proof.
  induction n as [|n IH]; intros level w Hn H.
  - rewrite Nat.sub_0_r. destruct level; exact H.
  - destruct level as [|level]; [lia|]. cbn [loopPrefix].
    replace (S level - S n)%nat with (level - n)%nat by lia.
    apply IH; [lia|]. now apply LoopInv_step.
Qed.

Lemma Inv_init : Inv (VMinitialize PMinit).
Proof.
  assert (Hz : forall a, ram (VMinitialize PMinit) a = 0).
  { intros a. unfold VMinitialize. rewrite clearFrame_ram. now destruct (existsb _ indices). }
  assert (Hw : forall p f, walk (ram (VMinitialize PMinit)) 0 p = Some f -> p = [] /\ f = 0).
  { intros [|i p] f W; cbn [walk] in W.
    - inversion W. auto.
    - rewrite Hz in W. discriminate. }
  exists 0. split.
  - constructor.
    + intros p f _ Hne _ W. apply Hw in W. tauto.
    + intros p q f _ _ _ _ Wp Wq. apply Hw in Wp. apply Hw in Wq. destruct Wp, Wq. congruence.
    + intros. apply Hz.
    + lia.
  - intros f Hf. lia.
Qed.

Lemma NoStale_init : NoStale (VMinitialize PMinit).
Proof.
  intros p f _ _ _. unfold VMinitialize. rewrite clearFrame_swap. reflexivity.
Qed.

(** Writing a word of a data frame changes no walk. *)
Lemma data_write_spec pm k p f off value :
  Tree (ram pm) k -> Linked (ram pm) k 0 ->
  vpath p -> plen p = TABLES_DEPTH -> walk (ram pm) 0 p = Some f ->
  0 <= off < PAGE_SIZE ->
  let pm' := PMwrite pm (paddr f off) value in
  Tree (ram pm') k /\ Linked (ram pm') k 0 /\
  (forall q, vpath q -> plen q <= TABLES_DEPTH -> walk (ram pm') 0 q = walk (ram pm) 0 q) /\
  (forall a, a <> f * PAGE_SIZE + off -> ram pm' a = ram pm a) /\
  ram pm' (f * PAGE_SIZE + off) = value /\
  swap pm' = swap pm.
Proof.
  intros T L Hp Lp W Hoff pm'.
  assert (Hne : p <> []) by (intros ->; unfold plen in Lp; cbn in Lp; lia).
  pose proof (tree_range _ _ T p f Hp Hne ltac:(lia) W) as Hf.
  pose proof (tree_used _ _ T) as Hk.
  assert (Ha : paddr f off = f * PAGE_SIZE + off) by (apply paddr_small; lia).
  assert (Hr : forall a, a <> f * PAGE_SIZE + off -> ram pm' a = ram pm a).
  { intros a Hne'. unfold pm'. cbn [PMwrite ram]. rewrite Ha.
    destruct (Z.eqb_spec a (f * PAGE_SIZE + off)); [contradiction | reflexivity]. }
  assert (WS : forall q, vpath q -> plen q <= TABLES_DEPTH ->
            walk (ram pm') 0 q = walk (ram pm) 0 q).
  { apply (walk_frame_irrelevant (ram pm) (ram pm') k f T ltac:(lia)).
    - intros q Hq Lq Wq. assert (q = p) by (apply (tree_inj _ _ T q p f); auto; lia).
      subst q. lia.
    - intros a Hna. apply Hr. lia. }
  split; [|split; [|split; [exact WS | split; [exact Hr | split; [|reflexivity]]]]].
  - apply (Tree_ext (ram pm)); auto. intros x i Hx Hi. rewrite Hr by nia.
    apply (tree_unused _ _ T); assumption.
  - apply (Linked_ext (ram pm)); auto.
  - unfold pm'. cbn [PMwrite ram]. rewrite Ha. now rewrite Z.eqb_refl.
Qed.

Lemma VMread_in_range pm va :
  va < VIRTUAL_MEMORY_SIZE ->
  VMread pm va =
  (1, Some (PMread (snd (translateVirtualAdd pm va))
                   (paddr (fst (translateVirtualAdd pm va)) (getOffset va))),
   snd (translateVirtualAdd pm va)).
Proof.
  intros H. unfold VMread.
  destruct (Z.gtb_spec va (VIRTUAL_MEMORY_SIZE - 1)); [lia | reflexivity].
Qed.

Lemma VMwrite_in_range pm va value :
  va < VIRTUAL_MEMORY_SIZE ->
  VMwrite pm va value =
  (1, PMwrite (snd (translateVirtualAdd pm va))
              (paddr (fst (translateVirtualAdd pm va)) (getOffset va)) value).
Proof.
  intros H. unfold VMwrite.
  destruct (Z.gtb_spec va (VIRTUAL_MEMORY_SIZE - 1)); [lia | reflexivity].
Qed.

Lemma VM_out_of_range pm va value :
  VIRTUAL_MEMORY_SIZE <= va -> snd (VMread pm va) = pm /\ snd (VMwrite pm va value) = pm.
Proof.
  intros H. unfold VMread, VMwrite.
  destruct (Z.gtb_spec va (VIRTUAL_MEMORY_SIZE - 1)); [split; reflexivity | lia].
Qed.

Lemma Inv_VMread pm va : Inv pm -> 0 <= va -> Inv (snd (VMread pm va)).
Proof.
  intros H Hva. destruct (Z_lt_dec va VIRTUAL_MEMORY_SIZE) as [Hlt|Hge].
  - rewrite VMread_in_range by assumption. cbn [snd].
    destruct (translate_spec pm va H ltac:(lia)) as ((k & new & T & L & _) & _).
    exists k. split; assumption.
  - destruct (VM_out_of_range pm va 0 ltac:(lia)) as [-> _]. exact H.
Qed.

Lemma Inv_VMwrite pm va value : Inv pm -> 0 <= va -> Inv (snd (VMwrite pm va value)).
Proof.
  intros H Hva. destruct (Z_lt_dec va VIRTUAL_MEMORY_SIZE) as [Hlt|Hge].
  - rewrite VMwrite_in_range by assumption. cbn [snd].
    destruct (translate_spec pm va H ltac:(lia)) as ((k & new & T & L & _) & Hf & W & _).
    destruct (data_write_spec _ k _ _ (getOffset va) value T L
                (pathOfAddress_vpath va) (pathOfAddress_plen va) W
                ltac:(apply getOffset_range; nia)) as (T' & L' & _).
    exists k. split; assumption.
  - destruct (VM_out_of_range pm va value ltac:(lia)) as [_ ->]. exact H.
Qed.

Lemma Reachable_Inv pm : Reachable pm -> Inv pm.
Proof.
  induction 1 as [|pm va R IH Hva|pm va value R IH Hva].
  - apply Inv_init.
  - apply Inv_VMread; [assumption | lia].
  - apply Inv_VMwrite; [assumption | lia].
Qed.

(** ** The stored data *)

Lemma address_split a : a = Z.shiftr a OFFSET_WIDTH * PAGE_SIZE + getOffset a.
Proof.
  rewrite getOffset_is_mod, Z.shiftr_div_pow2 by lia. fold PAGE_SIZE.
  pose proof page_size_pos. rewrite Z.mul_comm. apply Z.div_mod. lia.
Qed.

Lemma pathOfAddress_page a b :
  0 <= a < VIRTUAL_MEMORY_SIZE -> 0 <= b < VIRTUAL_MEMORY_SIZE ->
  pathOfAddress a = pathOfAddress b -> Z.shiftr a OFFSET_WIDTH = Z.shiftr b OFFSET_WIDTH.
Proof.
  intros Ha Hb E. rewrite <- (pageOf_pathOfAddress a Ha), <- (pageOf_pathOfAddress b Hb).
  now rewrite E.
Qed.

Lemma stored_DataRel pm0 pm target a :
  DataRel pm0 pm target -> 0 <= a < VIRTUAL_MEMORY_SIZE -> pathOfAddress a <> target ->
  stored pm a = stored pm0 a.
Proof.
  intros [P4 P5] Ha Hne. unfold stored.
  pose proof (pathOfAddress_vpath a) as Hv. pose proof (pathOfAddress_plen a) as Hl.
  pose proof (getOffset_range a ltac:(nia)) as Ho.
  pose proof (pageOf_pathOfAddress a Ha) as Ep.
  destruct (walk (ram pm) 0 (pathOfAddress a)) as [f'|] eqn:W.
  - destruct (P4 _ _ Hv Hl Hne W) as (W0 & _ & D0). rewrite W0. now apply D0.
  - destruct (P5 _ Hv Hl Hne W) as [[W0 S0]|(fd & c & W0 & S0 & D0)].
    + rewrite W0. rewrite Ep in S0. now rewrite S0.
    + rewrite W0. rewrite Ep in S0. rewrite S0. now apply D0.
Qed.

Lemma stored_translate_other pm0 va a :
  Inv pm0 -> 0 <= va < VIRTUAL_MEMORY_SIZE -> 0 <= a < VIRTUAL_MEMORY_SIZE ->
  Z.shiftr a OFFSET_WIDTH <> Z.shiftr va OFFSET_WIDTH ->
  stored (snd (translateVirtualAdd pm0 va)) a = stored pm0 a.
Proof.
  intros H Hva Ha Hne.
  destruct (translate_spec pm0 va H Hva) as (_ & _ & _ & DR & _).
  apply (stored_DataRel _ _ _ _ DR Ha).
  intros E. apply Hne. now apply pathOfAddress_page.
Qed.

Lemma stored_translate_same pm0 va a :
  Inv pm0 -> NoStale pm0 ->
  0 <= va < VIRTUAL_MEMORY_SIZE -> 0 <= a < VIRTUAL_MEMORY_SIZE ->
  Z.shiftr a OFFSET_WIDTH = Z.shiftr va OFFSET_WIDTH ->
  stored (snd (translateVirtualAdd pm0 va)) a = stored pm0 a.
Proof.
  intros H NS Hva Ha E.
  destruct (translate_spec pm0 va H Hva) as (_ & _ & W & _ & _ & D & _).
  assert (Ep : pathOfAddress a = pathOfAddress va) by (unfold pathOfAddress; now rewrite E).
  pose proof (getOffset_range a ltac:(nia)) as Ho.
  unfold stored. rewrite Ep, W, E. rewrite (D _ Ho).
  destruct (walk (ram pm0) 0 (pathOfAddress va)) as [x|] eqn:W0.
  - rewrite <- (pageOf_pathOfAddress va Hva).
    rewrite (NS _ _ (pathOfAddress_vpath va) (pathOfAddress_plen va) W0). reflexivity.
  - reflexivity.
Qed.

Lemma NoStale_translate pm0 va :
  RESTORE_MOVES = true -> Inv pm0 -> NoStale pm0 -> 0 <= va < VIRTUAL_MEMORY_SIZE ->
  NoStale (snd (translateVirtualAdd pm0 va)).
Proof.
  intros HM H NS Hva.
  destruct (translate_spec pm0 va H Hva) as (_ & _ & W & [P4 _] & S & _).
  intros p f Hp Lp Wp.
  destruct (list_eq_dec Z.eq_dec p (pathOfAddress va)) as [->|Hne].
  - rewrite (pageOf_pathOfAddress va Hva). now apply S.
  - destruct (P4 p f Hp Lp Hne Wp) as (W0 & S0 & _). rewrite S0. now apply (NS p f).
Qed.

(** The word [VMread] returns is the stored word of the address. *)
Lemma VMread_stored pm va :
  Inv pm -> 0 <= va < VIRTUAL_MEMORY_SIZE ->
  fst (VMread pm va) = (1, Some (stored (snd (VMread pm va)) va)).
Proof.
  intros H Hva. rewrite VMread_in_range by lia. cbn [fst snd]. f_equal. f_equal.
  destruct (translate_spec pm va H Hva) as (_ & Hf & W & _).
  unfold stored, PMread. rewrite W. f_equal. apply paddr_small; [lia|].
  apply getOffset_range. nia.
Qed.

Lemma stored_VMread pm b a :
  Inv pm -> 0 <= b < 2 ^ 64 -> 0 <= a < VIRTUAL_MEMORY_SIZE ->
  Z.shiftr a OFFSET_WIDTH <> Z.shiftr b OFFSET_WIDTH \/ NoStale pm ->
  stored (snd (VMread pm b)) a = stored pm a.
Proof.
  intros H Hb Ha Hc. destruct (Z_lt_dec b VIRTUAL_MEMORY_SIZE) as [Hlt|Hge].
  - rewrite VMread_in_range by assumption. cbn [snd].
    destruct (Z.eq_dec (Z.shiftr a OFFSET_WIDTH) (Z.shiftr b OFFSET_WIDTH)) as [E|E].
    + destruct Hc as [Hc|Hc]; [contradiction|]. apply stored_translate_same; auto; lia.
    + apply stored_translate_other; auto; lia.
  - destruct (VM_out_of_range pm b 0 ltac:(lia)) as [-> _]. reflexivity.
Qed.

Lemma stored_VMwrite_other pm b value a :
  Inv pm -> 0 <= b < 2 ^ 64 -> 0 <= a < VIRTUAL_MEMORY_SIZE -> a <> b ->
  Z.shiftr a OFFSET_WIDTH <> Z.shiftr b OFFSET_WIDTH \/ NoStale pm ->
  stored (snd (VMwrite pm b value)) a = stored pm a.
Proof.
  intros H Hb Ha Hab Hc. destruct (Z_lt_dec b VIRTUAL_MEMORY_SIZE) as [Hlt|Hge].
  - rewrite VMwrite_in_range by assumption. cbn [snd].
    assert (Hb' : 0 <= b < VIRTUAL_MEMORY_SIZE) by lia.
    destruct (translate_spec pm b H Hb') as ((k & new & T & L & _) & Hf & W & _).
    set (pm1 := snd (translateVirtualAdd pm b)) in *.
    set (f := fst (translateVirtualAdd pm b)) in *.
    pose proof (getOffset_range b ltac:(nia)) as Hob.
    pose proof (getOffset_range a ltac:(nia)) as Hoa.
    destruct (data_write_spec pm1 k _ f (getOffset b) value T L
                (pathOfAddress_vpath b) (pathOfAddress_plen b) W Hob)
      as (_ & _ & WS & Hr & _ & Hs).
    assert (E1 : stored (PMwrite pm1 (paddr f (getOffset b)) value) a = stored pm1 a).
    { unfold stored. rewrite WS by (try apply pathOfAddress_vpath; rewrite pathOfAddress_plen; lia).
      rewrite Hs.
      destruct (walk (ram pm1) 0 (pathOfAddress a)) as [f'|] eqn:Wa; [|reflexivity].
      apply Hr. intros E. apply frame_addr_inj in E; auto. destruct E as [-> Eo].
      apply Hab.
      assert (Ep : pathOfAddress a = pathOfAddress b).
      { apply (tree_inj _ _ T _ _ f); auto using pathOfAddress_vpath;
          rewrite pathOfAddress_plen; lia. }
      apply pathOfAddress_page in Ep; auto.
      rewrite (address_split a), (address_split b). congruence. }
    rewrite E1. unfold pm1.
    destruct (Z.eq_dec (Z.shiftr a OFFSET_WIDTH) (Z.shiftr b OFFSET_WIDTH)) as [E|E].
    + destruct Hc as [Hc|Hc]; [contradiction|]. apply stored_translate_same; auto.
    + apply stored_translate_other; auto.
  - destruct (VM_out_of_range pm b value ltac:(lia)) as [_ ->]. reflexivity.
Qed.

Lemma stored_VMwrite_same pm va value :
  Inv pm -> 0 <= va < VIRTUAL_MEMORY_SIZE ->
  stored (snd (VMwrite pm va value)) va = value.
Proof.
  intros H Hva. rewrite VMwrite_in_range by lia. cbn [snd].
  destruct (translate_spec pm va H Hva) as ((k & new & T & L & _) & Hf & W & _).
  pose proof (getOffset_range va ltac:(nia)) as Ho.
  destruct (data_write_spec _ k _ _ (getOffset va) value T L
              (pathOfAddress_vpath va) (pathOfAddress_plen va) W Ho)
    as (_ & _ & WS & _ & Hv & _).
  unfold stored. rewrite WS by (try apply pathOfAddress_vpath; rewrite pathOfAddress_plen; lia).
  rewrite W. exact Hv.
Qed.

Lemma NoStale_VMread pm va :
  RESTORE_MOVES = true -> Inv pm -> NoStale pm -> 0 <= va -> NoStale (snd (VMread pm va)).
Proof.
  intros HM H NS Hva. destruct (Z_lt_dec va VIRTUAL_MEMORY_SIZE) as [Hlt|Hge].
  - rewrite VMread_in_range by assumption. cbn [snd]. apply NoStale_translate; auto; lia.
  - destruct (VM_out_of_range pm va 0 ltac:(lia)) as [-> _]. exact NS.
Qed.

Lemma NoStale_VMwrite pm va value :
  RESTORE_MOVES = true -> Inv pm -> NoStale pm -> 0 <= va ->
  NoStale (snd (VMwrite pm va value)).
Proof.
  intros HM H NS Hva. destruct (Z_lt_dec va VIRTUAL_MEMORY_SIZE) as [Hlt|Hge].
  - rewrite VMwrite_in_range by assumption. cbn [snd].
    assert (Hva' : 0 <= va < VIRTUAL_MEMORY_SIZE) by lia.
    pose proof (NoStale_translate pm va HM H NS Hva') as NS1.
    destruct (translate_spec pm va H Hva') as ((k & new & T & L & _) & Hf & W & _).
    pose proof (getOffset_range va ltac:(nia)) as Ho.
    destruct (data_write_spec _ k _ _ (getOffset va) value T L
                (pathOfAddress_vpath va) (pathOfAddress_plen va) W Ho)
      as (_ & _ & WS & _ & _ & Hs).
    intros p f Hp Lp Wp. rewrite Hs. rewrite WS in Wp by (auto; lia). now apply (NS1 p f).
  - destruct (VM_out_of_range pm va value ltac:(lia)) as [_ ->]. exact NS.
Qed.

Lemma Reachable_NoStale pm : RESTORE_MOVES = true -> Reachable pm -> NoStale pm.
Proof.
  intros HM. induction 1 as [|pm va R IH Hva|pm va value R IH Hva].
  - apply NoStale_init.
  - apply NoStale_VMread; auto; [now apply Reachable_Inv | lia].
  - apply NoStale_VMwrite; auto; [now apply Reachable_Inv | lia].
Qed.

(** ** Round trip and distinctness *)

Lemma addresses_fit : VIRTUAL_MEMORY_SIZE < 2 ^ 64.
Proof. unfold VIRTUAL_MEMORY_SIZE. apply Z.pow_lt_mono_r; lia. Qed.

Lemma run_harmless a value ops : forall pm,
  RESTORE_MOVES = true -> Reachable pm -> 0 <= a < VIRTUAL_MEMORY_SIZE ->
  stored pm a = value -> Forall (harmless a) ops ->
  Reachable (run ops pm) /\ stored (run ops pm) a = value.
Proof.
  induction ops as [|op ops IH]; intros pm HM R Ha Hs Hops; [split; assumption|].
  inversion Hops as [|? ? Hop Hrest]; subst.
  cbn [run fold_left]. fold (run ops (runOp pm op)).
  pose proof (Reachable_Inv pm R) as HI.
  pose proof (Reachable_NoStale pm HM R) as NS.
  destruct op as [b|b v]; cbn [harmless runOp] in *.
  - apply IH; auto.
    + now constructor.
    + rewrite stored_VMread; auto.
  - destruct Hop as [Hb Hne]. apply IH; auto.
    + now constructor.
    + rewrite stored_VMwrite_other; auto.
Qed.

Lemma run_elsewhere a ops : forall pm,
  Reachable pm -> 0 <= a < VIRTUAL_MEMORY_SIZE -> Forall (elsewhere a) ops ->
  stored (run ops pm) a = stored pm a.
Proof.
  induction ops as [|op ops IH]; intros pm R Ha Hops; [reflexivity|].
  inversion Hops as [|? ? Hop Hrest]; subst.
  cbn [run fold_left]. fold (run ops (runOp pm op)).
  pose proof (Reachable_Inv pm R) as HI.
  destruct op as [b|b v]; cbn [elsewhere runOp] in *; destruct Hop as [Hb Hne].
  - rewrite IH; auto; [|now constructor]. apply stored_VMread; auto.
  - rewrite IH; auto; [|now constructor]. apply stored_VMwrite_other; auto.
    intros ->. contradiction.
Qed.

(** C1 (for a collaborator whose restore takes the page out of backing
    storage): from any reachable state, after [VMwrite a v] and any calls
    that do not write to [a] (reads, and writes to other addresses, whatever
    they evict), [VMread a] returns 1 and the value [v]. *)
Theorem write_then_read (pm : PM) (a v : Z) (ops : list Op) :
  RESTORE_MOVES = true -> Reachable pm -> 0 <= a < VIRTUAL_MEMORY_SIZE ->
  Forall (harmless a) ops ->
  fst (VMwrite pm a v) = 1 /\
  fst (VMread (run ops (snd (VMwrite pm a v))) a) = (1, Some v).
Proof.
  intros HM R Ha Hops. pose proof addresses_fit as H64.
  split; [rewrite VMwrite_in_range by lia; reflexivity|].
  assert (R1 : Reachable (snd (VMwrite pm a v))) by (constructor; [assumption | lia]).
  assert (S1 : stored (snd (VMwrite pm a v)) a = v).
  { apply stored_VMwrite_same; [now apply Reachable_Inv | assumption]. }
  destruct (run_harmless a v ops _ HM R1 Ha S1 Hops) as [R2 S2].
  rewrite VMread_stored by (auto using Reachable_Inv).
  rewrite stored_VMread; auto using Reachable_Inv.
  - now rewrite S2.
  - lia.
  - right. now apply Reachable_NoStale.
Qed.

(** C7: in every reachable state no frame is reached by two paths of the page
    table, so no frame is pointed to by two entries and the same data frame
    never holds two pages; no entry of a table leads back to the table
    itself; a page number has one data frame at most; and a read or a write
    at an address leaves the stored word of every address of another page as
    it was. *)
Theorem pages_distinct (pm : PM) :
  Reachable pm ->
  (forall p q f, vpath p -> vpath q -> plen p <= TABLES_DEPTH -> plen q <= TABLES_DEPTH ->
     walk (ram pm) 0 p = Some f -> walk (ram pm) 0 q = Some f -> p = q) /\
  (forall p f i, vpath p -> plen p < TABLES_DEPTH -> 0 <= i < PAGE_SIZE ->
     walk (ram pm) 0 p = Some f -> walk (ram pm) 0 (p ++ [i]) <> Some f) /\
  (forall a b f, 0 <= a < VIRTUAL_MEMORY_SIZE -> 0 <= b < VIRTUAL_MEMORY_SIZE ->
     walk (ram pm) 0 (pathOfAddress a) = Some f ->
     walk (ram pm) 0 (pathOfAddress b) = Some f ->
     Z.shiftr a OFFSET_WIDTH = Z.shiftr b OFFSET_WIDTH) /\
  (forall a b, Z.shiftr a OFFSET_WIDTH = Z.shiftr b OFFSET_WIDTH ->
     walk (ram pm) 0 (pathOfAddress a) = walk (ram pm) 0 (pathOfAddress b)) /\
  (forall a ops, 0 <= a < VIRTUAL_MEMORY_SIZE -> Forall (elsewhere a) ops ->
     stored (run ops pm) a = stored pm a).
Proof.
  intros R. pose proof (Reachable_Inv pm R) as HI. destruct HI as (k & T & L).
  pose proof addresses_fit as H64.
  split; [|split; [|split; [|split]]].
  - apply (tree_inj _ _ T).
  - intros p f i Hp Lp Hi W W'.
    assert (Hpi : vpath (p ++ [i])).
    { apply vpath_app. split; [assumption|]. constructor; [assumption | constructor]. }
    assert (E : p = p ++ [i]).
    { apply (tree_inj _ _ T p (p ++ [i]) f); auto; [lia | rewrite snoc_plen; lia]. }
    apply (f_equal (@length Z)) in E. rewrite length_app in E. cbn in E. lia.
  - intros a b f Ha Hb Wa Wb. apply pathOfAddress_page; auto.
    apply (tree_inj _ _ T _ _ f); auto using pathOfAddress_vpath;
      rewrite pathOfAddress_plen; lia.
  - intros a b E. unfold pathOfAddress. now rewrite E.
  - intros a ops Ha Hops. now apply run_elsewhere.
Qed.

(** ** The history of calls *)

(** The tree invariant together with the history: every call made so far
    stayed within the frames in use. *)
Definition History (pm : PM) : Prop :=
  exists k, Tree (ram pm) k /\ Linked (ram pm) k 0 /\ Forall (below k) (calls pm).

Lemma History_init : History (VMinitialize PMinit).
Proof.
  destruct Inv_init as (k & T & L).
  assert (Hk : k = 0).
  { rewrite <- (maxUsed_tree _ _ T L). unfold maxUsed.
    assert (E : treeLinks (ram (VMinitialize PMinit)) = []).
    { unfold treeLinks. apply frameIsEmpty_links. unfold frameIsEmpty.
      apply forallb_forall. intros i _. apply Z.eqb_eq.
      unfold VMinitialize. rewrite clearFrame_ram. now destruct (existsb _ indices). }
    now rewrite E. }
  subst k. exists 0. split; [exact T|]. split; [exact L|].
  unfold VMinitialize. destruct (clearFrame_calls PMinit 0) as (new & E & F).
  rewrite E. cbn [PMinit calls]. rewrite app_nil_r.
  eapply Forall_impl; [|exact F]. intros e (i & Hi & ->). cbn [below].
  rewrite u64_small by nia. nia.
Qed.

Lemma History_translate pm va :
  History pm -> 0 <= va < VIRTUAL_MEMORY_SIZE ->
  exists k, Tree (ram (snd (translateVirtualAdd pm va))) k /\
            Linked (ram (snd (translateVirtualAdd pm va))) k 0 /\
            Forall (below k) (calls (snd (translateVirtualAdd pm va))) /\
            walk (ram (snd (translateVirtualAdd pm va))) 0 (pathOfAddress va) =
              Some (fst (translateVirtualAdd pm va)).
Proof.
  intros (k0 & T0 & L0 & F0) Hva.
  destruct (translate_spec pm va (ex_intro _ k0 (conj T0 L0)) Hva)
    as ((k & new & T & L & Hm & E & F) & _ & W & _).
  rewrite (maxUsed_tree _ _ T0 L0) in Hm.
  exists k. split; [exact T|]. split; [exact L|]. split; [|exact W].
  rewrite E. apply Forall_app. split; [exact F|].
  eapply Forall_impl; [|exact F0]. intros e. now apply below_mono.
Qed.

Lemma Reachable_History pm : Reachable pm -> History pm.
Proof.
  induction 1 as [|pm va R IH Hva|pm va value R IH Hva].
  - apply History_init.
  - destruct (Z_lt_dec va VIRTUAL_MEMORY_SIZE) as [Hlt|Hge].
    + rewrite VMread_in_range by assumption. cbn [snd].
      destruct (History_translate pm va IH ltac:(lia)) as (k & T & L & F & _).
      exists k. auto.
    + destruct (VM_out_of_range pm va 0 ltac:(lia)) as [-> _]. exact IH.
  - destruct (Z_lt_dec va VIRTUAL_MEMORY_SIZE) as [Hlt|Hge].
    + rewrite VMwrite_in_range by assumption. cbn [snd].
      destruct (History_translate pm va IH ltac:(lia)) as (k & T & L & F & W).
      pose proof (getOffset_range va ltac:(nia)) as Ho.
      destruct (data_write_spec _ k _ _ (getOffset va) value T L
                  (pathOfAddress_vpath va) (pathOfAddress_plen va) W Ho) as (T' & L' & _).
      exists k. split; [exact T'|]. split; [exact L'|].
      cbn [PMwrite calls]. constructor; [|exact F].
      cbn [below].
      pose proof (tree_frame_le _ _ _ _ T (pathOfAddress_vpath va)
                    ltac:(rewrite pathOfAddress_plen; lia) W) as Hf.
      pose proof (tree_used _ _ T).
      rewrite paddr_small by lia. nia.
    + destruct (VM_out_of_range pm va value ltac:(lia)) as [_ ->]. exact IH.
Qed.

(** Where [findNewFrame] is called, the table is a tree with every frame in
    use linked, the protected frame is a table of the tree, and the history
    stayed within the frames in use. *)
Lemma AllocSite_context pm va last :
  AllocSite pm va last ->
  exists k pc, Tree (ram pm) k /\ Linked (ram pm) k 0 /\ vpath pc /\
               plen pc < TABLES_DEPTH /\ walk (ram pm) 0 pc = Some last /\
               Forall (below k) (calls pm).
Proof.
  intros (pm0 & n & R & Hva & Hn & Hw). cbn zeta in Hw. destruct Hw as (-> & -> & _).
  destruct (Reachable_History pm0 R) as (k0 & T0 & L0 & F0).
  assert (Hle : (n <= Z.to_nat TABLES_DEPTH)%nat) by lia.
  pose proof (LoopInv_prefix pm0 va n _ _ Hle (LoopInv_start pm0 va k0 T0 L0)) as LI.
  destruct LI as (k & done & T & L & Hm & (new & E & F) & Hd & Ld & _ & Wd & _).
  rewrite (maxUsed_tree _ _ T0 L0) in Hm.
  exists k, done. repeat (split; [first [assumption | lia]|]).
  rewrite E. apply Forall_app. split; [exact F|].
  eapply Forall_impl; [|exact F0]. intros e. now apply below_mono.
Qed.

(** C8: [VMinitialize] zeroes frame 0; afterwards no call of [findNewFrame]
    returns frame 0, no entry of the tree points to frame 0 (so no entry that
    points to it is ever zeroed), and frame 0 is never evicted nor restored
    into. *)
Theorem root_frame_stays :
  (forall pm i, 0 <= i < PAGE_SIZE -> ram (VMinitialize pm) (paddr 0 i) = 0) /\
  (forall pm va last, AllocSite pm va last ->
     1 <= fst (findNewFrame pm va last) < NUM_FRAMES) /\
  (forall pm, Reachable pm ->
     (forall p, p <> [] -> walk (ram pm) 0 p <> Some 0) /\
     (forall f page, In (EvEvict f page) (calls pm) -> f <> 0) /\
     (forall f page, In (EvRestore f page) (calls pm) -> f <> 0)).
Proof.
  split; [|split].
  - intros pm i Hi. unfold VMinitialize. rewrite paddr_small by lia.
    apply clearFrame_inside; lia.
  - intros pm va last Site.
    destruct (AllocSite_context pm va last Site) as (k & pc & T & L & Hpc & Lpc & Wpc & _).
    destruct (findNewFrame_post pm k pc last T L Hpc Lpc Wpc va)
      as ((k' & T' & _ & _ & Hf & _) & _).
    pose proof (tree_used _ _ T'). lia.
  - intros pm R. split; [|split].
    + intros p Hp W. now apply (walk_nonzero (ram pm) p 0 0 Hp W).
    + intros f page Hin. destruct (Reachable_History pm R) as (k & _ & _ & F).
      rewrite Forall_forall in F. specialize (F _ Hin). cbn [below] in F. lia.
    + intros f page Hin. destruct (Reachable_History pm R) as (k & _ & _ & F).
      rewrite Forall_forall in F. specialize (F _ Hin). cbn [below] in F. lia.
Qed.

(** C6: the frame a call of [findNewFrame] made by the translator returns is
    never the protected frame: not as the empty frame of the traversal, and
    not as its eviction candidate, which in the eviction tier is a frame
    other than 0. *)
Theorem protected_frame_kept (pm : PM) (va last : Z) :
  AllocSite pm va last ->
  fst (findNewFrame pm va last) <> last /\
  (emptyFrame (searchTree (ram pm) va last) <> 0 ->
     emptyFrame (searchTree (ram pm) va last) <> last) /\
  (emptyFrame (searchTree (ram pm) va last) = 0 ->
   NUM_FRAMES <= maxFrame (searchTree (ram pm) va last) + 1 ->
     maxDistFrame (searchTree (ram pm) va last) <> last /\
     maxDistFrame (searchTree (ram pm) va last) <> 0).
Proof.
  intros Site.
  destruct (AllocSite_context pm va last Site) as (k & pc & T & L & Hpc & Lpc & Wpc & _).
  destruct (findNewFrame_post pm k pc last T L Hpc Lpc Wpc va)
    as ((k' & _ & _ & [_ Hun] & Hf & _) & Wc & _).
  assert (Hne : fst (findNewFrame pm va last) <> last).
  { intros E. apply (Hun pc Hpc ltac:(lia)). now rewrite E. }
  split; [exact Hne|]. unfold findNewFrame in Hne, Hf. split.
  - intros He. destruct (Z.eqb_spec (emptyFrame (searchTree (ram pm) va last)) 0);
      [contradiction|]. exact Hne.
  - intros He Hfull. rewrite He in Hne, Hf. cbn [Z.eqb negb] in Hne, Hf.
    destruct (Z.ltb_spec (maxFrame (searchTree (ram pm) va last) + 1) NUM_FRAMES); [lia|].
    cbn [fst] in Hne, Hf. split; [exact Hne | lia].
Qed.

(** ** The choice of the frame to evict *)

(** [farthest] returns the first of the leaf links at maximal distance. *)
Lemma farthest_split page : forall ls best w,
  farthest page best ls = Some w ->
  (best = Some w /\
   forall l, In l ls -> l_leaf l = true ->
     getCyclicDist page (l_page l) <= getCyclicDist page (l_page w)) \/
  (exists before after,
     ls = before ++ w :: after /\ l_leaf w = true /\
     (forall b, best = Some b -> getCyclicDist page (l_page b) < getCyclicDist page (l_page w)) /\
     (forall l, In l before -> l_leaf l = true ->
        getCyclicDist page (l_page l) < getCyclicDist page (l_page w)) /\
     (forall l, In l after -> l_leaf l = true ->
        getCyclicDist page (l_page l) <= getCyclicDist page (l_page w))).
Proof.
  induction ls as [|l ls IH]; intros best w H; cbn [farthest] in H.
  - left. split; [assumption | intros l []].
  - destruct (l_leaf l) eqn:El.
    + destruct best as [b|].
      * destruct (Z.gtb_spec (getCyclicDist page (l_page l)) (getCyclicDist page (l_page b)))
          as [Hgt|Hle].
        -- destruct (IH _ _ H) as [[E Hall]|(bf & af & E & Hw & Hb & Hbef & Haft)].
           ++ inversion E; subst w. right. exists [], ls.
              split; [reflexivity|]. split; [assumption|].
              split; [intros b0 Eb; inversion Eb; subst; lia|].
              split; [intros l' []|assumption].
           ++ right. exists (l :: bf), af. split; [now rewrite E|]. split; [assumption|].
              pose proof (Hb l eq_refl) as Hlw.
              split; [intros b0 Eb; inversion Eb; subst; lia|].
              split; [|assumption].
              intros l' [<-|Hin] Hl'; [assumption | now apply Hbef].
        -- destruct (IH _ _ H) as [[E Hall]|(bf & af & E & Hw & Hb & Hbef & Haft)].
           ++ left. split; [assumption|]. inversion E; subst w.
              intros l' [<-|Hin] Hl'; [lia | now apply Hall].
           ++ right. exists (l :: bf), af. split; [now rewrite E|]. split; [assumption|].
              pose proof (Hb b eq_refl) as Hbw.
              split; [assumption|]. split; [|assumption].
              intros l' [<-|Hin] Hl'; [lia | now apply Hbef].
      * destruct (IH _ _ H) as [[E Hall]|(bf & af & E & Hw & Hb & Hbef & Haft)].
        -- inversion E; subst w. right. exists [], ls.
           split; [reflexivity|]. split; [assumption|].
           split; [intros b0 Eb; discriminate|].
           split; [intros l' []|assumption].
        -- right. exists (l :: bf), af. split; [now rewrite E|]. split; [assumption|].
           split; [intros b0 Eb; discriminate|]. split; [|assumption].
           intros l' [<-|Hin] Hl'; [apply (Hb l eq_refl) | now apply Hbef].
    + destruct (IH _ _ H) as [[E Hall]|(bf & af & E & Hw & Hb & Hbef & Haft)].
      * left. split; [assumption|].
        intros l' [<-|Hin] Hl'; [congruence | now apply Hall].
      * right. exists (l :: bf), af. split; [now rewrite E|]. split; [assumption|].
        split; [assumption|]. split; [|assumption].
        intros l' [<-|Hin] Hl'; [congruence | now apply Hbef].
Qed.

(** The tier taken, read off the out-parameters of the traversal. *)
Lemma searchTree_tier mem va last :
  match find (reusable mem last) (treeLinks mem) with
  | Some l => emptyFrame (searchTree mem va last) <> 0
  | None => emptyFrame (searchTree mem va last) = 0 /\
            maxFrame (searchTree mem va last) = maxUsed (treeLinks mem)
  end.
Proof.
  assert (Hfit : 1 <= TABLES_DEPTH < 2 ^ 64) by nia.
  pose proof (searchTree_spec mem va last Hfit) as S.
  destruct (find (reusable mem last) (treeLinks mem)) as [l|] eqn:Ef.
  - destruct S as [S _]. rewrite S. apply find_some in Ef. destruct Ef as [Ef _].
    unfold treeLinks in Ef. eapply links_frame_nonzero; eauto.
  - rewrite S. rewrite fold_absorb_emptyFrame, fold_absorb_maxFrame. split; reflexivity.
Qed.

Lemma link_entry mem l :
  In l (treeLinks mem) -> mem (l_addr l) = l_frame l.
Proof.
  intros H. apply treeLinks_sound in H.
  destruct H as (q & i & g & _ & _ & Wq & Ea & We & _).
  rewrite walk_snoc, Wq in We. rewrite Ea.
  destruct (mem (paddr g i) =? 0); congruence.
Qed.

Lemma link_page_range mem l : In l (treeLinks mem) -> 0 <= l_page l < NUM_PAGES.
Proof.
  intros Hl.
  destruct (treeLinks_sound mem l Hl) as (q & i & g & Hv & Hlen & _ & _ & _ & Ep & _).
  pose proof (plen_nonneg (q ++ [i])) as Hp.
  destruct (pageOf_closed (q ++ [i]) 0 0 Hv ltac:(lia) ltac:(rewrite Z.pow_0_r; lia) ltac:(lia))
    as [_ B].
  rewrite Ep, NUM_PAGES_pow.
  pose proof (pow_le_pages (plen (q ++ [i])) TABLES_DEPTH ltac:(lia)). lia.
Qed.

(** The eviction tier in the program's own terms: the link taken is the first
    in pre-order among the leaf links for which [getCyclicDist] to the page
    of the address is greatest. *)
Lemma farthest_leaf_evicted (pm : PM) (va last : Z) :
  AllocSite pm va last ->
  emptyFrame (searchTree (ram pm) va last) = 0 ->
  NUM_FRAMES <= maxFrame (searchTree (ram pm) va last) + 1 ->
  exists before w after,
    treeLinks (ram pm) = before ++ w :: after /\ l_leaf w = true /\
    (forall l, In l before -> l_leaf l = true ->
       getCyclicDist (Z.shiftr va OFFSET_WIDTH) (l_page l) <
       getCyclicDist (Z.shiftr va OFFSET_WIDTH) (l_page w)) /\
    (forall l, In l after -> l_leaf l = true ->
       getCyclicDist (Z.shiftr va OFFSET_WIDTH) (l_page l) <=
       getCyclicDist (Z.shiftr va OFFSET_WIDTH) (l_page w)) /\
    ram pm (l_addr w) = l_frame w /\
    findNewFrame pm va last =
      (l_frame w,
       clearFrame (PMevict (PMwrite pm (l_addr w) 0) (l_frame w) (l_page w)) (l_frame w)) /\
    ram (snd (findNewFrame pm va last)) (l_addr w) = 0 /\
    (forall i, 0 <= i < PAGE_SIZE ->
       ram (snd (findNewFrame pm va last)) (paddr (l_frame w) i) = 0) /\
    filter is_evict (calls (snd (findNewFrame pm va last))) =
      EvEvict (l_frame w) (l_page w) :: filter is_evict (calls pm) /\
    exists page, swap (snd (findNewFrame pm va last)) (l_page w) = Some page /\
      forall i, 0 <= i < PAGE_SIZE -> page i = ram pm (l_frame w * PAGE_SIZE + i).
Proof.
  intros Site He Hfull.
  destruct (AllocSite_context pm va last Site) as (k & pc & T & L & Hpc & Lpc & Wpc & _).
  pose proof (searchTree_tier (ram pm) va last) as Tier.
  pose proof (findNewFrame_cases pm va last) as C.
  destruct (find (reusable (ram pm) last) (treeLinks (ram pm))) as [l|] eqn:Ef;
    [contradiction|].
  destruct Tier as [_ Em]. rewrite Em in Hfull.
  destruct (Z.ltb_spec (maxUsed (treeLinks (ram pm)) + 1) NUM_FRAMES) as [Hlt|Hge]; [lia|].
  destruct (evict_candidate pm k pc last T L Hpc Lpc Wpc va Ef ltac:(lia))
    as (w & Ew & Hin & Hleaf).
  rewrite Ew in C.
  destruct (farthest_split _ _ _ _ Ew) as [[E _]|(bf & af & El & _ & _ & Hbef & Haft)];
    [discriminate|].
  pose proof (treeLinks_sound (ram pm) w Hin) as Snd.
  destruct Snd as (q & i & g & Hv & Hl & Wq & Ea & We & Epg & Elf).
  pose proof (tree_range _ _ T _ _ Hv (snoc_nonempty q i) Hl We) as Hfd.
  pose proof (tree_used _ _ T) as Hk.
  assert (Hfd' : 0 <= l_frame w < NUM_FRAMES) by lia.
  rewrite (frame_u64 _ Hfd') in C.
  pose proof (alloc_evict pm k pc last T L Hpc Lpc Wpc w Hin Hleaf) as Post.
  rewrite (frame_u64 _ Hfd') in Post.
  exists bf, w, af.
  split; [exact El|]. split; [exact Hleaf|]. split; [exact Hbef|]. split; [exact Haft|].
  split; [now apply link_entry|]. split; [exact C|].
  rewrite C. cbn [snd].
  destruct Post as ((k' & _ & _ & [Hz _] & _) & _ & Z' & _ & P5).
  split; [|split; [|split]].
  - apply clearFrame_zero_stays. cbn [PMevict PMwrite ram]. now rewrite Z.eqb_refl.
  - intros j Hj. rewrite paddr_small by assumption. now apply Hz.
  - rewrite clearFrame_evicts. reflexivity.
  - assert (Hlen : plen (q ++ [i]) = TABLES_DEPTH).
    { rewrite Hleaf in Elf. symmetry in Elf. now apply Z.eqb_eq in Elf. }
    assert (Wcut : walk (ram (clearFrame (PMevict (PMwrite pm (l_addr w) 0) (l_frame w) (l_page w))
                                         (l_frame w))) 0 (q ++ [i]) = None).
    { match goal with |- ?x = None => destruct x as [f'|] eqn:Wx; [|reflexivity] end.
      exfalso.
      destruct (alloc_evict pm k pc last T L Hpc Lpc Wpc w Hin Hleaf)
        as ((k2 & _ & _ & [_ Hun] & _) & _).
      rewrite (frame_u64 _ Hfd') in Hun.
      destruct (alloc_evict pm k pc last T L Hpc Lpc Wpc w Hin Hleaf)
        as (_ & _ & _ & P4 & _).
      rewrite (frame_u64 _ Hfd') in P4.
      destruct (P4 _ _ Hv Hlen Wx) as (W0 & _).
      assert (f' = l_frame w) by congruence. subst f'.
      apply (Hun (q ++ [i]) Hv ltac:(lia)). exact Wx. }
    destruct (P5 _ Hv Hlen Wcut) as [[W0 _]|(fd & c & W0 & Sc & Dc)]; [congruence|].
    assert (fd = l_frame w) by congruence. subst fd.
    rewrite <- Epg in Sc. exists c. split; assumption.
Qed.

(** C3: in the eviction tier the page of the address and the pages of all
    links are page numbers below [NUM_PAGES], and the allocator takes, among
    the links to data frames (the entries of the tables of depth
    [TABLES_DEPTH - 1]), one whose page is at maximal cyclic distance
    [min(|a - b|, NUM_PAGES - |a - b|)] from the page of the address, the
    first in pre-order among those; it zeroes the entry that pointed to the
    frame, calls [PMevict] with the frame and its page number, which stores
    the words of the frame, zeroes the frame, and returns it. *)
Theorem evicts_farthest (pm : PM) (va last : Z) :
  AllocSite pm va last ->
  emptyFrame (searchTree (ram pm) va last) = 0 ->
  NUM_FRAMES <= maxFrame (searchTree (ram pm) va last) + 1 ->
  let target := Z.shiftr va OFFSET_WIDTH in
  0 <= target < NUM_PAGES /\
  (forall l, In l (treeLinks (ram pm)) -> 0 <= l_page l < NUM_PAGES) /\
  exists before w after,
    treeLinks (ram pm) = before ++ w :: after /\ l_leaf w = true /\
    (forall l, In l before -> l_leaf l = true ->
       cyclicDistance target (l_page l) < cyclicDistance target (l_page w)) /\
    (forall l, In l after -> l_leaf l = true ->
       cyclicDistance target (l_page l) <= cyclicDistance target (l_page w)) /\
    ram pm (l_addr w) = l_frame w /\
    findNewFrame pm va last =
      (l_frame w,
       clearFrame (PMevict (PMwrite pm (l_addr w) 0) (l_frame w) (l_page w)) (l_frame w)) /\
    ram (snd (findNewFrame pm va last)) (l_addr w) = 0 /\
    (forall i, 0 <= i < PAGE_SIZE ->
       ram (snd (findNewFrame pm va last)) (paddr (l_frame w) i) = 0) /\
    filter is_evict (calls (snd (findNewFrame pm va last))) =
      EvEvict (l_frame w) (l_page w) :: filter is_evict (calls pm) /\
    exists page, swap (snd (findNewFrame pm va last)) (l_page w) = Some page /\
      forall i, 0 <= i < PAGE_SIZE -> page i = ram pm (l_frame w * PAGE_SIZE + i).
Proof.
  intros Site He Hfull target.
  assert (HN : NUM_PAGES < 2 ^ 64) by (rewrite NUM_PAGES_pow; apply pages_fit; lia).
  assert (Ht : 0 <= target < NUM_PAGES).
  { destruct Site as (pm0 & n & _ & Hva & _). now apply page_in_range. }
  pose proof (link_page_range (ram pm)) as Hpages.
  split; [exact Ht|]. split; [exact Hpages|].
  destruct (farthest_leaf_evicted pm va last Site He Hfull)
    as (before & w & after & E & Hleaf & Hbef & Haft & Rest).
  fold target in Hbef, Haft.
  assert (Hd : forall l, In l (treeLinks (ram pm)) ->
                 getCyclicDist target (l_page l) = cyclicDistance target (l_page l)).
  { intros l Hl. apply getCyclicDist_min; auto. }
  assert (Hw : In w (treeLinks (ram pm))).
  { rewrite E. apply in_or_app. right. now left. }
  exists before, w, after.
  split; [exact E|]. split; [exact Hleaf|]. split; [|split; [|exact Rest]].
  - intros l Hl Lf. rewrite <- !Hd; [now apply Hbef | exact Hw |].
    rewrite E. apply in_or_app. now left.
  - intros l Hl Lf. rewrite <- !Hd; [now apply Haft | exact Hw |].
    rewrite E. apply in_or_app. right. now right.
Qed.

(** ** The three tiers at the calls the translator makes *)

Lemma find_split {A} (p : A -> bool) : forall xs x,
  find p xs = Some x ->
  exists before after, xs = before ++ x :: after /\ p x = true /\
                       forall y, In y before -> p y = false.
Proof.
  induction xs as [|y xs IH]; intros x H; cbn [find] in H; [discriminate|].
  destruct (p y) eqn:Ey.
  - inversion H; subst. exists [], xs. split; [reflexivity|]. split; [assumption | intros ? []].
  - destruct (IH x H) as (bf & af & E & Hx & Hbf). exists (y :: bf), af.
    split; [now rewrite E|]. split; [assumption|].
    intros z [<-|Hz]; [assumption | now apply Hbf].
Qed.

(** C2 (with the reusable frames being the table frames): a call of
    [findNewFrame] made by the translator takes the first link in pre-order
    to a table frame that is empty and is not the protected frame, zeroes the
    entry that pointed to it and evicts nothing; if there is none and
    [maxUsed + 1 < NUM_FRAMES] it returns [maxUsed + 1], a frame no earlier
    call touched and no entry points to, and leaves the memory as it was;
    otherwise [maxUsed + 1 = NUM_FRAMES] and it evicts a mapped data page,
    with a single call of [PMevict]. *)
Theorem three_tiers (pm : PM) (va last : Z) :
  AllocSite pm va last ->
  (exists before l after,
     treeLinks (ram pm) = before ++ l :: after /\
     reusable (ram pm) last l = true /\
     (forall x, In x before -> reusable (ram pm) last x = false) /\
     ram pm (l_addr l) = l_frame l /\
     findNewFrame pm va last = (l_frame l, PMwrite pm (l_addr l) 0) /\
     filter is_evict (calls (snd (findNewFrame pm va last))) = filter is_evict (calls pm)) \/
  ((forall x, In x (treeLinks (ram pm)) -> reusable (ram pm) last x = false) /\
   maxUsed (treeLinks (ram pm)) + 1 < NUM_FRAMES /\
   findNewFrame pm va last = (maxUsed (treeLinks (ram pm)) + 1, pm) /\
   (forall e, In e (calls pm) -> ~ concerns (maxUsed (treeLinks (ram pm)) + 1) e) /\
   (forall x, In x (treeLinks (ram pm)) -> l_frame x <= maxUsed (treeLinks (ram pm)))) \/
  ((forall x, In x (treeLinks (ram pm)) -> reusable (ram pm) last x = false) /\
   maxUsed (treeLinks (ram pm)) + 1 = NUM_FRAMES /\
   exists w, In w (treeLinks (ram pm)) /\ l_leaf w = true /\
     findNewFrame pm va last =
       (l_frame w,
        clearFrame (PMevict (PMwrite pm (l_addr w) 0) (l_frame w) (l_page w)) (l_frame w)) /\
     filter is_evict (calls (snd (findNewFrame pm va last))) =
       EvEvict (l_frame w) (l_page w) :: filter is_evict (calls pm)).
Proof.
  intros Site.
  destruct (AllocSite_context pm va last Site) as (k & pc & T & L & Hpc & Lpc & Wpc & F).
  pose proof (findNewFrame_cases pm va last) as C.
  pose proof (maxUsed_tree _ _ T L) as Ek.
  pose proof (tree_used _ _ T) as Hk.
  destruct (find (reusable (ram pm) last) (treeLinks (ram pm))) as [l|] eqn:Ef.
  - left. destruct (find_split _ _ _ Ef) as (bf & af & E & Hl & Hbf).
    apply find_some in Ef. destruct Ef as [Hin _].
    exists bf, l, af. rewrite C. cbn [snd PMwrite calls filter is_evict].
    repeat (split; [first [assumption | reflexivity | now apply link_entry]|]). reflexivity.
  - right. pose proof (find_none _ _ Ef) as Hnone.
    destruct (Z.ltb_spec (maxUsed (treeLinks (ram pm)) + 1) NUM_FRAMES) as [Hlt|Hge].
    + left. split; [exact Hnone|]. split; [exact Hlt|]. split; [exact C|]. split.
      * intros e He. rewrite Forall_forall in F. specialize (F e He). rewrite Ek.
        pose proof page_size_pos. destruct e; cbn [below concerns] in *; nia.
      * intros x Hx. unfold maxUsed. apply fold_max_in. now apply in_map.
    + right. split; [exact Hnone|]. split; [lia|].
      destruct (evict_candidate pm k pc last T L Hpc Lpc Wpc va Ef ltac:(lia))
        as (w & Ew & Hin & Hleaf).
      rewrite Ew in C.
      pose proof (treeLinks_sound (ram pm) w Hin) as Snd.
      destruct Snd as (q & i & g & Hv & Hl & Wq & Ea & We & Epg & Elf).
      pose proof (tree_range _ _ T _ _ Hv (snoc_nonempty q i) Hl We) as Hfd.
      rewrite (frame_u64 (l_frame w)) in C by lia.
      exists w. split; [exact Hin|]. split; [exact Hleaf|]. split; [exact C|].
      rewrite C. cbn [snd]. rewrite clearFrame_evicts. reflexivity.
Qed.

(** ** The out-parameters of the traversal *)

Lemma fold_absorb_no_leaf va ls : forall o,
  (forall l, In l ls -> l_leaf l = false) ->
  maxDistFrame (fold_left (absorb va) ls o) = maxDistFrame o /\
  maxDistParentAdd (fold_left (absorb va) ls o) = maxDistParentAdd o /\
  maxDistPage (fold_left (absorb va) ls o) = maxDistPage o.
Proof.
  induction ls as [|l ls IH]; intros o H; [cbn; auto|].
  cbn [fold_left].
  destruct (IH (absorb va o l) ltac:(intros x Hx; apply H; now right)) as (A & B & C).
  rewrite A, B, C. unfold absorb. rewrite (H l ltac:(now left)).
  destruct (l_frame l >? maxFrame o); cbn; auto.
Qed.

Lemma treeLinks_frame_nonzero mem l :
  1 <= TABLES_DEPTH < 2 ^ 64 -> In l (treeLinks mem) -> l_frame l <> 0.
Proof. intros Hfit Hl. unfold treeLinks in Hl. eapply links_frame_nonzero; eauto. Qed.

(** The eviction candidate of a traversal that finds no reusable frame. *)
Lemma searchTree_candidate mem va last :
  1 <= TABLES_DEPTH < 2 ^ 64 ->
  find (reusable mem last) (treeLinks mem) = None ->
  match farthest (Z.shiftr va OFFSET_WIDTH) None (treeLinks mem) with
  | Some w =>
      In w (treeLinks mem) /\ l_leaf w = true /\
      maxDistFrame (searchTree mem va last) = l_frame w /\
      maxDistParentAdd (searchTree mem va last) = l_addr w /\
      maxDistPage (searchTree mem va last) = l_page w
  | None =>
      (forall l, In l (treeLinks mem) -> l_leaf l = false) /\
      maxDistFrame (searchTree mem va last) = 0 /\
      maxDistParentAdd (searchTree mem va last) = 0 /\
      maxDistPage (searchTree mem va last) = 0
  end.
Proof.
  intros Hfit Ef. pose proof (searchTree_spec mem va last Hfit) as S.
  rewrite Ef in S. rewrite S.
  pose proof (fold_absorb_farthest va (treeLinks mem) searchInit
                (fun l => treeLinks_frame_nonzero mem l Hfit)) as F.
  change (candidate searchInit) with (@None Link) in F.
  destruct (farthest (Z.shiftr va OFFSET_WIDTH) None (treeLinks mem)) as [w|] eqn:Efar.
  - apply farthest_in in Efar. destruct Efar as [Efar|[Hin Hleaf]]; [discriminate|].
    split; [exact Hin|]. split; [exact Hleaf | exact F].
  - apply farthest_none in Efar. destruct Efar as [_ Hno]. split; [exact Hno|].
    apply (fold_absorb_no_leaf va (treeLinks mem) searchInit Hno).
Qed.

(** A traversal that reports no empty frame found no reusable frame. *)
Lemma searchTree_no_reuse mem va last :
  1 <= TABLES_DEPTH < 2 ^ 64 ->
  emptyFrame (searchTree mem va last) = 0 ->
  find (reusable mem last) (treeLinks mem) = None.
Proof.
  intros Hfit E0. pose proof (searchTree_spec mem va last Hfit) as S.
  destruct (find (reusable mem last) (treeLinks mem)) as [l|] eqn:Ef; [|reflexivity].
  destruct S as [S1 _]. apply find_some in Ef. destruct Ef as [Hin _].
  apply (treeLinks_frame_nonzero mem l Hfit) in Hin. congruence.
Qed.

(** ** What an access does to the memory *)

(** The walk of the translator over a mapped path reads the entries and
    changes nothing. *)
Lemma translateLoop_hit pm va : forall n cur prev f,
  walk (ram pm) cur (pathOf n (Z.shiftr va OFFSET_WIDTH)) = Some f ->
  exists parent, translateLoop va n (mkWalk pm cur prev) = mkWalk pm f parent.
Proof.
  induction n as [|n IH]; intros cur prev f W.
  - cbn [pathOf walk] in W. inversion W; subst. exists prev. reflexivity.
  - cbn [pathOf walk] in W. cbn [translateLoop].
    unfold translateLevel. cbn [w_pm w_add1]. rewrite level_index. unfold PMread.
    destruct (ram pm (paddr cur (getOffset (Z.shiftr (Z.shiftr va OFFSET_WIDTH)
                                                  (Z.of_nat n * OFFSET_WIDTH)))) =? 0);
      [discriminate|].
    apply IH. exact W.
Qed.

Lemma translate_hit (pm : PM) (va f : Z) :
  Reachable pm -> 0 <= va < VIRTUAL_MEMORY_SIZE ->
  walk (ram pm) 0 (pathOfAddress va) = Some f ->
  translateVirtualAdd pm va =
  (f, PMrestore pm f (Z.shiftr va OFFSET_WIDTH)).
Proof.
  intros R Hva W.
  pose proof (Reachable_Inv pm R) as HI.
  destruct (translate_spec pm va HI Hva) as (_ & Hf & _ & _ & _ & _ & Ef).
  destruct (translateLoop_hit pm va (Z.to_nat TABLES_DEPTH) 0 0 f W) as (parent & EL).
  rewrite EL in Ef. cbn [w_add1] in Ef.
  rewrite (surjective_pairing (translateVirtualAdd pm va)). f_equal; [exact Ef|].
  unfold translateVirtualAdd. cbn [snd]. rewrite EL. cbn [w_pm w_add1].
  rewrite u64_small; [reflexivity|]. rewrite <- Ef. pose proof page_size_pos. nia.
Qed.

(** X1: a translation started in a reachable state for an address whose page
    is mapped returns the frame of the page and makes a single call to the
    collaborator, the restore: no entry is written and nothing is evicted.
    The words outside that frame stay as they are, and with a restore that
    takes pages out of backing storage the memory and the backing storage
    are left untouched. *)
Theorem resident_page_hit (pm : PM) (va f : Z) :
  Reachable pm -> 0 <= va < VIRTUAL_MEMORY_SIZE ->
  walk (ram pm) 0 (pathOfAddress va) = Some f ->
  fst (translateVirtualAdd pm va) = f /\
  calls (snd (translateVirtualAdd pm va)) =
    EvRestore f (Z.shiftr va OFFSET_WIDTH) :: calls pm /\
  (forall a, ~ (f * PAGE_SIZE <= a < f * PAGE_SIZE + PAGE_SIZE) ->
     ram (snd (translateVirtualAdd pm va)) a = ram pm a) /\
  (RESTORE_MOVES = true ->
     (forall a, ram (snd (translateVirtualAdd pm va)) a = ram pm a) /\
     (forall p, swap (snd (translateVirtualAdd pm va)) p = swap pm p)).
Proof.
  intros R Hva W. rewrite (translate_hit pm va f R Hva W). cbn [fst snd].
  split; [reflexivity|]. split; [apply PMrestore_calls|].
  split; [intros a Ha; now apply PMrestore_outside|].
  intros HM. pose proof (Reachable_NoStale pm HM R) as NS.
  assert (S0 : swap pm (Z.shiftr va OFFSET_WIDTH) = None).
  { rewrite <- (pageOf_pathOfAddress va Hva).
    apply (NS _ f (pathOfAddress_vpath va) (pathOfAddress_plen va) W). }
  unfold PMrestore. rewrite S0. cbn [ram swap]. split; reflexivity.
Qed.

(** After an access the page of the address is mapped, to the frame the
    translation returned. *)
Lemma mapped_after_access pm a pm1 :
  Reachable pm -> 0 <= a < VIRTUAL_MEMORY_SIZE ->
  pm1 = snd (VMread pm a) \/ (exists v, pm1 = snd (VMwrite pm a v)) ->
  Reachable pm1 /\
  walk (ram pm1) 0 (pathOfAddress a) = Some (fst (translateVirtualAdd pm a)).
Proof.
  intros R Ha Hpm1. pose proof addresses_fit as H64.
  pose proof (Reachable_Inv pm R) as HI.
  destruct (translate_spec pm a HI Ha) as ((k & new & T & L & _) & Hf & W & _).
  destruct Hpm1 as [->|[v ->]].
  - split; [constructor; [assumption | lia]|].
    rewrite VMread_in_range by lia. exact W.
  - split; [constructor; [assumption | lia]|].
    rewrite VMwrite_in_range by lia. cbn [snd].
    destruct (data_write_spec _ k _ _ (getOffset a) v T L
                (pathOfAddress_vpath a) (pathOfAddress_plen a) W
                ltac:(apply getOffset_range; nia)) as (_ & _ & WS & _).
    rewrite WS; [exact W | apply pathOfAddress_vpath | rewrite pathOfAddress_plen; lia].
Qed.

(** X2: after a read or a write at an address, the next access to an address
    of the same page finds the page mapped: it is served from the frame the
    first translation returned, evicts nothing and writes no entry of the
    page table; the read makes the restore call only, the write the restore
    call and the write of the word. *)
Theorem repeated_access_hits (pm pm1 : PM) (a b : Z) :
  Reachable pm ->
  0 <= a < VIRTUAL_MEMORY_SIZE -> 0 <= b < VIRTUAL_MEMORY_SIZE ->
  Z.shiftr a OFFSET_WIDTH = Z.shiftr b OFFSET_WIDTH ->
  pm1 = snd (VMread pm a) \/ (exists v, pm1 = snd (VMwrite pm a v)) ->
  let f := fst (translateVirtualAdd pm a) in
  fst (translateVirtualAdd pm1 b) = f /\
  calls (snd (VMread pm1 b)) = EvRestore f (Z.shiftr b OFFSET_WIDTH) :: calls pm1 /\
  (forall v, calls (snd (VMwrite pm1 b v)) =
             EvWrite (f * PAGE_SIZE + getOffset b) v ::
             EvRestore f (Z.shiftr b OFFSET_WIDTH) :: calls pm1).
Proof.
  intros R Ha Hb E Hpm1 f.
  destruct (mapped_after_access pm a pm1 R Ha Hpm1) as [R1 W].
  assert (Ep : pathOfAddress b = pathOfAddress a) by (unfold pathOfAddress; now rewrite E).
  rewrite <- Ep in W. fold f in W.
  pose proof (translate_hit pm1 b f R1 Hb W) as Hit.
  assert (Hf : fst (translateVirtualAdd pm1 b) = f) by now rewrite Hit.
  assert (Hc : calls (snd (translateVirtualAdd pm1 b)) =
               EvRestore f (Z.shiftr b OFFSET_WIDTH) :: calls pm1).
  { rewrite Hit. apply PMrestore_calls. }
  clear Hit.
  pose proof (Reachable_Inv pm R) as HI.
  destruct (translate_spec pm a HI Ha) as (_ & Hr & _).
  split; [exact Hf|]. split.
  - rewrite VMread_in_range by lia. exact Hc.
  - intros v. rewrite VMwrite_in_range by lia. cbn [snd PMwrite calls].
    rewrite Hc, Hf. f_equal. f_equal. apply paddr_small; [unfold f; lia|].
    apply getOffset_range. nia.
Qed.

(** X3: a translation started in a reachable state for an address below
    [VIRTUAL_MEMORY_SIZE] returns a frame other than the root and below
    [NUM_FRAMES], leaves the page of the address mapped to that frame, and
    the word the caller then accesses lies inside the physical memory. *)
Theorem translation_maps_page (pm : PM) (va : Z) :
  Reachable pm -> 0 <= va < VIRTUAL_MEMORY_SIZE ->
  let f := fst (translateVirtualAdd pm va) in
  1 <= f < NUM_FRAMES /\
  walk (ram (snd (translateVirtualAdd pm va))) 0 (pathOfAddress va) = Some f /\
  paddr f (getOffset va) = f * PAGE_SIZE + getOffset va /\
  PAGE_SIZE <= paddr f (getOffset va) < NUM_FRAMES * PAGE_SIZE.
Proof.
  intros R Hva f. pose proof (Reachable_Inv pm R) as HI.
  destruct (translate_spec pm va HI Hva) as (_ & Hf & W & _). fold f in Hf, W.
  pose proof (getOffset_range va ltac:(nia)) as Ho.
  split; [exact Hf|]. split; [exact W|].
  rewrite paddr_small by (assumption || lia). split; [reflexivity | nia].
Qed.

(** The page numbers the program passes to the collaborator. *)
Definition page_ok (e : PMevent) : Prop :=
  match e with
  | EvWrite _ _ => True
  | EvEvict _ page => 0 <= page < NUM_PAGES
  | EvRestore _ page => 0 <= page < NUM_PAGES
  end.

Lemma findNewFrame_page_ok pm va last :
  Forall page_ok (calls pm) -> Forall page_ok (calls (snd (findNewFrame pm va last))).
Proof.
  intros F. assert (Hfit : 1 <= TABLES_DEPTH < 2 ^ 64) by nia.
  unfold findNewFrame. cbn zeta.
  destruct (Z.eqb_spec (emptyFrame (searchTree (ram pm) va last)) 0) as [E0|E0]; cbn [negb].
  - destruct (maxFrame (searchTree (ram pm) va last) + 1 <? NUM_FRAMES); [exact F|].
    cbn [snd].
    assert (Hp : 0 <= maxDistPage (searchTree (ram pm) va last) < NUM_PAGES).
    { pose proof (searchTree_candidate (ram pm) va last Hfit
                    (searchTree_no_reuse (ram pm) va last Hfit E0)) as C.
      destruct (farthest (Z.shiftr va OFFSET_WIDTH) None (treeLinks (ram pm))) as [w|].
      - destruct C as (Hin & _ & _ & _ & ->). now apply (link_page_range (ram pm)).
      - destruct C as (_ & _ & _ & ->). rewrite NUM_PAGES_pow.
        pose proof (pow_pages_pos TABLES_DEPTH ltac:(lia)). lia. }
    destruct (clearFrame_calls
                (PMevict (PMwrite pm (maxDistParentAdd (searchTree (ram pm) va last)) 0)
                         (u64 (maxDistFrame (searchTree (ram pm) va last)))
                         (maxDistPage (searchTree (ram pm) va last)))
                (u64 (maxDistFrame (searchTree (ram pm) va last)))) as (new & E & Fn).
    rewrite E. apply Forall_app. split.
    + eapply Forall_impl; [|exact Fn]. intros e (i & _ & ->). exact I.
    + cbn [PMevict PMwrite calls]. constructor; [exact Hp|]. constructor; [exact I | exact F].
  - cbn [snd PMwrite calls]. constructor; [exact I | exact F].
Qed.

Lemma translateLoop_page_ok va : forall n w,
  Forall page_ok (calls (w_pm w)) -> Forall page_ok (calls (w_pm (translateLoop va n w))).
Proof.
  induction n as [|n IH]; intros w F; [exact F|].
  cbn [translateLoop]. apply IH. unfold translateLevel. cbn zeta.
  destruct (PMread (w_pm w) _ =? 0); [|exact F].
  cbn [w_pm PMwrite calls]. constructor; [exact I|]. now apply findNewFrame_page_ok.
Qed.

Lemma translate_page_ok pm va :
  0 <= va < VIRTUAL_MEMORY_SIZE -> Forall page_ok (calls pm) ->
  Forall page_ok (calls (snd (translateVirtualAdd pm va))).
Proof.
  intros Hva F. unfold translateVirtualAdd. cbn [snd]. rewrite PMrestore_calls.
  constructor; [exact (page_in_range va Hva)|].
  apply (translateLoop_page_ok va (Z.to_nat TABLES_DEPTH) (mkWalk pm 0 0)). exact F.
Qed.

Lemma Reachable_page_ok pm : Reachable pm -> Forall page_ok (calls pm).
Proof.
  induction 1 as [|pm va R IH Hva|pm va value R IH Hva].
  - unfold VMinitialize. destruct (clearFrame_calls PMinit 0) as (new & E & F).
    rewrite E. cbn [PMinit calls]. rewrite app_nil_r.
    eapply Forall_impl; [|exact F]. intros e (i & _ & ->). exact I.
  - destruct (Z_lt_dec va VIRTUAL_MEMORY_SIZE) as [Hlt|Hge].
    + rewrite VMread_in_range by assumption. cbn [snd]. apply translate_page_ok; [lia | exact IH].
    + destruct (VM_out_of_range pm va 0 ltac:(lia)) as [-> _]. exact IH.
  - destruct (Z_lt_dec va VIRTUAL_MEMORY_SIZE) as [Hlt|Hge].
    + rewrite VMwrite_in_range by assumption. cbn [snd PMwrite calls].
      constructor; [exact I|]. apply translate_page_ok; [lia | exact IH].
    + destruct (VM_out_of_range pm va value ltac:(lia)) as [_ ->]. exact IH.
Qed.

(** X4: in every reachable state all the calls made to the collaborator stay
    inside the physical and the virtual memory: every written address is
    below [NUM_FRAMES * PAGE_SIZE], every evicted or restored frame is a
    frame from 1 to [NUM_FRAMES - 1], and every evicted or restored page
    number is below [NUM_PAGES]. *)
Theorem physical_accesses_in_bounds (pm : PM) (e : PMevent) :
  Reachable pm -> In e (calls pm) ->
  match e with
  | EvWrite a _ => 0 <= a < NUM_FRAMES * PAGE_SIZE
  | EvEvict f page => 1 <= f < NUM_FRAMES /\ 0 <= page < NUM_PAGES
  | EvRestore f page => 1 <= f < NUM_FRAMES /\ 0 <= page < NUM_PAGES
  end.
Proof.
  intros R Hin. destruct (Reachable_History pm R) as (k & T & _ & F).
  pose proof (Reachable_page_ok pm R) as P.
  rewrite Forall_forall in F, P. specialize (F e Hin). specialize (P e Hin).
  pose proof (tree_used _ _ T) as Hk. pose proof page_size_pos.
  destruct e; cbn [below page_ok] in F, P; [nia | split; [lia | exact P] ..].
Qed.

(** X5: with a restore that takes pages out of backing storage, what a read
    at an address returns changes only by a write to that address: from a
    reachable state, reads anywhere and writes to other addresses, whatever
    they evict, leave the result of [VMread] at the address as it was. *)
Theorem read_value_stable (pm : PM) (a : Z) (ops : list Op) :
  RESTORE_MOVES = true -> Reachable pm -> 0 <= a < VIRTUAL_MEMORY_SIZE ->
  Forall (harmless a) ops ->
  fst (VMread (run ops pm) a) = fst (VMread pm a).
Proof.
  intros HM R Ha Hops. pose proof addresses_fit as H64.
  destruct (run_harmless a (stored pm a) ops pm HM R Ha eq_refl Hops) as [R' S'].
  rewrite !VMread_stored by (auto using Reachable_Inv).
  rewrite !stored_VMread; auto using Reachable_Inv; try lia.
  - now rewrite S'.
  - right. now apply Reachable_NoStale.
  - right. now apply Reachable_NoStale.
Qed.

Lemma stored_init a : stored (VMinitialize PMinit) a = 0.
Proof.
  assert (Hz : forall x, ram (VMinitialize PMinit) x = 0).
  { intros x. unfold VMinitialize. rewrite clearFrame_ram. now destruct (existsb _ indices). }
  unfold stored.
  destruct (walk (ram (VMinitialize PMinit)) 0 (pathOfAddress a)); [apply Hz|].
  unfold VMinitialize. rewrite clearFrame_swap. reflexivity.
Qed.

(** X6: started on a memory of zeros with a restore that takes pages out of
    backing storage, the program reads 0 at every address that was never
    written, whatever was read or written elsewhere in the meantime: a page
    never shows the words of the page that had its frame before. *)
Theorem never_written_reads_zero (a : Z) (ops : list Op) :
  RESTORE_MOVES = true -> 0 <= a < VIRTUAL_MEMORY_SIZE ->
  Forall (harmless a) ops ->
  fst (VMread (run ops (VMinitialize PMinit)) a) = (1, Some 0).
Proof.
  intros HM Ha Hops. pose proof addresses_fit as H64.
  destruct (run_harmless a 0 ops (VMinitialize PMinit) HM reach_init Ha (stored_init a) Hops)
    as [R' S'].
  rewrite VMread_stored by (auto using Reachable_Inv).
  rewrite stored_VMread; auto using Reachable_Inv; try lia.
  - now rewrite S'.
  - right. now apply Reachable_NoStale.
Qed.

(** X7: in every reachable state the frames linked in the page table are
    exactly the frames from 1 to the highest linked index, which is below
    [NUM_FRAMES], and every word of every frame above that index is 0: the
    frame the fresh-index tier hands out holds zeros although nothing clears
    it. *)
Theorem frames_in_use_contiguous (pm : PM) :
  Reachable pm ->
  let used := maxUsed (treeLinks (ram pm)) in
  0 <= used < NUM_FRAMES /\
  (forall l, In l (treeLinks (ram pm)) -> 1 <= l_frame l <= used) /\
  (forall f, 1 <= f <= used -> exists l, In l (treeLinks (ram pm)) /\ l_frame l = f) /\
  (forall f i, used < f -> 0 <= i < PAGE_SIZE -> ram pm (f * PAGE_SIZE + i) = 0).
Proof.
  intros R used. destruct (Reachable_Inv pm R) as (k & T & L).
  assert (Ek : used = k) by (apply (maxUsed_tree _ _ T L)).
  rewrite Ek. split; [apply (tree_used _ _ T)|]. split; [|split].
  - intros l Hl.
    destruct (treeLinks_sound (ram pm) l Hl) as (q & i & g & Hv & Hlen & _ & _ & W & _).
    apply (tree_range _ _ T (q ++ [i]) (l_frame l)); auto.
    intros Hnil. now destruct q.
  - intros f Hf. destruct (L f Hf ltac:(lia)) as (p & Hv & Hlen & W).
    assert (Hne : p <> []).
    { intros ->. cbn [walk] in W. inversion W. lia. }
    destruct (mapped_link (ram pm) p f Hv Hne Hlen W) as (l & Hin & El & _).
    exists l. split; assumption.
  - intros f i Hf Hi. apply (tree_unused _ _ T); assumption.
Qed.

(** X14: every call of [findNewFrame] made by the translator hands out a
    frame that holds only zeros and that no entry of the page table points
    to any more; the protected frame stays where it was in the tree; and
    every virtual address keeps its stored word, in the frame of its page or,
    for the page that was evicted, in backing storage. *)
Theorem allocated_frame_is_clean (pm : PM) (va last : Z) :
  AllocSite pm va last ->
  let f := fst (findNewFrame pm va last) in
  let pm' := snd (findNewFrame pm va last) in
  (forall i, 0 <= i < PAGE_SIZE -> ram pm' (f * PAGE_SIZE + i) = 0) /\
  (forall p, vpath p -> plen p <= TABLES_DEPTH -> walk (ram pm') 0 p <> Some f) /\
  (forall p, vpath p -> plen p < TABLES_DEPTH ->
     walk (ram pm) 0 p = Some last -> walk (ram pm') 0 p = Some last) /\
  (forall a, 0 <= a < VIRTUAL_MEMORY_SIZE -> stored pm' a = stored pm a).
Proof.
  intros Site f pm'.
  destruct (AllocSite_context pm va last Site) as (k & pc & T & L & Hpc & Lpc & Wpc & _).
  pose proof (findNewFrame_post pm k pc last T L Hpc Lpc Wpc va) as Post.
  fold f in Post. fold pm' in Post.
  pose proof (AllocPost_DataRel _ _ _ _ _ [] Post) as D.
  destruct Post as ((k' & _ & _ & [Hz Hd] & _) & Wc & _).
  split; [exact Hz|]. split; [exact Hd|]. split.
  - intros p Hp Lp Wp.
    assert (p = pc) by (apply (tree_inj _ _ T p pc last); auto; lia).
    subst p. exact Wc.
  - intros a Ha. apply (stored_DataRel pm pm' [] a D Ha).
    intros E. pose proof (pathOfAddress_plen a) as Hl. rewrite E in Hl.
    unfold plen in Hl. cbn in Hl. lia.
Qed.

End Valid.

(** ** The helpers on their own *)

Lemma clearFrame_writes (frame : Z) (js : list Z) : forall pm,
  (forall i, In i js -> 0 <= frame * PAGE_SIZE + i < 2 ^ 64) ->
  calls (fold_left (fun pm i => PMwrite pm (u64 (frame * PAGE_SIZE + i)) 0) js pm) =
  rev (map (fun i => EvWrite (frame * PAGE_SIZE + i) 0) js) ++ calls pm.
Proof.
  induction js as [|i js IH]; intros pm Hjs; [reflexivity|].
  cbn [fold_left map rev]. rewrite IH by (intros j Hj; apply Hjs; now right).
  cbn [PMwrite calls]. rewrite u64_small by (apply Hjs; now left).
  now rewrite <- app_assoc.
Qed.

(** X8: [clearFrame] on a frame that lies inside the 64-bit address space
    writes 0 to each of its [PAGE_SIZE] words, in increasing address order,
    and does nothing else: afterwards the frame holds zeros, every other word
    and the backing storage are as before. *)
Theorem clearFrame_effect (pm : PM) (frameToClear : Z) :
  0 <= frameToClear -> (frameToClear + 1) * PAGE_SIZE <= 2 ^ 64 ->
  (forall i, 0 <= i < PAGE_SIZE ->
     ram (clearFrame pm frameToClear) (frameToClear * PAGE_SIZE + i) = 0) /\
  (forall a, ~ (frameToClear * PAGE_SIZE <= a < (frameToClear + 1) * PAGE_SIZE) ->
     ram (clearFrame pm frameToClear) a = ram pm a) /\
  swap (clearFrame pm frameToClear) = swap pm /\
  calls (clearFrame pm frameToClear) =
    rev (map (fun i => EvWrite (frameToClear * PAGE_SIZE + i) 0) indices) ++ calls pm.
Proof.
  intros Hf Hfit.
  assert (Hin : forall i, In i indices -> 0 <= frameToClear * PAGE_SIZE + i < 2 ^ 64).
  { intros i Hi. apply In_indices in Hi. nia. }
  split; [|split; [|split]].
  - intros i Hi. rewrite clearFrame_ram.
    assert (E : existsb (fun j => frameToClear * PAGE_SIZE + i =? u64 (frameToClear * PAGE_SIZE + j))
                        indices = true).
    { apply existsb_exists. exists i. split; [now apply In_indices|].
      rewrite u64_small by nia. apply Z.eqb_refl. }
    now rewrite E.
  - intros a Ha. rewrite clearFrame_ram.
    destruct (existsb _ indices) eqn:E; [|reflexivity].
    apply existsb_exists in E. destruct E as (j & Hj & Ej).
    rewrite u64_small in Ej by (now apply Hin).
    apply Z.eqb_eq in Ej. apply In_indices in Hj. exfalso. apply Ha. nia.
  - apply clearFrame_swap.
  - unfold clearFrame. now apply clearFrame_writes.
Qed.

(** X9: for an offset width from 1 to 64, [getOffset] returns the
    [OFFSET_WIDTH] low bits of the address: the remainder modulo
    [PAGE_SIZE], a table index; together with the page number
    [address >> OFFSET_WIDTH] it gives the address back, and applying it
    twice changes nothing. *)
Theorem getOffset_low_bits (address : Z) :
  1 <= OFFSET_WIDTH <= 64 ->
  getOffset address = address mod PAGE_SIZE /\
  getOffset address = Z.land address (PAGE_SIZE - 1) /\
  0 <= getOffset address < PAGE_SIZE /\
  Z.shiftl (Z.shiftr address OFFSET_WIDTH) OFFSET_WIDTH + getOffset address = address /\
  getOffset (getOffset address) = getOffset address.
Proof.
  intros HW. pose proof (PAGE_SIZE_pos ltac:(lia)) as Hp.
  rewrite !getOffset_mod by lia.
  split; [reflexivity|]. split; [|split; [|split]].
  - unfold PAGE_SIZE. rewrite <- Z.land_ones by lia.
    now rewrite Z.ones_equiv, <- Z.sub_1_r.
  - apply Z.mod_pos_bound. lia.
  - rewrite Z.shiftr_div_pow2, Z.shiftl_mul_pow2 by lia. fold PAGE_SIZE.
    rewrite Z.mul_comm. symmetry. apply Z.div_mod. lia.
  - apply Z.mod_mod. lia.
Qed.

(** X10: on page numbers below [NUM_PAGES] the cyclic distance is a metric
    that never exceeds half the number of pages: it is symmetric, it is 0
    exactly between a page and itself, and it satisfies the triangle
    inequality. *)
Theorem getCyclicDist_metric (a b c : Z) :
  NUM_PAGES < 2 ^ 64 ->
  0 <= a < NUM_PAGES -> 0 <= b < NUM_PAGES -> 0 <= c < NUM_PAGES ->
  getCyclicDist a b = getCyclicDist b a /\
  (getCyclicDist a b = 0 <-> a = b) /\
  0 <= getCyclicDist a b /\ 2 * getCyclicDist a b <= NUM_PAGES /\
  getCyclicDist a c <= getCyclicDist a b + getCyclicDist b c.
Proof.
  intros HN Ha Hb Hc.
  rewrite (getCyclicDist_min a b), (getCyclicDist_min b a), (getCyclicDist_min a c),
    (getCyclicDist_min b c) by assumption.
  repeat split; lia.
Qed.

(** *** Evictions per access *)

Lemma findNewFrame_evicts pm va last :
  exists new,
    filter is_evict (calls (snd (findNewFrame pm va last))) = new ++ filter is_evict (calls pm) /\
    (length new <= 1)%nat.
Proof.
  unfold findNewFrame. cbn zeta.
  destruct (negb (emptyFrame (searchTree (ram pm) va last) =? 0)).
  - exists []. split; [reflexivity | cbn; lia].
  - destruct (maxFrame (searchTree (ram pm) va last) + 1 <? NUM_FRAMES).
    + exists []. split; [reflexivity | cbn; lia].
    + eexists [_]. cbn [snd]. rewrite clearFrame_evicts. split; [reflexivity | cbn; lia].
Qed.

Lemma translateLoop_evicts va : forall n w,
  exists new,
    filter is_evict (calls (w_pm (translateLoop va n w))) =
      new ++ filter is_evict (calls (w_pm w)) /\
    (length new <= n)%nat.
Proof.
  induction n as [|n IH]; intros w.
  - exists []. split; [reflexivity | cbn; lia].
  - cbn [translateLoop].
    destruct (IH (translateLevel va (Z.of_nat (S n)) w)) as (new & E & Hn).
    assert (H1 : exists one,
               filter is_evict (calls (w_pm (translateLevel va (Z.of_nat (S n)) w))) =
                 one ++ filter is_evict (calls (w_pm w)) /\ (length one <= 1)%nat).
    { unfold translateLevel. cbn zeta.
      destruct (PMread (w_pm w) _ =? 0).
      - cbn [w_pm PMwrite calls filter is_evict]. apply findNewFrame_evicts.
      - exists []. split; [reflexivity | cbn; lia]. }
    destruct H1 as (one & E1 & H1).
    exists (new ++ one). split.
    + rewrite E, E1. now rewrite app_assoc.
    + rewrite length_app. lia.
Qed.

Lemma translate_evicts pm va :
  exists new,
    filter is_evict (calls (snd (translateVirtualAdd pm va))) =
      new ++ filter is_evict (calls pm) /\
    (length new <= Z.to_nat TABLES_DEPTH)%nat.
Proof.
  unfold translateVirtualAdd. cbn [snd]. rewrite PMrestore_calls. cbn [filter is_evict].
  apply (translateLoop_evicts va (Z.to_nat TABLES_DEPTH) (mkWalk pm 0 0)).
Qed.

(** X11: a call of [VMread] or [VMwrite], from any memory and for any
    address, evicts at most [TABLES_DEPTH] pages: one at most for each level
    of the walk; for an address that is out of range it evicts nothing. *)
Theorem access_evicts_at_most_depth (pm : PM) (virtualAddress value : Z) :
  (exists new,
     filter is_evict (calls (snd (VMread pm virtualAddress))) =
       new ++ filter is_evict (calls pm) /\
     (length new <= Z.to_nat TABLES_DEPTH)%nat) /\
  (exists new,
     filter is_evict (calls (snd (VMwrite pm virtualAddress value))) =
       new ++ filter is_evict (calls pm) /\
     (length new <= Z.to_nat TABLES_DEPTH)%nat) /\
  (VIRTUAL_MEMORY_SIZE <= virtualAddress ->
     filter is_evict (calls (snd (VMread pm virtualAddress))) = filter is_evict (calls pm) /\
     filter is_evict (calls (snd (VMwrite pm virtualAddress value))) =
       filter is_evict (calls pm)).
Proof.
  unfold VMread, VMwrite.
  destruct (Z.gtb_spec virtualAddress (VIRTUAL_MEMORY_SIZE - 1)) as [Hout|Hin].
  - split; [|split]; [exists [] | exists [] | intros _]; (split; [reflexivity | cbn; lia || reflexivity]).
  - cbn [snd PMwrite calls filter is_evict].
    split; [apply translate_evicts|]. split; [apply translate_evicts | lia].
Qed.

(** *** The traversal on any memory *)


(** X13: when no page is mapped, no table can be reused and the highest
    linked frame is the last one ([maxFrame + 1 >= NUM_FRAMES]), the eviction
    tier of [findNewFrame] has no candidate and works on its initial values:
    it writes 0 to address 0, calls [PMevict] for frame 0 as page 0, clears
    frame 0, the root of the page table, and returns 0. *)
Theorem evict_without_pages (pm : PM) (virtualAdd lastCreatedFrame : Z) :
  1 <= TABLES_DEPTH < 2 ^ 64 ->
  (forall l, In l (treeLinks (ram pm)) ->
     l_leaf l = false /\ reusable (ram pm) lastCreatedFrame l = false) ->
  NUM_FRAMES <= maxUsed (treeLinks (ram pm)) + 1 ->
  findNewFrame pm virtualAdd lastCreatedFrame =
  (0, clearFrame (PMevict (PMwrite pm 0 0) 0 0) 0).
Proof.
  intros Hfit Hno Hfull.
  assert (Ef : find (reusable (ram pm) lastCreatedFrame) (treeLinks (ram pm)) = None).
  { destruct (find _ (treeLinks (ram pm))) as [l|] eqn:Ef; [|reflexivity].
    apply find_some in Ef. destruct Ef as [Hin Hr].
    destruct (Hno l Hin) as [_ Hr']. congruence. }
  pose proof (searchTree_candidate (ram pm) virtualAdd lastCreatedFrame Hfit Ef) as C.
  pose proof (searchTree_spec (ram pm) virtualAdd lastCreatedFrame Hfit) as S.
  rewrite Ef in S.
  assert (S1 : emptyFrame (searchTree (ram pm) virtualAdd lastCreatedFrame) = 0).
  { rewrite S. apply fold_absorb_emptyFrame. }
  assert (S2 : maxFrame (searchTree (ram pm) virtualAdd lastCreatedFrame) =
               maxUsed (treeLinks (ram pm))).
  { rewrite S. apply fold_absorb_maxFrame. }
  destruct (farthest (Z.shiftr virtualAdd OFFSET_WIDTH) None (treeLinks (ram pm))) as [w|].
  { destruct C as (Hin & Hleaf & _). destruct (Hno w Hin) as [Hl _]. congruence. }
  destruct C as (_ & S3 & S4 & S5).
  unfold findNewFrame. cbn zeta. rewrite S1, S2, S3, S4, S5. cbn [Z.eqb negb].
  destruct (Z.ltb_spec (maxUsed (treeLinks (ram pm)) + 1) NUM_FRAMES); [lia|].
  reflexivity.
Qed.

End VirtualMemory.

(** C9: on page numbers below [NUM_PAGES] the cyclic distance is
    [min (|a - b|) (NUM_PAGES - |a - b|)]; with 8 pages the distance from 1 to
    6 is 3 and the distance from 0 to 7 is 1. *)
Theorem getCyclicDist_correct (OFFSET_WIDTH TABLES_DEPTH : Z) :
  NUM_PAGES OFFSET_WIDTH TABLES_DEPTH < 2 ^ 64 ->
  (forall a b,
     0 <= a < NUM_PAGES OFFSET_WIDTH TABLES_DEPTH ->
     0 <= b < NUM_PAGES OFFSET_WIDTH TABLES_DEPTH ->
     getCyclicDist OFFSET_WIDTH TABLES_DEPTH a b =
     Z.min (Z.abs (a - b)) (NUM_PAGES OFFSET_WIDTH TABLES_DEPTH - Z.abs (a - b))) /\
  (NUM_PAGES OFFSET_WIDTH TABLES_DEPTH = 8 ->
     getCyclicDist OFFSET_WIDTH TABLES_DEPTH 1 6 = 3 /\
     getCyclicDist OFFSET_WIDTH TABLES_DEPTH 0 7 = 1).
Proof.
  intros HN. split.
  - intros a b Ha Hb. now apply getCyclicDist_min.
  - intros H8. rewrite !getCyclicDist_min by lia. rewrite H8. split; reflexivity.
Qed.

Lemma getCyclicDist_correct_witness :
  (forall a b, 0 <= a < NUM_PAGES 1 3 -> 0 <= b < NUM_PAGES 1 3 ->
     getCyclicDist 1 3 a b = Z.min (Z.abs (a - b)) (NUM_PAGES 1 3 - Z.abs (a - b))) /\
  (NUM_PAGES 1 3 = 8 -> getCyclicDist 1 3 1 6 = 3 /\ getCyclicDist 1 3 0 7 = 1).
Proof. apply (getCyclicDist_correct 1 3). vm_compute. reflexivity. Defined.

(** ** Executions on a small configuration

    [OFFSET_WIDTH = 1], [TABLES_DEPTH = 2] and [NUM_FRAMES = 4]: pages of two
    words, four pages and eight virtual addresses; besides the root there is
    room for one table and two more frames. *)

(** Pages 0 and 1 written: frame 1 is their table, frames 2 and 3 hold them. *)
Definition two_pages (moves : bool) : PM :=
  run 1 2 4 moves [OpWrite 0 5; OpWrite 2 7] (VMinitialize 1 PMinit).

(** Then page 2 written, which evicts pages 0 and 1. *)
Definition three_pages (moves : bool) : PM :=
  run 1 2 4 moves [OpWrite 0 5; OpWrite 2 7; OpWrite 4 8] (VMinitialize 1 PMinit).

(** Page 0 written and page 1 only read: frame 3, which holds page 1, is all 0. *)
Definition zero_page : PM :=
  run 1 2 4 true [OpWrite 0 5; OpRead 2] (VMinitialize 1 PMinit).

(** After the first iteration of the translation of address 4 in [two_pages]:
    frame 2 was evicted and is now the empty table linked from the root. *)
Definition empty_table : PM :=
  w_pm (translateLevel 1 2 4 4 2 (mkWalk (two_pages true) 0 0)).

Ltac reachable :=
  unfold two_pages, three_pages, zero_page, run; cbn [fold_left runOp];
  repeat match goal with
    | |- Reachable _ _ _ _ (VMinitialize _ _) => apply reach_init
    | |- Reachable _ _ _ _ (snd (VMwrite _ _ _ _ _ _ _)) => apply reach_write
    | |- Reachable _ _ _ _ (snd (VMread _ _ _ _ _ _)) => apply reach_read
    end; lia.

Lemma two_pages_site : AllocSite 1 2 4 true (two_pages true) 4 0.
Proof.
  exists (two_pages true), 0%nat.
  split; [reachable|]. split; [cbv [VIRTUAL_MEMORY_SIZE]; lia|].
  split; [lia|]. cbv zeta. split; [reflexivity|]. split; reflexivity.
Qed.

Lemma empty_table_site : AllocSite 1 2 4 true empty_table 4 2.
Proof.
  exists (two_pages true), 1%nat.
  split; [reachable|]. split; [cbv [VIRTUAL_MEMORY_SIZE]; lia|].
  split; [lia|]. cbv zeta. split; [reflexivity|]. split; reflexivity.
Qed.

Lemma small_ram : 4 * PAGE_SIZE 1 <= 2 ^ 64.
Proof. cbv [PAGE_SIZE]. lia. Qed.

Lemma write_then_read_witness :
  fst (VMwrite 1 2 4 true (VMinitialize 1 PMinit) 0 5) = 1 /\
  fst (VMread 1 2 4 true
         (run 1 2 4 true [OpWrite 2 7; OpWrite 4 8; OpRead 6; OpWrite 1 3]
            (snd (VMwrite 1 2 4 true (VMinitialize 1 PMinit) 0 5))) 0) = (1, Some 5).
Proof.
  apply (write_then_read 1 2 4 true ltac:(lia) ltac:(lia) ltac:(lia) ltac:(lia) small_ram).
  - reflexivity.
  - apply reach_init.
  - cbv [VIRTUAL_MEMORY_SIZE]. lia.
  - repeat constructor; lia.
Defined.

(** With a collaborator whose restore leaves the page in backing storage, a
    page that was evicted once is overwritten by its old contents at every
    later translation: in [three_pages false] page 0 is in backing storage
    with 5 at address 0; the program writes 9 to address 0 and reads 5 back. *)
Lemma write_then_read_stale :
  Reachable 1 2 4 false (three_pages false) /\
  0 <= 0 < VIRTUAL_MEMORY_SIZE 1 2 /\
  fst (VMwrite 1 2 4 false (three_pages false) 0 9) = 1 /\
  fst (VMread 1 2 4 false (snd (VMwrite 1 2 4 false (three_pages false) 0 9)) 0)
  = (1, Some 5).
Proof.
  split; [reachable|]. split; [cbv [VIRTUAL_MEMORY_SIZE]; lia|].
  split; reflexivity.
Qed.

Lemma three_tiers_witness :
  let pm := two_pages true in
  let links := treeLinks 1 2 (ram pm) in
  let result := findNewFrame 1 2 4 pm 4 0 in
  (exists before l after,
     links = before ++ l :: after /\
     reusable 1 (ram pm) 0 l = true /\
     (forall x, In x before -> reusable 1 (ram pm) 0 x = false) /\
     ram pm (l_addr l) = l_frame l /\
     result = (l_frame l, PMwrite pm (l_addr l) 0) /\
     filter is_evict (calls (snd result)) = filter is_evict (calls pm)) \/
  ((forall x, In x links -> reusable 1 (ram pm) 0 x = false) /\
   maxUsed links + 1 < 4 /\
   result = (maxUsed links + 1, pm) /\
   (forall e, In e (calls pm) -> ~ concerns 1 (maxUsed links + 1) e) /\
   (forall x, In x links -> l_frame x <= maxUsed links)) \/
  ((forall x, In x links -> reusable 1 (ram pm) 0 x = false) /\
   maxUsed links + 1 = 4 /\
   exists w,
     In w links /\ l_leaf w = true /\
     result =
       (l_frame w,
        clearFrame 1 (PMevict 1 (PMwrite pm (l_addr w) 0) (l_frame w) (l_page w))
          (l_frame w)) /\
     filter is_evict (calls (snd result)) =
       EvEvict (l_frame w) (l_page w) :: filter is_evict (calls pm)).
Proof.
  cbv zeta. apply (three_tiers 1 2 4 true ltac:(lia) ltac:(lia) ltac:(lia) ltac:(lia) small_ram).
  - exact two_pages_site.
Defined.

(** In [zero_page] frame 3 is linked in the tree, is not the protected frame
    0 and holds only zeros, yet the allocator evicts page 0 and returns its
    frame 2: a frame that holds a page is not looked into. *)
Lemma zero_data_frame_not_reused :
  AllocSite 1 2 4 true zero_page 4 0 /\
  In (mkLink 3 3 1 true) (treeLinks 1 2 (ram zero_page)) /\
  frameIsEmpty 1 (ram zero_page) 3 = true /\
  fst (findNewFrame 1 2 4 zero_page 4 0) = 2 /\
  filter is_evict (calls (snd (findNewFrame 1 2 4 zero_page 4 0))) = [EvEvict 2 0].
Proof.
  split.
  - exists zero_page, 0%nat.
    split; [reachable|]. split; [cbv [VIRTUAL_MEMORY_SIZE]; lia|].
    split; [lia|]. cbv zeta. split; [reflexivity|]. split; reflexivity.
  - split; [vm_compute; tauto|]. split; [reflexivity|]. split; reflexivity.
Qed.

(** In [two_pages] the pre-order has page 0 (frame 2) before page 1 (frame
    3); for address 6, of page 3, page 0 is at distance 1 and page 1 at
    distance 2, and the allocator evicts page 1. *)
Lemma two_pages_far_site : AllocSite 1 2 4 true (two_pages true) 6 0.
Proof.
  exists (two_pages true), 0%nat.
  split; [reachable|]. split; [cbv [VIRTUAL_MEMORY_SIZE]; lia|].
  split; [lia|]. cbv zeta. split; [reflexivity|]. split; reflexivity.
Qed.

Lemma evicts_farthest_witness :
  let pm := two_pages true in
  let result := findNewFrame 1 2 4 pm 6 0 in
  let target := Z.shiftr 6 1 in
  (map l_page (filter l_leaf (treeLinks 1 2 (ram pm))) = [0; 1] /\
   cyclicDistance 1 2 target 0 = 1 /\ cyclicDistance 1 2 target 1 = 2 /\
   filter is_evict (calls (snd result)) = [EvEvict 3 1]) /\
  0 <= target < NUM_PAGES 1 2 /\
  (forall l, In l (treeLinks 1 2 (ram pm)) -> 0 <= l_page l < NUM_PAGES 1 2) /\
  exists before w after,
    treeLinks 1 2 (ram pm) = before ++ w :: after /\
    l_leaf w = true /\
    (forall l, In l before -> l_leaf l = true ->
       cyclicDistance 1 2 target (l_page l) < cyclicDistance 1 2 target (l_page w)) /\
    (forall l, In l after -> l_leaf l = true ->
       cyclicDistance 1 2 target (l_page l) <= cyclicDistance 1 2 target (l_page w)) /\
    ram pm (l_addr w) = l_frame w /\
    result =
      (l_frame w,
       clearFrame 1 (PMevict 1 (PMwrite pm (l_addr w) 0) (l_frame w) (l_page w))
         (l_frame w)) /\
    ram (snd result) (l_addr w) = 0 /\
    (forall i, 0 <= i < PAGE_SIZE 1 -> ram (snd result) (paddr 1 (l_frame w) i) = 0) /\
    filter is_evict (calls (snd result)) =
      EvEvict (l_frame w) (l_page w) :: filter is_evict (calls pm) /\
    exists page,
      swap (snd result) (l_page w) = Some page /\
      (forall i, 0 <= i < PAGE_SIZE 1 -> page i = ram pm (l_frame w * PAGE_SIZE 1 + i)).
Proof.
  cbv zeta. split.
  { split; [reflexivity|]. split; [reflexivity|]. split; reflexivity. }
  apply (evicts_farthest 1 2 4 true ltac:(lia) ltac:(lia) ltac:(lia) ltac:(lia) small_ram).
  - exact two_pages_far_site.
  - reflexivity.
  - vm_compute. discriminate.
Defined.

(** In [two_pages] page 0 is mapped (to frame 2), and its translation calls
    [PMrestore] all the same. *)
Lemma restore_on_mapped_page :
  walk 1 (ram (two_pages true)) 0 (pathOfAddress 1 2 0) = Some 2 /\
  calls (snd (translateVirtualAdd 1 2 4 true (two_pages true) 0)) =
  EvRestore 2 0 :: calls (two_pages true).
Proof. split; reflexivity. Qed.

Lemma protected_frame_kept_witness :
  frameIsEmpty 1 (ram empty_table) 2 = true /\
  fst (findNewFrame 1 2 4 empty_table 4 2) <> 2 /\
  (emptyFrame (searchTree 1 2 (ram empty_table) 4 2) <> 0 ->
   emptyFrame (searchTree 1 2 (ram empty_table) 4 2) <> 2) /\
  (emptyFrame (searchTree 1 2 (ram empty_table) 4 2) = 0 ->
   4 <= maxFrame (searchTree 1 2 (ram empty_table) 4 2) + 1 ->
   maxDistFrame (searchTree 1 2 (ram empty_table) 4 2) <> 2 /\
   maxDistFrame (searchTree 1 2 (ram empty_table) 4 2) <> 0).
Proof.
  split; [reflexivity|].
  apply (protected_frame_kept 1 2 4 true ltac:(lia) ltac:(lia) ltac:(lia) ltac:(lia) small_ram).
  - exact empty_table_site.
Defined.

Lemma pages_distinct_witness :
  let pm := three_pages true in
  (forall p q f,
     vpath 1 p -> vpath 1 q -> plen p <= 2 -> plen q <= 2 ->
     walk 1 (ram pm) 0 p = Some f -> walk 1 (ram pm) 0 q = Some f -> p = q) /\
  (forall p f i,
     vpath 1 p -> plen p < 2 -> 0 <= i < PAGE_SIZE 1 ->
     walk 1 (ram pm) 0 p = Some f -> walk 1 (ram pm) 0 (p ++ [i]) <> Some f) /\
  (forall a b f,
     0 <= a < VIRTUAL_MEMORY_SIZE 1 2 -> 0 <= b < VIRTUAL_MEMORY_SIZE 1 2 ->
     walk 1 (ram pm) 0 (pathOfAddress 1 2 a) = Some f ->
     walk 1 (ram pm) 0 (pathOfAddress 1 2 b) = Some f ->
     Z.shiftr a 1 = Z.shiftr b 1) /\
  (forall a b,
     Z.shiftr a 1 = Z.shiftr b 1 ->
     walk 1 (ram pm) 0 (pathOfAddress 1 2 a) =
     walk 1 (ram pm) 0 (pathOfAddress 1 2 b)) /\
  (forall a ops,
     0 <= a < VIRTUAL_MEMORY_SIZE 1 2 -> Forall (elsewhere 1 a) ops ->
     stored 1 2 (run 1 2 4 true ops pm) a = stored 1 2 pm a).
Proof.
  cbv zeta. apply (pages_distinct 1 2 4 true ltac:(lia) ltac:(lia) ltac:(lia) ltac:(lia) small_ram).
  - reachable.
Defined.

Lemma root_frame_stays_witness :
  (forall pm i, 0 <= i < PAGE_SIZE 1 -> ram (VMinitialize 1 pm) (paddr 1 0 i) = 0) /\
  (forall pm va last,
     AllocSite 1 2 4 true pm va last -> 1 <= fst (findNewFrame 1 2 4 pm va last) < 4) /\
  (forall pm,
     Reachable 1 2 4 true pm ->
     (forall p, p <> [] -> walk 1 (ram pm) 0 p <> Some 0) /\
     (forall f page, In (EvEvict f page) (calls pm) -> f <> 0) /\
     (forall f page, In (EvRestore f page) (calls pm) -> f <> 0)).
Proof.
  apply (root_frame_stays 1 2 4 true ltac:(lia) ltac:(lia) ltac:(lia) ltac:(lia) small_ram).
Defined.

Lemma fresh_frame_not_cleared_witness :
  let pm := VMinitialize 1 PMinit in
  findNewFrame 1 2 4 pm 0 0 = (1, pm) /\
  (PMread pm (paddr 1 0 (getOffset 1 (Z.shiftr 0 (2 * 1)))) = 0 ->
   forall previous w,
     w = translateLevel 1 2 4 0 2 (mkWalk pm 0 previous) ->
     w_add1 w = 1 /\
     calls (w_pm w) =
       EvWrite (paddr 1 0 (getOffset 1 (Z.shiftr 0 (2 * 1)))) 1 :: calls pm /\
     (forall a, a <> paddr 1 0 (getOffset 1 (Z.shiftr 0 (2 * 1))) ->
        ram (w_pm w) a = ram pm a) /\
     (forall i, paddr 1 1 i <> paddr 1 0 (getOffset 1 (Z.shiftr 0 (2 * 1))) ->
        ram (w_pm w) (paddr 1 1 i) = ram pm (paddr 1 1 i))).
Proof.
  cbv zeta.
  destruct (fresh_frame_not_cleared 1 2 4 (VMinitialize 1 PMinit) 0 2 0) as [_ H].
  apply H.
  - reflexivity.
  - vm_compute. reflexivity.
Defined.

(** ** The further properties on the small configuration *)

Lemma two_pages_reachable : Reachable 1 2 4 true (two_pages true).
Proof. reachable. Qed.

Lemma small_range (a : Z) : 0 <= a < 8 -> 0 <= a < VIRTUAL_MEMORY_SIZE 1 2.
Proof. cbv [VIRTUAL_MEMORY_SIZE]. lia. Qed.

Lemma resident_page_hit_witness :
  let pm := two_pages true in
  fst (translateVirtualAdd 1 2 4 true pm 0) = 2 /\
  calls (snd (translateVirtualAdd 1 2 4 true pm 0)) = EvRestore 2 (Z.shiftr 0 1) :: calls pm /\
  (forall a, ~ (2 * PAGE_SIZE 1 <= a < 2 * PAGE_SIZE 1 + PAGE_SIZE 1) ->
     ram (snd (translateVirtualAdd 1 2 4 true pm 0)) a = ram pm a) /\
  (true = true ->
     (forall a, ram (snd (translateVirtualAdd 1 2 4 true pm 0)) a = ram pm a) /\
     (forall p, swap (snd (translateVirtualAdd 1 2 4 true pm 0)) p = swap pm p)).
Proof.
  cbv zeta.
  apply (resident_page_hit 1 2 4 true ltac:(lia) ltac:(lia) ltac:(lia) ltac:(lia) small_ram).
  - exact two_pages_reachable.
  - apply small_range. lia.
  - reflexivity.
Defined.

Lemma repeated_access_hits_witness :
  let pm := two_pages true in
  let pm1 := snd (VMwrite 1 2 4 true pm 4 8) in
  let f := fst (translateVirtualAdd 1 2 4 true pm 4) in
  fst (translateVirtualAdd 1 2 4 true pm1 5) = f /\
  calls (snd (VMread 1 2 4 true pm1 5)) = EvRestore f (Z.shiftr 5 1) :: calls pm1 /\
  (forall v, calls (snd (VMwrite 1 2 4 true pm1 5 v)) =
             EvWrite (f * PAGE_SIZE 1 + getOffset 1 5) v ::
             EvRestore f (Z.shiftr 5 1) :: calls pm1).
Proof.
  cbv zeta.
  apply (repeated_access_hits 1 2 4 true ltac:(lia) ltac:(lia) ltac:(lia) ltac:(lia) small_ram).
  - exact two_pages_reachable.
  - apply small_range. lia.
  - apply small_range. lia.
  - reflexivity.
  - right. exists 8. reflexivity.
Defined.

Lemma translation_maps_page_witness :
  let pm := two_pages true in
  let f := fst (translateVirtualAdd 1 2 4 true pm 4) in
  1 <= f < 4 /\
  walk 1 (ram (snd (translateVirtualAdd 1 2 4 true pm 4))) 0 (pathOfAddress 1 2 4) = Some f /\
  paddr 1 f (getOffset 1 4) = f * PAGE_SIZE 1 + getOffset 1 4 /\
  PAGE_SIZE 1 <= paddr 1 f (getOffset 1 4) < 4 * PAGE_SIZE 1.
Proof.
  cbv zeta.
  apply (translation_maps_page 1 2 4 true ltac:(lia) ltac:(lia) ltac:(lia) ltac:(lia) small_ram).
  - exact two_pages_reachable.
  - apply small_range. lia.
Defined.

Lemma physical_accesses_in_bounds_witness :
  In (EvEvict 2 0) (calls (three_pages true)) /\
  1 <= 2 < 4 /\ 0 <= 0 < NUM_PAGES 1 2.
Proof.
  assert (H : In (EvEvict 2 0) (calls (three_pages true))) by (vm_compute; tauto).
  split; [exact H|].
  apply (physical_accesses_in_bounds 1 2 4 true ltac:(lia) ltac:(lia) ltac:(lia) ltac:(lia)
           small_ram (three_pages true) (EvEvict 2 0)); [reachable | exact H].
Defined.

Lemma read_value_stable_witness :
  fst (VMread 1 2 4 true (run 1 2 4 true [OpWrite 4 8; OpRead 6] (two_pages true)) 0) =
  fst (VMread 1 2 4 true (two_pages true) 0).
Proof.
  apply (read_value_stable 1 2 4 true ltac:(lia) ltac:(lia) ltac:(lia) ltac:(lia) small_ram).
  - reflexivity.
  - exact two_pages_reachable.
  - apply small_range. lia.
  - repeat constructor; lia.
Defined.

Lemma never_written_reads_zero_witness :
  fst (VMread 1 2 4 true
         (run 1 2 4 true [OpWrite 0 5; OpWrite 2 7; OpWrite 4 8] (VMinitialize 1 PMinit)) 1) =
  (1, Some 0).
Proof.
  apply (never_written_reads_zero 1 2 4 true ltac:(lia) ltac:(lia) ltac:(lia) ltac:(lia)
           small_ram).
  - reflexivity.
  - apply small_range. lia.
  - repeat constructor; lia.
Defined.

Lemma frames_in_use_contiguous_witness :
  let pm := two_pages true in
  let used := maxUsed (treeLinks 1 2 (ram pm)) in
  0 <= used < 4 /\
  (forall l, In l (treeLinks 1 2 (ram pm)) -> 1 <= l_frame l <= used) /\
  (forall f, 1 <= f <= used -> exists l, In l (treeLinks 1 2 (ram pm)) /\ l_frame l = f) /\
  (forall f i, used < f -> 0 <= i < PAGE_SIZE 1 -> ram pm (f * PAGE_SIZE 1 + i) = 0).
Proof.
  cbv zeta.
  apply (frames_in_use_contiguous 1 2 4 true ltac:(lia) ltac:(lia) ltac:(lia) ltac:(lia)
           small_ram).
  exact two_pages_reachable.
Defined.

Lemma allocated_frame_is_clean_witness :
  let pm := two_pages true in
  let f := fst (findNewFrame 1 2 4 pm 4 0) in
  let pm' := snd (findNewFrame 1 2 4 pm 4 0) in
  (forall i, 0 <= i < PAGE_SIZE 1 -> ram pm' (f * PAGE_SIZE 1 + i) = 0) /\
  (forall p, vpath 1 p -> plen p <= 2 -> walk 1 (ram pm') 0 p <> Some f) /\
  (forall p, vpath 1 p -> plen p < 2 ->
     walk 1 (ram pm) 0 p = Some 0 -> walk 1 (ram pm') 0 p = Some 0) /\
  (forall a, 0 <= a < VIRTUAL_MEMORY_SIZE 1 2 -> stored 1 2 pm' a = stored 1 2 pm a).
Proof.
  cbv zeta.
  apply (allocated_frame_is_clean 1 2 4 true ltac:(lia) ltac:(lia) ltac:(lia) ltac:(lia)
           small_ram).
  exact two_pages_site.
Defined.

Lemma clearFrame_effect_witness :
  (forall i, 0 <= i < PAGE_SIZE 1 -> ram (clearFrame 1 PMinit 3) (3 * PAGE_SIZE 1 + i) = 0) /\
  (forall a, ~ (3 * PAGE_SIZE 1 <= a < (3 + 1) * PAGE_SIZE 1) ->
     ram (clearFrame 1 PMinit 3) a = ram PMinit a) /\
  swap (clearFrame 1 PMinit 3) = swap PMinit /\
  calls (clearFrame 1 PMinit 3) =
    rev (map (fun i => EvWrite (3 * PAGE_SIZE 1 + i) 0) (indices 1)) ++ calls PMinit.
Proof.
  apply (clearFrame_effect 1 PMinit 3); [lia | cbv [PAGE_SIZE]; lia].
Defined.

Lemma getOffset_low_bits_witness :
  getOffset 4 1234 = 1234 mod PAGE_SIZE 4 /\
  getOffset 4 1234 = Z.land 1234 (PAGE_SIZE 4 - 1) /\
  0 <= getOffset 4 1234 < PAGE_SIZE 4 /\
  Z.shiftl (Z.shiftr 1234 4) 4 + getOffset 4 1234 = 1234 /\
  getOffset 4 (getOffset 4 1234) = getOffset 4 1234.
Proof. apply (getOffset_low_bits 4 1234). lia. Defined.

Lemma getCyclicDist_metric_witness :
  getCyclicDist 1 3 1 6 = getCyclicDist 1 3 6 1 /\
  (getCyclicDist 1 3 1 6 = 0 <-> 1 = 6) /\
  0 <= getCyclicDist 1 3 1 6 /\ 2 * getCyclicDist 1 3 1 6 <= NUM_PAGES 1 3 /\
  getCyclicDist 1 3 1 3 <= getCyclicDist 1 3 1 6 + getCyclicDist 1 3 6 3.
Proof.
  apply (getCyclicDist_metric 1 3 1 6 3); cbv [NUM_PAGES]; lia.
Defined.


(** With two frames and two levels of tables the first access already
    reaches the eviction tier with no page mapped: the root is linked to the
    table in frame 1, which is the protected frame. *)
Lemma evict_without_pages_witness :
  let pm := w_pm (translateLevel 1 2 2 0 2 (mkWalk (VMinitialize 1 PMinit) 0 0)) in
  findNewFrame 1 2 2 pm 0 1 = (0, clearFrame 1 (PMevict 1 (PMwrite pm 0 0) 0 0) 0).
Proof.
  cbv zeta. apply (evict_without_pages 1 2 2).
  - lia.
  - intros l Hl. vm_compute in Hl. destruct Hl as [<-|[]]. split; reflexivity.
  - vm_compute. discriminate.
Defined.
